(** * skia-canvas-ui: a shallow embedding of [src/core.js]

    The development follows the source file top-down:

    - [Js]: the JavaScript values that reach the polymorphic arithmetic of the
      geometry value objects ([Vector2], [SDim], [SDim2]), with the coercions
      the source relies on ([isNaN], [instanceof], [+], [*], [/]);
    - [Color]: [Color.fromRGB], [Color.fromHex] and [toHex], with the
      string and number built-ins that they call;
    - [Enum]: the enumerations;
    - [Style]: [UIStyle] and [UIStyle.merge];
    - [Scene]: the object store ([Node] / [UIObject] / [Context]), the
      [parent] setter, [_scheduleLayout], the layout functions, the style
      sweep, the draw traversal, the per-frame driver [update] and the
      counters of its debug overlay;
    - [Frames] and [Watcher]: the window of frame times and the
      [performanceWatcher].

    JavaScript numbers are IEEE 754 binary64 values; they are modelled by
    Rocq's primitive floats, which are the same numbers with the same
    rounding. *)

From Stdlib Require Import Floats ZArith Lia.
From stdpp Require Import gmap strings list.

Local Open Scope float_scope.
Set Warnings "-register-all".

(** ** JavaScript values *)

Module Js.

(** The constructors of the objects that the arithmetic helpers can meet:
    the three geometry classes and plain object literals. *)
Inductive class := CVector2 | CSDim | CSDim2 | CObject.

(** The property names read by the arithmetic helpers. *)
Inductive prop :=
  | Px | Py | Pscale | Poffset | PscaleX | PoffsetX | PscaleY | PoffsetY.

(** Values. [VObjStr] stands for any string that contains the text
    [[object Object]], the result of converting an object of one of the
    classes above to a string (none of them overrides [toString] or
    [valueOf]); such a string is never a numeric literal. *)
Inductive value :=
  | VUndefined
  | VNull
  | VBool (b : bool)
  | VNum (f : float)
  | VObjStr
  | VObj (c : class) (fields : list (prop * value)).

Inductive error :=
  | Error (msg : string)
  | TypeError.

Inductive result (A : Type) :=
  | Ok (a : A)
  | Throw (e : error).
Arguments Ok {A} a.
Arguments Throw {A} e.

Definition bind {A B} (r : result A) (k : A -> result B) : result B :=
  match r with
  | Ok a => k a
  | Throw e => Throw e
  end.

Notation "'let!' x ':=' r 'in' k" := (bind r (fun x => k))
  (at level 10, x name, r at level 100, k at level 200).

Definition class_eqb (c d : class) : bool :=
  match c, d with
  | CVector2, CVector2 | CSDim, CSDim | CSDim2, CSDim2 | CObject, CObject => true
  | _, _ => false
  end.

Definition prop_eqb (p q : prop) : bool :=
  match p, q with
  | Px, Px | Py, Py | Pscale, Pscale | Poffset, Poffset
  | PscaleX, PscaleX | PoffsetX, PoffsetX | PscaleY, PscaleY
  | PoffsetY, PoffsetY => true
  | _, _ => false
  end.

(** [ToNumber]. *)
Definition to_number (v : value) : float :=
  match v with
  | VUndefined => nan
  | VNull => 0
  | VBool true => 1
  | VBool false => 0
  | VNum f => f
  | VObjStr => nan
  | VObj _ _ => nan
  end.

(** The global [isNaN], which converts its argument to a number first. *)
Definition isNaN (v : value) : bool := PrimFloat.is_nan (to_number v).

(** [ToBoolean]. *)
Definition to_boolean (v : value) : bool :=
  match v with
  | VUndefined | VNull => false
  | VBool b => b
  | VNum f => negb (PrimFloat.eqb f 0 || PrimFloat.is_nan f)
  | VObjStr => true
  | VObj _ _ => true
  end.

(** [!v]. *)
Definition js_not (v : value) : value := VBool (negb (to_boolean v)).

(** [v instanceof C]: a primitive is an instance of nothing. *)
Definition instanceof (v : value) (c : class) : bool :=
  match v with
  | VObj d _ => class_eqb d c
  | _ => false
  end.

(** [v !== undefined]. *)
Definition is_defined (v : value) : bool :=
  match v with
  | VUndefined => false
  | _ => true
  end.

Fixpoint own_field (p : prop) (fields : list (prop * value)) : option value :=
  match fields with
  | [] => None
  | (q, v) :: rest => if prop_eqb p q then Some v else own_field p rest
  end.

(** A default parameter value [x = d] replaces [undefined] only. *)
Definition default_arg (d : float) (v : value) : value :=
  match v with
  | VUndefined => VNum d
  | _ => v
  end.

(** [new Vector2(x = 0, y = 0)]. *)
Definition new_Vector2 (x y : value) : result value :=
  let x := default_arg 0 x in
  let y := default_arg 0 y in
  if isNaN x then Throw (Error "x is NaN")
  else if isNaN y then Throw (Error "y is NaN")
  else Ok (VObj CVector2 [(Px, x); (Py, y)]).

(** [new SDim(scale = 0, offset = 0)]. *)
Definition new_SDim (scale offset : value) : result value :=
  let scale := default_arg 0 scale in
  let offset := default_arg 0 offset in
  if isNaN scale then Throw (Error "scale is NaN")
  else if isNaN offset then Throw (Error "offset is NaN")
  else Ok (VObj CSDim [(Pscale, scale); (Poffset, offset)]).

(** [new SDim2(scaleX = 0, offsetX = 0, scaleY, offsetY)]: with no fourth
    argument the first two are taken as offsets. *)
Definition new_SDim2 (scaleX offsetX scaleY offsetY : value) : result value :=
  let scaleX := default_arg 0 scaleX in
  let offsetX := default_arg 0 offsetX in
  if isNaN scaleX then Throw (Error "scaleX is NaN")
  else if isNaN offsetX then Throw (Error "offsetX is NaN")
  else if is_defined scaleY && isNaN scaleY then Throw (Error "scaleY is NaN")
  else if is_defined offsetY && isNaN offsetY then Throw (Error "offsetY is NaN")
  else Ok (VObj CSDim2
             [(PscaleX, if is_defined offsetY then scaleX else VNum 0);
              (PoffsetX, if is_defined offsetY then offsetX else scaleX);
              (PscaleY, if is_defined offsetY then scaleY else VNum 0);
              (PoffsetY, if is_defined offsetY then offsetY else offsetX)]).

(** Reading an own data property that may be absent. *)
Definition field_or_undefined (p : prop) (fields : list (prop * value)) : value :=
  match own_field p fields with
  | Some v => v
  | None => VUndefined
  end.

(** [v.p]. Reading a property of [null] or [undefined] is a [TypeError];
    a primitive has none of the properties of [prop]; an object yields its
    own field, and an [SDim2] has the getters [x] and [y] on its prototype. *)
Definition get (v : value) (p : prop) : result value :=
  match v with
  | VUndefined | VNull => Throw TypeError
  | VBool _ | VNum _ | VObjStr => Ok VUndefined
  | VObj c fields =>
      match own_field p fields with
      | Some w => Ok w
      | None =>
          match c, p with
          | CSDim2, Px =>
              new_SDim (field_or_undefined PscaleX fields)
                       (field_or_undefined PoffsetX fields)
          | CSDim2, Py =>
              new_SDim (field_or_undefined PscaleY fields)
                       (field_or_undefined PoffsetY fields)
          | _, _ => Ok VUndefined
          end
      end
  end.

(** Whether [ToPrimitive] of the value is a string. *)
Definition stringy (v : value) : bool :=
  match v with
  | VObjStr | VObj _ _ => true
  | _ => false
  end.

(** [a + b]: concatenation as soon as one side is a string after
    [ToPrimitive], numeric addition otherwise. *)
Definition js_add (a b : value) : value :=
  if stringy a || stringy b then VObjStr
  else VNum (to_number a + to_number b).

Definition js_sub (a b : value) : value := VNum (to_number a - to_number b).
Definition js_mul (a b : value) : value := VNum (to_number a * to_number b).
Definition js_div (a b : value) : value := VNum (to_number a / to_number b).

(** *** The static helpers of [Vector2], [SDim] and [SDim2]

    The guards are written [!a instanceof C] in the source, which JavaScript
    reads as [(!a) instanceof C]. *)

Definition Vector2_add (a b : value) : result value :=
  if instanceof (js_not a) CVector2 then Throw (Error "a is not Vector2")
  else if instanceof (js_not b) CVector2 then Throw (Error "b is not Vector2")
  else
    let! ax := get a Px in
    let! bx := get b Px in
    let! ay := get a Py in
    let! by_ := get b Py in
    new_Vector2 (js_add ax bx) (js_add ay by_).

Definition Vector2_subtract (a b : value) : result value :=
  if instanceof (js_not a) CVector2 then Throw (Error "a is not Vector2")
  else if instanceof (js_not b) CVector2 then Throw (Error "b is not Vector2")
  else
    let! ax := get a Px in
    let! bx := get b Px in
    let! ay := get a Py in
    let! by_ := get b Py in
    new_Vector2 (js_sub ax bx) (js_sub ay by_).

Definition Vector2_multiply (a b : value) : result value :=
  if instanceof (js_not a) CVector2 then Throw (Error "a is not Vector2")
  else if instanceof (js_not b) CVector2 || isNaN b
       then Throw (Error "b is not Vector2 or number")
  else if instanceof b CVector2 then
    let! ax := get a Px in
    let! bx := get b Px in
    let! ay := get a Py in
    let! by_ := get b Py in
    new_Vector2 (js_mul ax bx) (js_mul ay by_)
  else
    let! ax := get a Px in
    let! ay := get a Py in
    new_Vector2 (js_mul ax b) (js_mul ay b).

Definition Vector2_divide (a b : value) : result value :=
  if instanceof (js_not a) CVector2 then Throw (Error "a is not Vector2")
  else if instanceof (js_not b) CVector2 || isNaN b
       then Throw (Error "b is not Vector2 or number")
  else if instanceof b CVector2 then
    let! ax := get a Px in
    let! bx := get b Px in
    let! ay := get a Py in
    let! by_ := get b Py in
    new_Vector2 (js_div ax bx) (js_div ay by_)
  else
    let! ax := get a Px in
    let! ay := get a Py in
    new_Vector2 (js_div ax b) (js_div ay b).

Definition SDim_add (a b : value) : result value :=
  if instanceof (js_not a) CSDim then Throw (Error "a is not SDim")
  else if instanceof (js_not b) CSDim then Throw (Error "b is not SDim")
  else
    let! asc := get a Pscale in
    let! bsc := get b Pscale in
    let! aof := get a Poffset in
    let! bof := get b Poffset in
    new_SDim (js_add asc bsc) (js_add aof bof).

Definition SDim_subtract (a b : value) : result value :=
  if instanceof (js_not a) CSDim then Throw (Error "a is not SDim")
  else if instanceof (js_not b) CSDim then Throw (Error "b is not SDim")
  else
    let! asc := get a Pscale in
    let! bsc := get b Pscale in
    let! aof := get a Poffset in
    let! bof := get b Poffset in
    new_SDim (js_sub asc bsc) (js_sub aof bof).

Definition SDim2_add (a b : value) : result value :=
  if instanceof (js_not a) CSDim2 then Throw (Error "a is not SDim2")
  else if instanceof (js_not b) CSDim2 then Throw (Error "b is not SDim2")
  else
    let! asx := get a PscaleX in
    let! bsx := get b PscaleX in
    let! aox := get a PoffsetX in
    let! box := get b PoffsetX in
    let! asy := get a PscaleY in
    let! bsy := get b PscaleY in
    let! aoy := get a PoffsetY in
    let! boy := get b PoffsetY in
    new_SDim2 (js_add asx bsx) (js_add aox box) (js_add asy bsy) (js_add aoy boy).

Definition SDim2_subtract (a b : value) : result value :=
  if instanceof (js_not a) CSDim2 then Throw (Error "a is not SDim2")
  else if instanceof (js_not b) CSDim2 then Throw (Error "b is not SDim2")
  else
    let! asx := get a PscaleX in
    let! bsx := get b PscaleX in
    let! aox := get a PoffsetX in
    let! box := get b PoffsetX in
    let! asy := get a PscaleY in
    let! bsy := get b PscaleY in
    let! aoy := get a PoffsetY in
    let! boy := get b PoffsetY in
    new_SDim2 (js_sub asx bsx) (js_sub aox box) (js_sub asy bsy) (js_sub aoy boy).

(** *** The accessors and methods of [Vector2] and the factories of [SDim]
    and [SDim2] *)

(** [get length()]: [Math.sqrt(this.x * this.x + this.y * this.y)]. *)
Definition Vector2_length (this : value) : result value :=
  let! tx := get this Px in
  let! ty := get this Py in
  Ok (VNum (PrimFloat.sqrt (to_number (js_add (js_mul tx tx) (js_mul ty ty))))).

(** [get normalized()]: [Vector2.divide(this, this.length)]. *)
Definition Vector2_normalized (this : value) : result value :=
  let! len := Vector2_length this in
  Vector2_divide this len.

(** [this.lerp(to, weight)]. *)
Definition Vector2_lerp (this to weight : value) : result value :=
  if instanceof (js_not to) CVector2 then Throw (Error "to is not Vector2")
  else if isNaN weight then Throw (Error "weight is NaN")
  else
    let! tx := get this Px in
    let! tox := get to Px in
    let! ty := get this Py in
    let! toy := get to Py in
    new_Vector2
      (js_add (js_mul tx (js_sub (VNum 1) weight)) (js_mul tox weight))
      (js_add (js_mul ty (js_sub (VNum 1) weight)) (js_mul toy weight)).

(** [SDim.fromScale(scale = 0)] and [SDim.fromOffset(offset = 0)]. *)
Definition SDim_fromScale (scale : value) : result value :=
  let scale := default_arg 0 scale in
  if isNaN scale then Throw (Error "scale is NaN")
  else new_SDim scale VUndefined.

Definition SDim_fromOffset (offset : value) : result value :=
  let offset := default_arg 0 offset in
  if isNaN offset then Throw (Error "offset is NaN")
  else new_SDim (VNum 0) offset.

(** [SDim2.fromScale(scaleX = 0, scaleY = 0)] and
    [SDim2.fromOffset(offsetX = 0, offsetY = 0)]. *)
Definition SDim2_fromScale (scaleX scaleY : value) : result value :=
  let scaleX := default_arg 0 scaleX in
  let scaleY := default_arg 0 scaleY in
  if isNaN scaleX then Throw (Error "scaleX is NaN")
  else if isNaN scaleY then Throw (Error "scaleY is NaN")
  else new_SDim2 scaleX (VNum 0) scaleY (VNum 0).

Definition SDim2_fromOffset (offsetX offsetY : value) : result value :=
  let offsetX := default_arg 0 offsetX in
  let offsetY := default_arg 0 offsetY in
  if isNaN offsetX then Throw (Error "offsetX is NaN")
  else if isNaN offsetY then Throw (Error "offsetY is NaN")
  else new_SDim2 offsetX offsetY VUndefined VUndefined.

(** A default parameter value that is an object: [x = new SDim()]. *)
Definition default_object (d : result value) (v : value) : result value :=
  match v with
  | VUndefined => d
  | _ => Ok v
  end.

(** [SDim2.fromSDim(x = new SDim(), y = new SDim())]. *)
Definition SDim2_fromSDim (x y : value) : result value :=
  let! x := default_object (new_SDim VUndefined VUndefined) x in
  let! y := default_object (new_SDim VUndefined VUndefined) y in
  if instanceof (js_not x) CSDim then Throw (Error "x is not SDim")
  else if instanceof (js_not y) CSDim then Throw (Error "y is not SDim")
  else
    let! xs := get x Pscale in
    let! xo := get x Poffset in
    let! ys := get y Pscale in
    let! yo := get y Poffset in
    new_SDim2 xs xo ys yo.

End Js.

(** ** Geometry records

    The well-formed value objects, as the scene graph stores them: their
    fields are numbers. *)

Record Vector2 := mkVector2 { x : float; y : float }.

Record SDim := mkSDim { scale : float; offset : float }.

Record SDim2 := mkSDim2 {
  scaleX : float;
  offsetX : float;
  scaleY : float;
  offsetY : float
}.

(** [new SDim2()], [SDim2.fromScale] and [SDim2.fromOffset] on numbers. *)
Definition SDim2_zero : SDim2 := mkSDim2 0 0 0 0.
Definition SDim2_fromScale (sx sy : float) : SDim2 := mkSDim2 sx 0 sy 0.
Definition SDim2_fromOffset (ox oy : float) : SDim2 := mkSDim2 0 ox 0 oy.
Definition SDim_fromOffset (o : float) : SDim := mkSDim 0 o.

(** The JavaScript objects these records stand for. *)
Definition Vector2_value (v : Vector2) : Js.value :=
  Js.VObj Js.CVector2 [(Js.Px, Js.VNum (x v)); (Js.Py, Js.VNum (y v))].

Definition SDim_value (d : SDim) : Js.value :=
  Js.VObj Js.CSDim [(Js.Pscale, Js.VNum (scale d)); (Js.Poffset, Js.VNum (offset d))].

Definition SDim2_value (d : SDim2) : Js.value :=
  Js.VObj Js.CSDim2
    [(Js.PscaleX, Js.VNum (scaleX d)); (Js.PoffsetX, Js.VNum (offsetX d));
     (Js.PscaleY, Js.VNum (scaleY d)); (Js.PoffsetY, Js.VNum (offsetY d))].

(** ** Colors *)

Module Color.
Import Js.

(** A string is the list of its UTF-16 code units. *)
Definition lit (s : string) : list N :=
  map Ascii.N_of_ascii (String.list_ascii_of_string s).

(** [s.charAt(i)]: the empty string when [i] is out of range. *)
Definition charAt (i : nat) (s : list N) : list N :=
  match s !! i with
  | Some c => [c]
  | None => []
  end.

(** [s.substring(start, end)] for indices that are natural numbers; [end]
    is [None] when the argument is left out. *)
Definition substring (s : list N) (start : nat) (end_ : option nat) : list N :=
  let len := length s in
  let finalStart := Nat.min start len in
  let finalEnd := match end_ with Some e => Nat.min e len | None => len end in
  let from := Nat.min finalStart finalEnd in
  let to := Nat.max finalStart finalEnd in
  take (to - from) (drop from s).

(** White space and line terminators, which [parseInt] skips. *)
Definition is_white_space (c : N) : bool :=
  ((c =? 0x9) || (c =? 0xA) || (c =? 0xB) || (c =? 0xC) || (c =? 0xD) || (c =? 0x20)
   || (c =? 0xA0) || (c =? 0x1680) || ((0x2000 <=? c) && (c <=? 0x200A))
   || (c =? 0x2028) || (c =? 0x2029) || (c =? 0x202F) || (c =? 0x205F)
   || (c =? 0x3000) || (c =? 0xFEFF))%N.

Fixpoint trim_start (s : list N) : list N :=
  match s with
  | c :: rest => if is_white_space c then trim_start rest else s
  | [] => []
  end.

(** The value of a digit of radix 16. *)
Definition digit16 (c : N) : option Z :=
  if ((0x30 <=? c) && (c <=? 0x39))%N then Some (Z.of_N (c - 0x30))
  else if ((0x61 <=? c) && (c <=? 0x66))%N then Some (Z.of_N (c - 0x61 + 10))
  else if ((0x41 <=? c) && (c <=? 0x46))%N then Some (Z.of_N (c - 0x41 + 10))
  else None.

(** The integer that the longest prefix of digits denotes; [acc] is the
    value of the digits read so far, [None] before the first one. *)
Fixpoint digits16 (s : list N) (acc : option Z) : option Z :=
  match s with
  | c :: rest =>
      match digit16 c with
      | Some d => digits16 rest (Some (16 * default 0 acc + d)%Z)
      | None => acc
      end
  | [] => acc
  end.

(** The number for an integer: the nearest binary64 value. *)
Definition number_of_Z (n : Z) : float := SF2Prim (binary_normalize prec emax n 0 false).

(** [parseInt(s, 16)]. *)
Definition parseInt16 (s : list N) : float :=
  let inputString := trim_start s in
  let '(negative, signless) :=
    match inputString with
    | 0x2D%N :: rest => (true, rest)
    | 0x2B%N :: rest => (false, rest)
    | _ => (false, inputString)
    end in
  let digits :=
    match signless with
    | 0x30%N :: x :: rest => if ((x =? 0x78) || (x =? 0x58))%N then rest else signless
    | _ => signless
    end in
  match digits16 digits None with
  | None => nan
  | Some mathInt =>
      if (mathInt =? 0)%Z then (if negative then (-0) else 0)
      else number_of_Z (if negative then (- mathInt)%Z else mathInt)
  end.

(** The result of [Math.round]: the integer nearest to the argument, the
    greater one of two that are equally near; [RInteger 0] stands for both
    zeros. *)
Inductive rounded := RNaN | RInfinity (negative : bool) | RInteger (n : Z).

Definition Math_round (x : float) : rounded :=
  match Prim2SF x with
  | S754_nan => RNaN
  | S754_infinity s => RInfinity s
  | S754_zero _ => RInteger 0
  | S754_finite s m e =>
      let n := if s then Z.neg m else Z.pos m in
      RInteger (if (0 <=? e)%Z then n * 2 ^ e
                else (2 * n + 2 ^ (- e)) / (2 * 2 ^ (- e)))%Z
  end.

Definition hex_digit (d : Z) : N :=
  if (d <? 10)%Z then Z.to_N (0x30 + d) else Z.to_N (0x61 + d - 10).

Fixpoint hex_digits (fuel : nat) (n : Z) (acc : list N) : list N :=
  match fuel with
  | O => acc
  | S fuel =>
      let acc := hex_digit (n mod 16) :: acc in
      if (n / 16 =? 0)%Z then acc else hex_digits fuel (n / 16) acc
  end.

(** [n.toString(16)] for the result of [Math.round]. *)
Definition toString16 (v : rounded) : list N :=
  match v with
  | RNaN => lit "NaN"
  | RInfinity false => lit "Infinity"
  | RInfinity true => lit "-Infinity"
  | RInteger n =>
      if (n <? 0)%Z then lit "-" ++ hex_digits (S (Z.to_nat (Z.log2 (- n)))) (- n) []
      else hex_digits (S (Z.to_nat (Z.log2 n))) n []
  end.

(** The fields of a [Color] that the library computes with; [_ckColor] is
    the same four numbers in the representation of the graphics backend. *)
Record Color := mkColor { r : float; g : float; b : float; a : float }.

(** [new Color(r, g, b, a)] on four numbers. *)
Definition new_Color (r g b a : float) : result Color :=
  if isNaN (VNum r) then Throw (Error "r is NaN")
  else if isNaN (VNum g) then Throw (Error "g is NaN")
  else if isNaN (VNum b) then Throw (Error "b is NaN")
  else if isNaN (VNum a) then Throw (Error "a is NaN")
  else Ok (mkColor r g b a).

(** [Color.fromRGB(r, g, b, a)] on numbers; [a] is [None] when the
    argument is left out or [undefined]. *)
Definition fromRGB (r g b : float) (a : option float) : result Color :=
  new_Color (r / 255) (g / 255) (b / 255) (default 1 a).

(** The argument of [Color.fromHex]. *)
Inductive hex_argument := NotAString | Str (hex : list N).

(** [Color.fromHex(hex)]. *)
Definition fromHex (hex : hex_argument) : result Color :=
  match hex with
  | NotAString => Throw (Error "hex is not a string")
  | Str hex =>
      let hex := if bool_decide (charAt 0%nat hex = lit "#") then substring hex 1%nat None
                 else hex in
      let r := parseInt16 (substring hex 0%nat (Some 2%nat)) in
      let g := parseInt16 (substring hex 2%nat (Some 4%nat)) in
      let b := parseInt16 (substring hex 4%nat (Some 6%nat)) in
      let a := if (length hex =? 8)%nat
               then parseInt16 (substring hex 6%nat (Some 8%nat)) / 255
               else 1 in
      new_Color (r / 255) (g / 255) (b / 255) a
  end.

(** One component of the template literal of [toHex]. *)
Definition pad (r : list N) : list N :=
  if (length r =? 1)%nat then lit "0" ++ r else r.

(** [color.toHex()]. *)
Definition toHex (c : Color) : list N :=
  let r := toString16 (Math_round (r c * 255)) in
  let g := toString16 (Math_round (g c * 255)) in
  let b := toString16 (Math_round (b c * 255)) in
  let a := toString16 (Math_round (a c * 255)) in
  pad r ++ pad g ++ pad b ++ pad a.

(** The colors of eight bits a channel. *)
Definition channel (k : Z) : float := number_of_Z k / 255.

End Color.

(** ** Enumerations *)

Module Enum.

(** An instance of [Enum] is the function [value => values.indexOf(value)]
    with the property [from], the function [index => values[index]]. The
    values of the enumerations of the library are strings; an index is an
    integer, -1 for a value that is not there, and the result of [from] is
    [None] for [undefined]. *)

(** [values.indexOf(value)]. *)
Fixpoint indexOf (value : string) (values : list string) : Z :=
  match values with
  | [] => (-1)%Z
  | v :: rest =>
      if bool_decide (value = v) then 0%Z
      else
        let i := indexOf value rest in
        if (i <? 0)%Z then (-1)%Z else (i + 1)%Z
  end.

(** [instance(value)]. *)
Definition call (values : list string) (value : string) : Z := indexOf value values.

(** [instance.from(index)]. *)
Definition from (values : list string) (index : Z) : option string :=
  if (index <? 0)%Z then None else values !! Z.to_nat index.

(** The enumerations of [enums]. *)
Definition PaintType : list string :=
  ["Color"; "LinearGradient"; "RadialGradient"; "Image"].
Definition StrokeJoin : list string := ["Miter"; "Round"; "Bevel"].
Definition StrokeCap : list string := ["Butt"; "Round"; "Square"].
Definition TextAlign : list string :=
  ["Left"; "Center"; "Right"; "Justify"; "Start"; "End"].
Definition VerticalTextAlign : list string := ["Top"; "Middle"; "Bottom"].

End Enum.

(** ** Styles *)

Module Style.

(** A non-null value of a style field. Objects carry the identity [ref] of
    their allocation, which is what [!==] compares; numbers (text size and
    the indices of the enum values) are compared by value. *)
Inductive styleval :=
  | SPaint (ref : nat)
  | SColor (ref : nat)
  | SDimV (ref : nat) (d : SDim)
  | SNumber (f : float).

(** The fields of [UIStyle], in declaration order, which is the order in
    which [for (const property in style)] visits them. *)
Inductive sprop :=
  | background | color
  | paddingLeft | paddingTop | paddingRight | paddingBottom
  | textSize | textAlign | verticalTextAlign.

Definition all_sprops : list sprop :=
  [background; color; paddingLeft; paddingTop; paddingRight; paddingBottom;
   textSize; textAlign; verticalTextAlign].

Record UIStyle := mkUIStyle {
  s_background : option styleval;
  s_color : option styleval;
  s_paddingLeft : option styleval;
  s_paddingTop : option styleval;
  s_paddingRight : option styleval;
  s_paddingBottom : option styleval;
  s_textSize : option styleval;
  s_textAlign : option styleval;
  s_verticalTextAlign : option styleval
}.

(** [new UIStyle()]: every field is [null]. *)
Definition new_UIStyle : UIStyle :=
  mkUIStyle None None None None None None None None None.

(** [style[property]]. *)
Definition sget (p : sprop) (s : UIStyle) : option styleval :=
  match p with
  | background => s_background s
  | color => s_color s
  | paddingLeft => s_paddingLeft s
  | paddingTop => s_paddingTop s
  | paddingRight => s_paddingRight s
  | paddingBottom => s_paddingBottom s
  | textSize => s_textSize s
  | textAlign => s_textAlign s
  | verticalTextAlign => s_verticalTextAlign s
  end.

(** [style[property] = v]. *)
Definition sset (p : sprop) (v : option styleval) (s : UIStyle) : UIStyle :=
  match p with
  | background =>
      mkUIStyle v (s_color s) (s_paddingLeft s) (s_paddingTop s) (s_paddingRight s)
        (s_paddingBottom s) (s_textSize s) (s_textAlign s) (s_verticalTextAlign s)
  | color =>
      mkUIStyle (s_background s) v (s_paddingLeft s) (s_paddingTop s) (s_paddingRight s)
        (s_paddingBottom s) (s_textSize s) (s_textAlign s) (s_verticalTextAlign s)
  | paddingLeft =>
      mkUIStyle (s_background s) (s_color s) v (s_paddingTop s) (s_paddingRight s)
        (s_paddingBottom s) (s_textSize s) (s_textAlign s) (s_verticalTextAlign s)
  | paddingTop =>
      mkUIStyle (s_background s) (s_color s) (s_paddingLeft s) v (s_paddingRight s)
        (s_paddingBottom s) (s_textSize s) (s_textAlign s) (s_verticalTextAlign s)
  | paddingRight =>
      mkUIStyle (s_background s) (s_color s) (s_paddingLeft s) (s_paddingTop s) v
        (s_paddingBottom s) (s_textSize s) (s_textAlign s) (s_verticalTextAlign s)
  | paddingBottom =>
      mkUIStyle (s_background s) (s_color s) (s_paddingLeft s) (s_paddingTop s)
        (s_paddingRight s) v (s_textSize s) (s_textAlign s) (s_verticalTextAlign s)
  | textSize =>
      mkUIStyle (s_background s) (s_color s) (s_paddingLeft s) (s_paddingTop s)
        (s_paddingRight s) (s_paddingBottom s) v (s_textAlign s) (s_verticalTextAlign s)
  | textAlign =>
      mkUIStyle (s_background s) (s_color s) (s_paddingLeft s) (s_paddingTop s)
        (s_paddingRight s) (s_paddingBottom s) (s_textSize s) v (s_verticalTextAlign s)
  | verticalTextAlign =>
      mkUIStyle (s_background s) (s_color s) (s_paddingLeft s) (s_paddingTop s)
        (s_paddingRight s) (s_paddingBottom s) (s_textSize s) (s_textAlign s) v
  end.

(** [UIStyle.fromDefault()]. Its six objects are allocated once, when the
    module is loaded; they have the identities 0 to 5. The enum indices are
    [TextAlign("Center") = 1] and [VerticalTextAlign("Middle") = 1]. *)
Definition default : UIStyle :=
  mkUIStyle (Some (SPaint 0)) (Some (SColor 1))
    (Some (SDimV 2 (mkSDim 0 0))) (Some (SDimV 3 (mkSDim 0 0)))
    (Some (SDimV 4 (mkSDim 0 0))) (Some (SDimV 5 (mkSDim 0 0)))
    (Some (SNumber 14)) (Some (SNumber 1)) (Some (SNumber 1)).

(** One iteration of the inner loop of [merge]:
    [if (style[property] !== null) newStyle[property] = style[property]]. *)
Definition merge_prop (style : UIStyle) (newStyle : UIStyle) (p : sprop) : UIStyle :=
  match sget p style with
  | Some v => sset p (Some v) newStyle
  | None => newStyle
  end.

(** One iteration of the outer loop. *)
Definition merge_style (newStyle : UIStyle) (style : UIStyle) : UIStyle :=
  fold_left (merge_prop style) all_sprops newStyle.

(** [UIStyle.merge(styles)]. *)
Definition merge (styles : list UIStyle) : UIStyle :=
  fold_left merge_style styles new_UIStyle.

(** [a !== b] on the values of style fields and [null]. *)
Definition strict_ne (a b : option styleval) : bool :=
  match a, b with
  | None, None => false
  | Some (SPaint r), Some (SPaint r') => negb (Nat.eqb r r')
  | Some (SColor r), Some (SColor r') => negb (Nat.eqb r r')
  | Some (SDimV r _), Some (SDimV r' _) => negb (Nat.eqb r r')
  | Some (SNumber f), Some (SNumber f') => negb (PrimFloat.eqb f f')
  | _, _ => true
  end.

(** A field value over an earlier one: [null] does not overwrite. *)
Definition override (v acc : option styleval) : option styleval :=
  match v with
  | Some w => Some w
  | None => acc
  end.

(** The last non-null entry of a sequence of field values, [null] when
    there is none. *)
Fixpoint last_non_null (vs : list (option styleval)) : option styleval :=
  match vs with
  | [] => None
  | v :: rest =>
      match last_non_null rest with
      | Some w => Some w
      | None => v
      end
  end.


End Style.

(** ** The scene graph *)

Module Scene.
Import Style.

(** Which function an object's [layout] property holds: the default
    [layout] ([UIObject], [Frame], [ListLayoutFrame]), the one of
    [TextLabel], or the one that [Context] installs on its root. *)
Inductive layoutKind := LDefault | LText | LRoot.

(** [Node] and [UIObject], flattened: the first four fields are those of
    [Node]; [priv_parent] is the private field [#parent]. Objects refer to
    each other by their address in the store. [_styleTriggersLayout] keeps
    the insertion order of its keys. [isRoot] marks the root of a context,
    whose properties [Context] redefines as non-writable. *)
Record UIObject := mkUIObject {
  name : string;
  _context : option nat;
  priv_parent : option nat;
  children : list nat;
  absolutePosition : Vector2;
  absoluteSize : Vector2;
  absoluteAnchorPoint : Vector2;
  absolutePaddingLeft : float;
  absolutePaddingTop : float;
  absolutePaddingRight : float;
  absolutePaddingBottom : float;
  visibleOnScreen : bool;
  zIndex : float;
  clipsDescendants : bool;
  position : SDim2;
  size : SDim2;
  anchorPoint : SDim2;
  visible : bool;
  style : UIStyle;
  styles : list UIStyle;
  layoutFn : layoutKind;
  _styleTriggersLayout : list (sprop * option styleval);
  text : string;
  isRoot : bool
}.

(** Field updates. *)
Definition set_context (v : option nat) (o : UIObject) : UIObject :=
  mkUIObject (name o) v (priv_parent o) (children o) (absolutePosition o)
    (absoluteSize o) (absoluteAnchorPoint o) (absolutePaddingLeft o)
    (absolutePaddingTop o) (absolutePaddingRight o) (absolutePaddingBottom o)
    (visibleOnScreen o) (zIndex o) (clipsDescendants o) (position o) (size o)
    (anchorPoint o) (visible o) (style o) (styles o) (layoutFn o)
    (_styleTriggersLayout o) (text o) (isRoot o).

Definition set_priv_parent (v : option nat) (o : UIObject) : UIObject :=
  mkUIObject (name o) (_context o) v (children o) (absolutePosition o)
    (absoluteSize o) (absoluteAnchorPoint o) (absolutePaddingLeft o)
    (absolutePaddingTop o) (absolutePaddingRight o) (absolutePaddingBottom o)
    (visibleOnScreen o) (zIndex o) (clipsDescendants o) (position o) (size o)
    (anchorPoint o) (visible o) (style o) (styles o) (layoutFn o)
    (_styleTriggersLayout o) (text o) (isRoot o).

Definition set_children (v : list nat) (o : UIObject) : UIObject :=
  mkUIObject (name o) (_context o) (priv_parent o) v (absolutePosition o)
    (absoluteSize o) (absoluteAnchorPoint o) (absolutePaddingLeft o)
    (absolutePaddingTop o) (absolutePaddingRight o) (absolutePaddingBottom o)
    (visibleOnScreen o) (zIndex o) (clipsDescendants o) (position o) (size o)
    (anchorPoint o) (visible o) (style o) (styles o) (layoutFn o)
    (_styleTriggersLayout o) (text o) (isRoot o).

Definition set_absolutePosition (v : Vector2) (o : UIObject) : UIObject :=
  mkUIObject (name o) (_context o) (priv_parent o) (children o) v
    (absoluteSize o) (absoluteAnchorPoint o) (absolutePaddingLeft o)
    (absolutePaddingTop o) (absolutePaddingRight o) (absolutePaddingBottom o)
    (visibleOnScreen o) (zIndex o) (clipsDescendants o) (position o) (size o)
    (anchorPoint o) (visible o) (style o) (styles o) (layoutFn o)
    (_styleTriggersLayout o) (text o) (isRoot o).

Definition set_absoluteSize (v : Vector2) (o : UIObject) : UIObject :=
  mkUIObject (name o) (_context o) (priv_parent o) (children o)
    (absolutePosition o) v (absoluteAnchorPoint o) (absolutePaddingLeft o)
    (absolutePaddingTop o) (absolutePaddingRight o) (absolutePaddingBottom o)
    (visibleOnScreen o) (zIndex o) (clipsDescendants o) (position o) (size o)
    (anchorPoint o) (visible o) (style o) (styles o) (layoutFn o)
    (_styleTriggersLayout o) (text o) (isRoot o).

Definition set_absoluteAnchorPoint (v : Vector2) (o : UIObject) : UIObject :=
  mkUIObject (name o) (_context o) (priv_parent o) (children o)
    (absolutePosition o) (absoluteSize o) v (absolutePaddingLeft o)
    (absolutePaddingTop o) (absolutePaddingRight o) (absolutePaddingBottom o)
    (visibleOnScreen o) (zIndex o) (clipsDescendants o) (position o) (size o)
    (anchorPoint o) (visible o) (style o) (styles o) (layoutFn o)
    (_styleTriggersLayout o) (text o) (isRoot o).

Definition set_absolutePaddingLeft (v : float) (o : UIObject) : UIObject :=
  mkUIObject (name o) (_context o) (priv_parent o) (children o)
    (absolutePosition o) (absoluteSize o) (absoluteAnchorPoint o) v
    (absolutePaddingTop o) (absolutePaddingRight o) (absolutePaddingBottom o)
    (visibleOnScreen o) (zIndex o) (clipsDescendants o) (position o) (size o)
    (anchorPoint o) (visible o) (style o) (styles o) (layoutFn o)
    (_styleTriggersLayout o) (text o) (isRoot o).

Definition set_absolutePaddingTop (v : float) (o : UIObject) : UIObject :=
  mkUIObject (name o) (_context o) (priv_parent o) (children o)
    (absolutePosition o) (absoluteSize o) (absoluteAnchorPoint o)
    (absolutePaddingLeft o) v (absolutePaddingRight o) (absolutePaddingBottom o)
    (visibleOnScreen o) (zIndex o) (clipsDescendants o) (position o) (size o)
    (anchorPoint o) (visible o) (style o) (styles o) (layoutFn o)
    (_styleTriggersLayout o) (text o) (isRoot o).

Definition set_absolutePaddingRight (v : float) (o : UIObject) : UIObject :=
  mkUIObject (name o) (_context o) (priv_parent o) (children o)
    (absolutePosition o) (absoluteSize o) (absoluteAnchorPoint o)
    (absolutePaddingLeft o) (absolutePaddingTop o) v (absolutePaddingBottom o)
    (visibleOnScreen o) (zIndex o) (clipsDescendants o) (position o) (size o)
    (anchorPoint o) (visible o) (style o) (styles o) (layoutFn o)
    (_styleTriggersLayout o) (text o) (isRoot o).

Definition set_absolutePaddingBottom (v : float) (o : UIObject) : UIObject :=
  mkUIObject (name o) (_context o) (priv_parent o) (children o)
    (absolutePosition o) (absoluteSize o) (absoluteAnchorPoint o)
    (absolutePaddingLeft o) (absolutePaddingTop o) (absolutePaddingRight o) v
    (visibleOnScreen o) (zIndex o) (clipsDescendants o) (position o) (size o)
    (anchorPoint o) (visible o) (style o) (styles o) (layoutFn o)
    (_styleTriggersLayout o) (text o) (isRoot o).

Definition set_visibleOnScreen (v : bool) (o : UIObject) : UIObject :=
  mkUIObject (name o) (_context o) (priv_parent o) (children o)
    (absolutePosition o) (absoluteSize o) (absoluteAnchorPoint o)
    (absolutePaddingLeft o) (absolutePaddingTop o) (absolutePaddingRight o)
    (absolutePaddingBottom o) v (zIndex o) (clipsDescendants o) (position o)
    (size o) (anchorPoint o) (visible o) (style o) (styles o) (layoutFn o)
    (_styleTriggersLayout o) (text o) (isRoot o).

Definition set_zIndex (v : float) (o : UIObject) : UIObject :=
  mkUIObject (name o) (_context o) (priv_parent o) (children o)
    (absolutePosition o) (absoluteSize o) (absoluteAnchorPoint o)
    (absolutePaddingLeft o) (absolutePaddingTop o) (absolutePaddingRight o)
    (absolutePaddingBottom o) (visibleOnScreen o) v (clipsDescendants o)
    (position o) (size o) (anchorPoint o) (visible o) (style o) (styles o)
    (layoutFn o) (_styleTriggersLayout o) (text o) (isRoot o).

Definition set_clipsDescendants (v : bool) (o : UIObject) : UIObject :=
  mkUIObject (name o) (_context o) (priv_parent o) (children o)
    (absolutePosition o) (absoluteSize o) (absoluteAnchorPoint o)
    (absolutePaddingLeft o) (absolutePaddingTop o) (absolutePaddingRight o)
    (absolutePaddingBottom o) (visibleOnScreen o) (zIndex o) v (position o)
    (size o) (anchorPoint o) (visible o) (style o) (styles o) (layoutFn o)
    (_styleTriggersLayout o) (text o) (isRoot o).

Definition set_position (v : SDim2) (o : UIObject) : UIObject :=
  mkUIObject (name o) (_context o) (priv_parent o) (children o)
    (absolutePosition o) (absoluteSize o) (absoluteAnchorPoint o)
    (absolutePaddingLeft o) (absolutePaddingTop o) (absolutePaddingRight o)
    (absolutePaddingBottom o) (visibleOnScreen o) (zIndex o)
    (clipsDescendants o) v (size o) (anchorPoint o) (visible o) (style o)
    (styles o) (layoutFn o) (_styleTriggersLayout o) (text o) (isRoot o).

Definition set_size (v : SDim2) (o : UIObject) : UIObject :=
  mkUIObject (name o) (_context o) (priv_parent o) (children o)
    (absolutePosition o) (absoluteSize o) (absoluteAnchorPoint o)
    (absolutePaddingLeft o) (absolutePaddingTop o) (absolutePaddingRight o)
    (absolutePaddingBottom o) (visibleOnScreen o) (zIndex o)
    (clipsDescendants o) (position o) v (anchorPoint o) (visible o) (style o)
    (styles o) (layoutFn o) (_styleTriggersLayout o) (text o) (isRoot o).

Definition set_anchorPoint (v : SDim2) (o : UIObject) : UIObject :=
  mkUIObject (name o) (_context o) (priv_parent o) (children o)
    (absolutePosition o) (absoluteSize o) (absoluteAnchorPoint o)
    (absolutePaddingLeft o) (absolutePaddingTop o) (absolutePaddingRight o)
    (absolutePaddingBottom o) (visibleOnScreen o) (zIndex o)
    (clipsDescendants o) (position o) (size o) v (visible o) (style o)
    (styles o) (layoutFn o) (_styleTriggersLayout o) (text o) (isRoot o).

Definition set_visible (v : bool) (o : UIObject) : UIObject :=
  mkUIObject (name o) (_context o) (priv_parent o) (children o)
    (absolutePosition o) (absoluteSize o) (absoluteAnchorPoint o)
    (absolutePaddingLeft o) (absolutePaddingTop o) (absolutePaddingRight o)
    (absolutePaddingBottom o) (visibleOnScreen o) (zIndex o)
    (clipsDescendants o) (position o) (size o) (anchorPoint o) v (style o)
    (styles o) (layoutFn o) (_styleTriggersLayout o) (text o) (isRoot o).

Definition set_style (v : UIStyle) (o : UIObject) : UIObject :=
  mkUIObject (name o) (_context o) (priv_parent o) (children o)
    (absolutePosition o) (absoluteSize o) (absoluteAnchorPoint o)
    (absolutePaddingLeft o) (absolutePaddingTop o) (absolutePaddingRight o)
    (absolutePaddingBottom o) (visibleOnScreen o) (zIndex o)
    (clipsDescendants o) (position o) (size o) (anchorPoint o) (visible o) v
    (styles o) (layoutFn o) (_styleTriggersLayout o) (text o) (isRoot o).

Definition set_styles (v : list UIStyle) (o : UIObject) : UIObject :=
  mkUIObject (name o) (_context o) (priv_parent o) (children o)
    (absolutePosition o) (absoluteSize o) (absoluteAnchorPoint o)
    (absolutePaddingLeft o) (absolutePaddingTop o) (absolutePaddingRight o)
    (absolutePaddingBottom o) (visibleOnScreen o) (zIndex o)
    (clipsDescendants o) (position o) (size o) (anchorPoint o) (visible o)
    (style o) v (layoutFn o) (_styleTriggersLayout o) (text o) (isRoot o).

Definition set_styleTriggersLayout (v : list (sprop * option styleval))
    (o : UIObject) : UIObject :=
  mkUIObject (name o) (_context o) (priv_parent o) (children o)
    (absolutePosition o) (absoluteSize o) (absoluteAnchorPoint o)
    (absolutePaddingLeft o) (absolutePaddingTop o) (absolutePaddingRight o)
    (absolutePaddingBottom o) (visibleOnScreen o) (zIndex o)
    (clipsDescendants o) (position o) (size o) (anchorPoint o) (visible o)
    (style o) (styles o) (layoutFn o) v (text o) (isRoot o).

Definition set_text (v : string) (o : UIObject) : UIObject :=
  mkUIObject (name o) (_context o) (priv_parent o) (children o)
    (absolutePosition o) (absoluteSize o) (absoluteAnchorPoint o)
    (absolutePaddingLeft o) (absolutePaddingTop o) (absolutePaddingRight o)
    (absolutePaddingBottom o) (visibleOnScreen o) (zIndex o)
    (clipsDescendants o) (position o) (size o) (anchorPoint o) (visible o)
    (style o) (styles o) (layoutFn o) (_styleTriggersLayout o) v (isRoot o).

(** [this.parent]: the accessor of [Node] returns [#parent]; on a root the
    own data property [parent], whose value is [null], shadows it. *)
Definition parent (o : UIObject) : option nat :=
  if isRoot o then None else priv_parent o.

(** [get computedStyle()]. *)
Definition computedStyle (o : UIObject) : UIStyle :=
  merge (default :: styles o ++ [style o]).

(** [Context]: the relayout list, the root (which [cleanup] sets to [null]
    together with the surface) and [csize], the variable behind the
    accessor [size]. Canvas and surface belong to the graphics backend. *)
Record Context := mkContext {
  relayout : list nat;
  root : option nat;
  csize : Vector2
}.

Definition set_relayout (v : list nat) (c : Context) : Context :=
  mkContext v (root c) (csize c).

Definition set_csize (v : Vector2) (c : Context) : Context :=
  mkContext (relayout c) (root c) v.

(** What the traversals do, in order: [EvSweep n] and [EvDraw n] record a
    call of [iterativeCheckForStyleChanges] and of [iterativeDraw] on [n],
    [EvPaint n] a call of [n.paint(canvas)]. *)
Inductive event :=
  | EvSweep (n : nat)
  | EvDraw (n : nat)
  | EvPaint (n : nat).

(** The store: the heap of objects and of contexts, the module-level map
    [contexts] of the running contexts (their ids, in insertion order) and
    counter [contextId], the next free object address, and the [trace] of
    traversal events, which exists for the proofs only. A context is stored
    under its [id]. *)
Record Store := mkStore {
  objects : gmap nat UIObject;
  ctxs : gmap nat Context;
  contexts : list nat;
  contextId : nat;
  nextObject : nat;
  trace : list event
}.

Definition set_objects (v : gmap nat UIObject) (s : Store) : Store :=
  mkStore v (ctxs s) (contexts s) (contextId s) (nextObject s) (trace s).

Definition set_ctxs (v : gmap nat Context) (s : Store) : Store :=
  mkStore (objects s) v (contexts s) (contextId s) (nextObject s) (trace s).

Definition set_contexts (v : list nat) (s : Store) : Store :=
  mkStore (objects s) (ctxs s) v (contextId s) (nextObject s) (trace s).

Definition set_contextId (v : nat) (s : Store) : Store :=
  mkStore (objects s) (ctxs s) (contexts s) v (nextObject s) (trace s).

Definition set_nextObject (v : nat) (s : Store) : Store :=
  mkStore (objects s) (ctxs s) (contexts s) (contextId s) v (trace s).

Definition set_trace (v : list event) (s : Store) : Store :=
  mkStore (objects s) (ctxs s) (contexts s) (contextId s) (nextObject s) v.

Definition empty_store : Store := mkStore ∅ ∅ [] 0 0 [].

(** *** Computations

    A computation runs on a store and ends normally, by a JavaScript
    exception, or is cut short: [OutOfFuel] when a recursion is deeper than
    the fuel given to it, [Dangling] when an address is not in the store
    (which a JavaScript heap rules out). The store at that point is kept
    in all three cases: an exception does not undo earlier writes. *)

Inductive abort := OutOfFuel | Dangling.

Inductive result (A : Type) :=
  | Ok (a : A)
  | Throw (e : Js.error)
  | Abort (r : abort).
Arguments Ok {A} a.
Arguments Throw {A} e.
Arguments Abort {A} r.

Definition M (A : Type) : Type := Store -> result A * Store.

Definition ret {A} (a : A) : M A := fun s => (Ok a, s).

Definition bind {A B} (m : M A) (k : A -> M B) : M B :=
  fun s =>
    match m s with
    | (Ok a, s') => k a s'
    | (Throw e, s') => (Throw e, s')
    | (Abort r, s') => (Abort r, s')
    end.

#[export] Instance M_ret : MRet M := @ret.
#[export] Instance M_bind : MBind M := fun A B k m => bind m k.

Definition throw {A} (e : Js.error) : M A := fun s => (Throw e, s).
Definition abort_with {A} (r : abort) : M A := fun s => (Abort r, s).

Definition when (b : bool) (m : M unit) : M unit := if b then m else ret tt.

(** [for (const a of l) f(a)] over a list that the body does not change. *)
Fixpoint for_of {A} (l : list A) (f : A -> M unit) : M unit :=
  match l with
  | [] => ret tt
  | a :: rest => f a;; for_of rest f
  end.

Definition getObj (n : nat) : M UIObject :=
  fun s =>
    match objects s !! n with
    | Some o => (Ok o, s)
    | None => (Abort Dangling, s)
    end.

Definition modObj (n : nat) (f : UIObject -> UIObject) : M unit :=
  fun s =>
    match objects s !! n with
    | Some o => (Ok tt, set_objects (<[n := f o]> (objects s)) s)
    | None => (Abort Dangling, s)
    end.

Definition getCtx (c : nat) : M Context :=
  fun s =>
    match ctxs s !! c with
    | Some k => (Ok k, s)
    | None => (Abort Dangling, s)
    end.

Definition modCtx (c : nat) (f : Context -> Context) : M unit :=
  fun s =>
    match ctxs s !! c with
    | Some k => (Ok tt, set_ctxs (<[c := f k]> (ctxs s)) s)
    | None => (Abort Dangling, s)
    end.

Definition emit (e : event) : M unit :=
  fun s => (Ok tt, set_trace (trace s ++ [e]) s).

(** *** Arrays of objects *)

(** [l.includes(n)]. *)
Definition includes (n : nat) (l : list nat) : bool := existsb (Nat.eqb n) l.

(** [l.indexOf(n)], with [None] for -1. *)
Fixpoint indexOf (n : nat) (l : list nat) : option nat :=
  match l with
  | [] => None
  | m :: rest => if Nat.eqb n m then Some 0%nat else option_map S (indexOf n rest)
  end.

(** [l.splice(i, 1)] for [i] within the array. *)
Fixpoint remove_at (i : nat) (l : list nat) : list nat :=
  match l, i with
  | [], _ => []
  | _ :: rest, O => rest
  | m :: rest, S j => m :: remove_at j rest
  end.

(** [l.splice(l.indexOf(n), 1)]: a start of -1 counts from the end, so that
    the last element goes when [n] is not in the array. *)
Definition splice_indexOf (n : nat) (l : list nat) : list nat :=
  match indexOf n l with
  | Some i => remove_at i l
  | None => removelast l
  end.

(** *** Scheduling *)

(** [Context._scheduleLayout(object)] on the context [this]. *)
Definition _scheduleLayout (this : nat) (object : nat) : M unit :=
  o ← getObj object;
  c ← getCtx this;
  when (bool_decide (_context o = Some this)
        && bool_decide (is_Some (parent o))
        && visible o
        && negb (includes object (relayout c)))
    (modCtx this (fun c => set_relayout (relayout c ++ [object]) c)).

(** [ctx._scheduleLayout(object)] where [ctx] was read from a [_context]
    field: calling a method of [null] is a [TypeError]. *)
Definition call_scheduleLayout (ctx : option nat) (object : nat) : M unit :=
  match ctx with
  | Some c => _scheduleLayout c object
  | None => throw Js.TypeError
  end.

(** The first block of the setter of [parent], for an object whose
    [#parent] is [oldParent]: the object leaves the children of its parent,
    and the parent is scheduled. *)
Definition leave_parent (this : nat) (oldParent : option nat) : M unit :=
  match oldParent with
  | Some p =>
      po ← getObj p;
      modObj p (set_children (splice_indexOf this (children po)));;
      po' ← getObj p;
      call_scheduleLayout (_context po') p
  | None => ret tt
  end.

(** The rest of the setter: the object is detached, or takes the context
    of its new parent, joins its children, is scheduled, and only then
    has its [#parent] updated. *)
Definition enter_parent (this : nat) (newParent : option nat) : M unit :=
  match newParent with
  | None =>
      modObj this (set_context None);;
      modObj this (set_priv_parent None)
  | Some q =>
      qo ← getObj q;
      modObj this (set_context (_context qo));;
      modObj q (fun qo => set_children (children qo ++ [this]) qo);;
      o' ← getObj this;
      call_scheduleLayout (_context o') this;;
      modObj this (set_priv_parent (Some q))
  end.

(** [this.parent = newParent], the setter of [Node]. The root's [parent]
    is a non-writable data property, and the source is a module, hence
    strict code: assigning to it is a [TypeError]. *)
Definition set_parent (this : nat) (newParent : option nat) : M unit :=
  o ← getObj this;
  if isRoot o then throw Js.TypeError
  else if bool_decide (newParent = priv_parent o) then ret tt
  else
    leave_parent this (priv_parent o);;
    enter_parent this newParent.

(** The properties that [_propertyTriggersLayout] turns into accessors:
    [position], [size], [anchorPoint] and [visible] on every [UIObject],
    [text] on a [TextLabel]. *)
Inductive assignment :=
  | AssignPosition (v : SDim2)
  | AssignSize (v : SDim2)
  | AssignAnchorPoint (v : SDim2)
  | AssignVisible (v : bool)
  | AssignText (v : string).

Definition store_assignment (a : assignment) : UIObject -> UIObject :=
  match a with
  | AssignPosition v => set_position v
  | AssignSize v => set_size v
  | AssignAnchorPoint v => set_anchorPoint v
  | AssignVisible v => set_visible v
  | AssignText v => set_text v
  end.

(** Whether the assignment goes through an accessor of the object. *)
Definition has_accessor (a : assignment) (o : UIObject) : bool :=
  match a with
  | AssignText _ => match layoutFn o with LText => true | _ => false end
  | _ => true
  end.

(** Whether the root's property is non-writable. *)
Definition write_protected (a : assignment) : bool :=
  match a with
  | AssignText _ => false
  | _ => true
  end.

(** [this.position = v] and the like: the setter stores the value, then
    [if (this._context) this._context._scheduleLayout(this)]. *)
Definition assign (this : nat) (a : assignment) : M unit :=
  o ← getObj this;
  if isRoot o && write_protected a then throw Js.TypeError
  else
    modObj this (store_assignment a);;
    when (has_accessor a o)
      (o' ← getObj this;
       match _context o' with
       | Some c => _scheduleLayout c this
       | None => ret tt
       end).

(** [this.style[p] = v]: a plain write into the inline style object. *)
Definition assign_style (this : nat) (p : sprop) (v : option styleval) : M unit :=
  modObj this (fun o => set_style (sset p v (style o)) o).

(** [this.clipsDescendants = v] and [this.zIndex = v]: plain properties,
    non-writable on a root. *)
Definition assign_clipsDescendants (this : nat) (v : bool) : M unit :=
  o ← getObj this;
  if isRoot o then throw Js.TypeError else modObj this (set_clipsDescendants v).

Definition assign_zIndex (this : nat) (v : float) : M unit :=
  o ← getObj this;
  if isRoot o then throw Js.TypeError else modObj this (set_zIndex v).

(** [context.size = newValue]: the setter stores the value, recreates the
    surface (a [TypeError] once [cleanup] has set it to [null]) and pushes
    the root on the relayout list. *)
Definition assign_size (ctx : nat) (newValue : Vector2) : M unit :=
  modCtx ctx (set_csize newValue);;
  c ← getCtx ctx;
  match root c with
  | None => throw Js.TypeError
  | Some r => modCtx ctx (fun c => set_relayout (relayout c ++ [r]) c)
  end.

(** *** Construction and lifecycle *)

(** The classes that can be instantiated. *)
Inductive uiclass := UIObjectClass | FrameClass | ListLayoutFrameClass | TextLabelClass.

Definition class_name (k : uiclass) : string :=
  match k with
  | UIObjectClass => "UIObject"
  | FrameClass => "Frame"
  | ListLayoutFrameClass => "ListLayoutFrame"
  | TextLabelClass => "TextLabel"
  end.

Definition class_layout (k : uiclass) : layoutKind :=
  match k with
  | TextLabelClass => LText
  | _ => LDefault
  end.

Definition class_triggers (k : uiclass) : list (sprop * option styleval) :=
  [(paddingLeft, None); (paddingTop, None); (paddingRight, None); (paddingBottom, None)]
  ++ match k with
     | TextLabelClass => [(textSize, None); (textAlign, None); (verticalTextAlign, None)]
     | _ => []
     end.

(** The field initialisers of [Node], [UIObject] and the subclass. Only a
    [TextLabel] has a [text]. *)
Definition fresh_object (k : uiclass) : UIObject :=
  mkUIObject (class_name k) None None []
    (mkVector2 0 0) (mkVector2 0 0) (mkVector2 0 0) 0 0 0 0
    true 1 false SDim2_zero SDim2_zero SDim2_zero true
    new_UIStyle [] (class_layout k) (class_triggers k)
    (match k with TextLabelClass => "TextLabel" | _ => "" end) false.

(** [new UIObject()], [new Frame()], ... *)
Definition new_object (k : uiclass) : M nat :=
  fun s =>
    let n := nextObject s in
    (Ok n, set_nextObject (S n) (set_objects (<[n := fresh_object k]> (objects s)) s)).

(** The root that the constructor of [Context] builds: a [UIObject] with
    its [layout] replaced and the write-protected properties set. *)
Definition root_object (ctx : nat) : UIObject :=
  mkUIObject "Root" (Some ctx) None []
    (mkVector2 0 0) (mkVector2 0 0) (mkVector2 0 0) 0 0 0 0
    true 1 false SDim2_zero SDim2_zero SDim2_zero true
    new_UIStyle [] LRoot (class_triggers UIObjectClass) "" true.

(** [new Context(canvas)] for a canvas of the given width and height. *)
Definition new_Context (width height : float) : M nat :=
  fun s =>
    let id := contextId s in
    let r := nextObject s in
    (Ok id,
     set_ctxs (<[id := mkContext [] (Some r) (mkVector2 width height)]> (ctxs s))
       (set_contextId (S id)
          (set_nextObject (S r)
             (set_objects (<[r := root_object id]> (objects s)) s)))).

(** [context.start()]: [contexts.set(this.id, this)]. *)
Definition start (ctx : nat) : M unit :=
  fun s =>
    (Ok tt, if includes ctx (contexts s) then s else set_contexts (contexts s ++ [ctx]) s).

(** [context.stop()]: [contexts.delete(this.id)]. *)
Definition stop (ctx : nat) : M bool :=
  fun s =>
    (Ok (includes ctx (contexts s)),
     set_contexts (filter (fun c => c ≠ ctx) (contexts s)) s).

(** [context.cleanup()]. *)
Definition cleanup (ctx : nat) : M unit :=
  _ ← stop ctx;
  c ← getCtx ctx;
  match root c with
  | None => throw Js.TypeError
  | Some _ => modCtx ctx (fun c => mkContext [] None (csize c))
  end.

(** *** Layout *)

(** [d.scale * extent + d.offset] for [d] a padding of the computed style.
    A value that is not an [SDim] has neither property, and arithmetic on
    [undefined] gives [NaN]; [null] has no properties at all, and there is
    no value. *)
Definition padding_value (d : option styleval) (extent : float) : option float :=
  match d with
  | Some (SDimV _ d) => Some (scale d * extent + offset d)
  | Some _ => Some nan
  | None => None
  end.

Definition resolve_padding (d : option styleval) (extent : float) : M float :=
  match padding_value d extent with
  | Some v => ret v
  | None => throw Js.TypeError
  end.

(** [a > b]. *)
Definition gtb (a b : float) : bool := PrimFloat.ltb b a.

(** The default [layout] up to its loop over the children. The parent is
    read again where the source reads it again. *)
Definition layout_own (this : nat) (updatePosition : bool) : M unit :=
  o ← getObj this;
  match parent o with
  | None => throw Js.TypeError
  | Some p =>
      po ← getObj p;
      let size := size o in
      let parentAbsoluteSize := absoluteSize po in
      let computedStyle := computedStyle o in
      let absoluteSizeX :=
        scaleX size * x parentAbsoluteSize + offsetX size
        - absolutePaddingLeft po - absolutePaddingRight po in
      let absoluteSizeY :=
        scaleY size * y parentAbsoluteSize + offsetY size
        - absolutePaddingTop po - absolutePaddingBottom po in
      pl ← resolve_padding (s_paddingLeft computedStyle) absoluteSizeX;
      modObj this (set_absolutePaddingLeft pl);;
      pt ← resolve_padding (s_paddingTop computedStyle) absoluteSizeY;
      modObj this (set_absolutePaddingTop pt);;
      pr ← resolve_padding (s_paddingRight computedStyle) absoluteSizeX;
      modObj this (set_absolutePaddingRight pr);;
      pb ← resolve_padding (s_paddingBottom computedStyle) absoluteSizeY;
      modObj this (set_absolutePaddingBottom pb);;
      modObj this (set_absoluteSize (mkVector2 absoluteSizeX absoluteSizeY));;
      when updatePosition
        (let anchorPoint := anchorPoint o in
         let position := position o in
         let absoluteAnchorPointX :=
           scaleX anchorPoint * absoluteSizeX + offsetX anchorPoint in
         let absoluteAnchorPointY :=
           scaleY anchorPoint * absoluteSizeY + offsetY anchorPoint in
         modObj this
           (set_absoluteAnchorPoint (mkVector2 absoluteAnchorPointX absoluteAnchorPointY));;
         po ← getObj p;
         let parentAbsoluteSize := absoluteSize po in
         let parentAbsolutePosition := absolutePosition po in
         modObj this
           (set_absolutePosition
              (mkVector2
                 (scaleX position * x parentAbsoluteSize + offsetX position
                  - absoluteAnchorPointX + x parentAbsolutePosition
                  + absolutePaddingLeft po)
                 (scaleY position * y parentAbsoluteSize + offsetY position
                  - absoluteAnchorPointY + y parentAbsolutePosition
                  + absolutePaddingTop po))));;
      o ← getObj this;
      match _context o with
      | None => throw Js.TypeError
      | Some c =>
          ctx ← getCtx c;
          let contextSize := csize ctx in
          let absolutePosition := absolutePosition o in
          modObj this
            (set_visibleOnScreen
               (PrimFloat.ltb (x absolutePosition) (x contextSize)
                && PrimFloat.ltb (y absolutePosition) (y contextSize)
                && gtb (x absolutePosition + absoluteSizeX) 0
                && gtb (y absolutePosition + absoluteSizeY) 0))
      end
  end.

(** The start of the root's [layout]: [this.absoluteSize = this._context.size]. *)
Definition layout_root_own (this : nat) : M unit :=
  o ← getObj this;
  match _context o with
  | None => throw Js.TypeError
  | Some c =>
      ctx ← getCtx c;
      modObj this (set_absoluteSize (csize ctx))
  end.

(** [updateChildPosition !== false], the parameter being [undefined]
    ([None]) when the caller passes one argument. *)
Definition not_false (updateChildPosition : option bool) : bool :=
  match updateChildPosition with
  | Some false => false
  | _ => true
  end.

(** [this.layout(updatePosition, updateChildPosition)] for an object whose
    [layout] is [fn]. The fuel bounds the depth of the calls. A
    [TextLabel] calls the default layout and then shapes its text, which
    is the backend's business and changes nothing in the store. *)
Fixpoint layout (fuel : nat) (fn : layoutKind) (this : nat)
    (updatePosition : bool) (updateChildPosition : option bool) : M unit :=
  match fuel with
  | O => abort_with OutOfFuel
  | S fuel =>
      let layout_child (up : bool) (child : nat) : M unit :=
        co ← getObj child;
        if visible co then layout fuel (layoutFn co) child up None else ret tt in
      match fn with
      | LDefault =>
          layout_own this updatePosition;;
          o ← getObj this;
          for_of (children o) (layout_child (not_false updateChildPosition))
      | LText =>
          layout fuel LDefault this updatePosition None
      | LRoot =>
          layout_root_own this;;
          o ← getObj this;
          for_of (children o) (layout_child true)
      end
  end.

(** [object.layout(updatePosition)]. *)
Definition call_layout (fuel : nat) (object : nat) (updatePosition : bool) : M unit :=
  o ← getObj object;
  layout fuel (layoutFn o) object updatePosition None.

(** *** The style sweep *)

(** Whether the loop over [Object.entries(UIObject._styleTriggersLayout)]
    finds a property whose computed value is not the cached one. *)
Definition style_changed (computedStyle : UIStyle)
    (cache : list (sprop * option styleval)) : bool :=
  existsb (fun e => strict_ne (sget (fst e) computedStyle) (snd e)) cache.

(** The cache after the loop that refreshes it. *)
Definition refresh (computedStyle : UIStyle)
    (cache : list (sprop * option styleval)) : list (sprop * option styleval) :=
  map (fun e => (fst e, sget (fst e) computedStyle)) cache.

Fixpoint iterativeCheckForStyleChanges (fuel : nat) (UIObject : nat) : M unit :=
  match fuel with
  | O => abort_with OutOfFuel
  | S fuel =>
      emit (EvSweep UIObject);;
      o ← getObj UIObject;
      if visible o then
        if visibleOnScreen o then
          let computedStyle := computedStyle o in
          when (style_changed computedStyle (_styleTriggersLayout o))
            (call_scheduleLayout (_context o) UIObject);;
          modObj UIObject
            (fun o => set_styleTriggersLayout
                        (refresh computedStyle (_styleTriggersLayout o)) o);;
          for_of (children o) (iterativeCheckForStyleChanges fuel)
        else if negb (clipsDescendants o) then
          for_of (children o) (iterativeCheckForStyleChanges fuel)
        else ret tt
      else ret tt
  end.

(** *** Drawing *)

(** Insertion of [a] into a list sorted with the comparator
    [(a, b) => a.zIndex - b.zIndex]: [a] goes before the first [b] for
    which the comparator is negative. *)
Fixpoint insert_z (a : nat * float) (sorted : list (nat * float)) : list (nat * float) :=
  match sorted with
  | [] => [a]
  | b :: rest =>
      if PrimFloat.ltb (snd a - snd b) 0 then a :: b :: rest
      else b :: insert_z a rest
  end.

(** [[...l].sort((a, b) => a.zIndex - b.zIndex)], a stable sort. *)
Definition sort_z (l : list (nat * float)) : list (nat * float) :=
  fold_left (fun sorted a => insert_z a sorted) l [].

(** The children with the [zIndex] that the comparator reads. *)
Fixpoint with_zIndex (l : list nat) : M (list (nat * float)) :=
  match l with
  | [] => ret []
  | c :: rest =>
      co ← getObj c;
      zs ← with_zIndex rest;
      ret ((c, zIndex co) :: zs)
  end.

Definition sorted_children (o : UIObject) : M (list nat) :=
  zs ← with_zIndex (children o);
  ret (map fst (sort_z zs)).

Fixpoint iterativeDraw (fuel : nat) (UIObject : nat) : M unit :=
  match fuel with
  | O => abort_with OutOfFuel
  | S fuel =>
      emit (EvDraw UIObject);;
      o ← getObj UIObject;
      if visible o then
        if visibleOnScreen o then
          emit (EvPaint UIObject);;
          cs ← sorted_children o;
          for_of cs (iterativeDraw fuel)
        else if negb (clipsDescendants o) then
          cs ← sorted_children o;
          for_of cs (iterativeDraw fuel)
        else ret tt
      else ret tt
  end.

(** *** The frame *)

(** The body of the loop of [update] for one running context: the style
    sweep, the layout of the scheduled objects, the draw traversal, and
    the reset of the relayout list. The debug overlay only reads. *)
Definition update_context (fuel : nat) (id : nat) : M unit :=
  c ← getCtx id;
  match root c with
  | None => throw Js.TypeError
  | Some r =>
      iterativeCheckForStyleChanges fuel r;;
      c ← getCtx id;
      for_of (relayout c) (fun object => call_layout fuel object true);;
      iterativeDraw fuel r;;
      modCtx id (set_relayout [])
  end.

(** [update(timestamp)] up to the request for the next frame. *)
Definition update (fuel : nat) : M unit :=
  fun s => for_of (contexts s) (update_context fuel) s.

(** The events that a computation adds to the trace of [s]. *)
Definition new_events {A} (m : M A) (s : Store) : list event :=
  drop (length (trace s)) (trace (snd (m s))).

Definition node_of (e : event) : nat :=
  match e with
  | EvSweep n | EvDraw n | EvPaint n => n
  end.

(** *** Well-formed stores *)

(** An object without its computed (cached) layout fields. *)
Definition erase_computed (o : UIObject) : UIObject :=
  mkUIObject (name o) (_context o) (priv_parent o) (children o)
    (mkVector2 0 0) (mkVector2 0 0) (mkVector2 0 0) 0 0 0 0 true
    (zIndex o) (clipsDescendants o) (position o) (size o) (anchorPoint o) (visible o)
    (style o) (styles o) (layoutFn o) (_styleTriggersLayout o) (text o) (isRoot o).

(** The children lists form a forest: some rank grows from every object to
    each of its children. *)
Definition ranked (rank : nat -> nat) (s : Store) : Prop :=
  map_Forall (fun p po => Forall (fun c => (rank p < rank c)%nat) (children po))
    (objects s).

(** Every listed child is in the store and points back to the object that
    lists it. *)
Definition children_have_parent (s : Store) : Prop :=
  map_Forall
    (fun p po =>
       Forall (fun c => priv_parent <$> (objects s !! c) = Some (Some p)) (children po))
    (objects s).

(** No object is its own parent. *)
Definition no_self_parent (s : Store) : Prop :=
  map_Forall (fun n o => priv_parent o <> Some n) (objects s).


(** Whether the traversals go on to the children of an object. *)
Definition descends (o : UIObject) : bool :=
  visible o && (visibleOnScreen o || negb (clipsDescendants o)).

(** The objects that a traversal started at [r] can come to. *)
Inductive reach (s : Store) (r : nat) : nat -> Prop :=
  | reach_start : reach s r r
  | reach_child (p : nat) (po : UIObject) (c : nat) :
      reach s r p -> objects s !! p = Some po -> descends po = true ->
      c ∈ children po -> reach s r c.



(** *** The relayout list *)


(** An object that [_scheduleLayout] of the context [c] accepts. *)
Definition eligible (s : Store) (c : nat) (n : nat) : Prop :=
  exists o, objects s !! n = Some o
            /\ _context o = Some c /\ is_Some (parent o) /\ visible o = true.



(** The relayout list of a context, empty for an unknown context. *)
Definition relayout_of (s : Store) (c : nat) : list nat :=
  match ctxs s !! c with
  | Some k => relayout k
  | None => []
  end.

(** The object at an address of a store that holds one there. *)
Definition obj (s : Store) (n : nat) : UIObject :=
  match objects s !! n with
  | Some o => o
  | None => fresh_object UIObjectClass
  end.

(** *** Relations between the store before and after

    The proofs follow a computation step by step through relations that
    every step keeps. *)

(** A relation between stores that holds along every computation built
    from steps that satisfy it. *)
Definition keeps {A} (R : Store -> Store -> Prop) (m : M A) : Prop :=
  forall s, R s (snd (m s)).

(** The computation changed nothing but computed layout fields of
    objects. *)
Definition computed_only (s s' : Store) : Prop :=
  ctxs s' = ctxs s /\ contexts s' = contexts s /\ trace s' = trace s
  /\ forall m, erase_computed <$> (objects s' !! m) = erase_computed <$> (objects s !! m).

(** The same, and only objects that satisfy [P] were written. *)
Definition touches (P : nat -> Prop) (s s' : Store) : Prop :=
  computed_only s s' /\ forall m, ~ P m -> objects s' !! m = objects s !! m.

(** What the specification says a layout computes for an object [o] with
    parent [po], in a context of size [viewport]: the absolute size of the
    object, and for the outcome [o1] its paddings and its visibility. *)
Definition expected_absoluteSize (o po : UIObject) : Vector2 :=
  mkVector2
    (scaleX (size o) * x (absoluteSize po) + offsetX (size o)
     - absolutePaddingLeft po - absolutePaddingRight po)
    (scaleY (size o) * y (absoluteSize po) + offsetY (size o)
     - absolutePaddingTop po - absolutePaddingBottom po).


(** What the traversals read of an object. *)
Definition shape (o : UIObject) : list nat * bool * bool * bool :=
  (children o, visible o, visibleOnScreen o, clipsDescendants o).



(** What [_scheduleLayout] of the context [c] asks of an object. *)
Definition accepted (c : nat) (o : UIObject) : Prop :=
  _context o = Some c /\ is_Some (parent o) /\ visible o = true.

(** The computation took eligibility from objects of [X] at most. *)
Definition spares (X : nat -> Prop) (s s' : Store) : Prop :=
  forall n c, ~ X n -> eligible s c n -> eligible s' c n.

(** The computation appended to the relayout lists only objects that were
    not listed, that are outside [X], and that are [eligible] at its
    end. *)
Definition appends (X : nat -> Prop) (s s' : Store) : Prop :=
  forall c,
    match ctxs s !! c with
    | None => ctxs s' !! c = None
    | Some k =>
        exists k' added,
          ctxs s' !! c = Some k' /\ root k' = root k
          /\ relayout k' = relayout k ++ added /\ NoDup added
          /\ forall n, n ∈ added ->
               (n ∉ relayout k) /\ ~ X n /\ eligible s' c n
    end.

Definition adds_guarded (X : nat -> Prop) (s s' : Store) : Prop :=
  spares X s s' /\ appends X s s'.

(** The computation left the relayout lists alone and kept [#parent] and
    the root mark of the object [this]. *)
Definition parent_kept (this : nat) (s s' : Store) : Prop :=
  ctxs s' = ctxs s
  /\ forall o', objects s' !! this = Some o' ->
       exists o, objects s !! this = Some o
                 /\ priv_parent o' = priv_parent o /\ isRoot o' = isRoot o.

(** *** Children by name and the state of a context *)

(** [children.find(child => child.name === wanted)], with [None] for
    [undefined]. *)
Fixpoint find_named (wanted : string) (l : list nat) : M (option nat) :=
  match l with
  | [] => ret None
  | child :: rest =>
      co ← getObj child;
      if bool_decide (name co = wanted) then ret (Some child)
      else find_named wanted rest
  end.

(** [this.getChild(name)]. *)
Definition getChild (this : nat) (wanted : string) : M (option nat) :=
  o ← getObj this;
  find_named wanted (children o).

(** [context.running]: [contexts.has(this.id)]. *)
Definition running (ctx : nat) : M bool :=
  fun s => (Ok (includes ctx (contexts s)), s).

(** *** What the layout, the setter of [parent] and a frame write *)

(** The objects that a layout of [this] comes to: [this], its visible
    children, their visible children, and so on. *)
Inductive lays_out (s : Store) (this : nat) : nat -> Prop :=
  | lays_out_start : lays_out s this this
  | lays_out_child (p : nat) (po : UIObject) (c : nat) (co : UIObject) :
      lays_out s this p -> objects s !! p = Some po -> c ∈ children po ->
      objects s !! c = Some co -> visible co = true -> lays_out s this c.

(** The layout of [this] comes back to [this]: a visible child of [this]
    lays [this] out. *)
Definition lays_out_itself (s : Store) (this : nat) : Prop :=
  exists o c co,
    objects s !! this = Some o /\ c ∈ children o
    /\ objects s !! c = Some co /\ visible co = true /\ lays_out s c this.

(** The anchor point and the position that a layout computes for [o] under
    [po] once the absolute size of [o] is [sz]. *)
Definition expected_absoluteAnchorPoint (o : UIObject) (sz : Vector2) : Vector2 :=
  mkVector2 (scaleX (anchorPoint o) * x sz + offsetX (anchorPoint o))
            (scaleY (anchorPoint o) * y sz + offsetY (anchorPoint o)).

Definition expected_absolutePosition (o po : UIObject) (anchor : Vector2) : Vector2 :=
  mkVector2
    (scaleX (position o) * x (absoluteSize po) + offsetX (position o)
     - x anchor + x (absolutePosition po) + absolutePaddingLeft po)
    (scaleY (position o) * y (absoluteSize po) + offsetY (position o)
     - y anchor + y (absolutePosition po) + absolutePaddingTop po).

(** The computation wrote to the object [this] and to the [children] of
    objects that satisfy [P], and to nothing else in the heap of objects. *)
Definition reparents (this : nat) (P : nat -> Prop) (s s' : Store) : Prop :=
  (forall m, m <> this ->
     set_children [] <$> (objects s' !! m) = set_children [] <$> (objects s !! m))
  /\ (forall m, m <> this -> ~ P m -> objects s' !! m = objects s !! m).

(** An object without its computed layout fields and with an empty cache
    of style values: what user code has set. *)
Definition erase_cached (o : UIObject) : UIObject :=
  set_styleTriggersLayout (map (fun e => (fst e, None)) (_styleTriggersLayout o))
    (erase_computed o).

(** The computation wrote nothing but computed layout fields, style
    caches, relayout lists and the trace. *)
Definition structure_kept (s s' : Store) : Prop :=
  contexts s' = contexts s
  /\ (forall c, (fun k => (root k, csize k)) <$> (ctxs s' !! c)
                = (fun k => (root k, csize k)) <$> (ctxs s !! c))
  /\ (forall m, erase_cached <$> (objects s' !! m) = erase_cached <$> (objects s !! m)).

(** The same, and the computation kept the computed layout fields and
    only appended to the relayout lists. *)
Definition sweeps (s s' : Store) : Prop :=
  structure_kept s s'
  /\ (forall c m, m ∈ relayout_of s c -> m ∈ relayout_of s' c)
  /\ (forall m,
        (fun o => set_styleTriggersLayout [] o) <$> (objects s' !! m)
        = (fun o => set_styleTriggersLayout [] o) <$> (objects s !! m)).

(** The computation wrote nothing but the trace. *)
Definition trace_only (s s' : Store) : Prop :=
  objects s' = objects s /\ ctxs s' = ctxs s /\ contexts s' = contexts s.

(** An object without parent whose [layout] is not the one of a root. *)
Definition parentless (n : nat) (s : Store) : Prop :=
  exists o, objects s !! n = Some o /\ parent o = None /\ layoutFn o <> LRoot.

(** *** What the draw traversal paints *)

(** Every listed child is in the store. *)
Definition children_exist (s : Store) : Prop :=
  map_Forall (fun p po => Forall (fun c => is_Some (objects s !! c)) (children po))
    (objects s).

(** A traversal started at [r] comes to [n], and [n] is visible and on
    screen. *)
Definition paintable (s : Store) (r n : nat) : Prop :=
  reach s r n
  /\ exists o, objects s !! n = Some o /\ visible o = true /\ visibleOnScreen o = true.

(** What a call of the draw traversal on [r] does when it ends normally:
    it writes to the trace only, and the paint events that it adds are
    those of the objects that can be painted from [r]. *)
Definition draws (r : nat) (s s' : Store) : Prop :=
  objects s' = objects s
  /\ exists evs, trace s' = trace s ++ evs
                 /\ forall n, EvPaint n ∈ evs <-> paintable s r n.

(** *** Stores on which a layout ends normally *)

(** What a layout of [n] reads is there: the object, its context, and for
    an object that is not a root its parent. *)
Definition can_lay_out (s : Store) (n : nat) : Prop :=
  exists o c k,
    objects s !! n = Some o /\ _context o = Some c /\ ctxs s !! c = Some k
    /\ (layoutFn o <> LRoot ->
        exists p po, parent o = Some p /\ objects s !! p = Some po).

(** Every listed child can be laid out. *)
Definition children_can_lay_out (s : Store) : Prop :=
  map_Forall (fun p po => Forall (can_lay_out s) (children po)) (objects s).

(** The same as a test on the store. *)
Definition can_lay_out_test (s : Store) (n : nat) : Prop :=
  match objects s !! n with
  | Some o =>
      match _context o with
      | Some c =>
          is_Some (ctxs s !! c)
          /\ (layoutFn o <> LRoot ->
              match parent o with
              | Some p => is_Some (objects s !! p)
              | None => False
              end)
      | None => False
      end
  | None => False
  end.

(** *** Caches of style values *)


(** The object with its cache of style values brought up to date. *)
Definition refreshed (o : UIObject) : UIObject :=
  set_styleTriggersLayout (refresh (computedStyle o) (_styleTriggersLayout o)) o.


(** The computation brought caches of style values up to date and wrote
    nothing else to the objects. *)
Definition refreshes (s s' : Store) : Prop :=
  forall m, objects s' !! m = objects s !! m
            \/ objects s' !! m = refreshed <$> (objects s !! m).

(** *** Stores on which a frame ends normally *)

(** Every object in a relayout list can be laid out. *)
Definition relayout_can_lay_out (s : Store) : Prop :=
  map_Forall (fun c k => Forall (can_lay_out s) (relayout k)) (ctxs s).

(** Every running context has a root that can be laid out. *)
Definition running_have_roots (s : Store) : Prop :=
  Forall (fun id =>
            match ctxs s !! id with
            | Some k =>
                match root k with
                | Some r => can_lay_out s r
                | None => False
                end
            | None => False
            end)
    (contexts s).

(** A store on which a frame finds what it reads: the children lists form
    a forest, and the listed children, the scheduled objects and the roots
    of the running contexts can be laid out. *)
Definition frame_ready (rank : nat -> nat) (s : Store) : Prop :=
  ranked rank s /\ children_can_lay_out s /\ relayout_can_lay_out s
  /\ running_have_roots s.

(** *** The counters of the debug overlay *)

(** A loop over [l] that updates the local variables [acc]. *)
Fixpoint for_of_acc {A B} (l : list A) (acc : B) (f : B -> A -> M B) : M B :=
  match l with
  | [] => ret acc
  | a :: rest => acc' ← f acc a; for_of_acc rest acc' f
  end.

(** [iterativeDrawDebugGetObjects(UIObject)]: the pair [[visible, total]]
    that the overlay prints as "Rendering visible - 1 of total - 1
    objects". The counters are numbers that stay below 2^53. *)
Fixpoint iterativeDrawDebugGetObjects (fuel : nat) (UIObject : nat) : M (nat * nat) :=
  match fuel with
  | O => abort_with OutOfFuel
  | S fuel =>
      o ← getObj UIObject;
      if visible o && visibleOnScreen o then
        for_of_acc (children o) (0 + 1, 1)%nat
          (fun '(visible, total) child =>
             result ← iterativeDrawDebugGetObjects fuel child;
             ret (visible + fst result, total + snd result)%nat)
      else
        for_of_acc (children o) (0, 1)%nat
          (fun '(visible, total) child =>
             result ← iterativeDrawDebugGetObjects fuel child;
             ret (if negb (clipsDescendants o) then (visible + fst result)%nat
                  else visible,
                  (total + snd result)%nat))
  end.

(** [iterativeRelayoutCheckDebug(object)]. *)
Fixpoint iterativeRelayoutCheckDebug (fuel : nat) (object : nat) : M nat :=
  match fuel with
  | O => abort_with OutOfFuel
  | S fuel =>
      o ← getObj object;
      for_of_acc (children o) 1%nat
        (fun value child =>
           r ← iterativeRelayoutCheckDebug fuel child;
           ret (value + r)%nat)
  end.

(** The number of calls of [paint] among the events. *)
Definition is_paint (e : event) : bool :=
  match e with
  | EvPaint _ => true
  | _ => false
  end.

Definition count_paints (evs : list event) : nat := length (List.filter is_paint evs).

(** *** Children lists and parents that agree *)

(** The children lists and the [#parent] fields agree: no object is listed
    twice, every listed child has the object that lists it as its
    [#parent], and every object is among the children of its [#parent]. *)
Definition linked (s : Store) : Prop :=
  map_Forall
    (fun p po =>
       NoDup (children po)
       /\ Forall (fun c => priv_parent <$> (objects s !! c) = Some (Some p)) (children po))
    (objects s)
  /\ map_Forall
       (fun c co =>
          match priv_parent co with
          | Some p =>
              match objects s !! p with
              | Some po => c ∈ children po
              | None => False
              end
          | None => True
          end)
       (objects s).

(** What the setter of [parent] reads and writes of the tree. *)
Definition links (o : UIObject) : list nat * option nat := (children o, priv_parent o).

End Scene.

(** ** The frame rate and the profiler *)

Module Frames.

(** The head of [update]: the module-level array [frameTimes] holds the
    timestamps of the frames of the last second, from which the overlay
    takes the frame rate. *)

(** [while (frameTimes.length > 0 && frameTimes[0] <= timestamp - 1000)
    frameTimes.shift()]. *)
Fixpoint shift_old (timestamp : float) (frameTimes : list float) : list float :=
  match frameTimes with
  | [] => []
  | t :: rest =>
      if PrimFloat.leb t (timestamp - 1000) then shift_old timestamp rest
      else frameTimes
  end.

(** The array after [frameTimes.push(timestamp)]. *)
Definition push_frame (timestamp : float) (frameTimes : list float) : list float :=
  shift_old timestamp frameTimes ++ [timestamp].

(** [fps]. *)
Definition fps (frameTimes : list float) : nat := length frameTimes.

(** The timestamps are in ascending order. *)
Fixpoint ascending (l : list float) : Prop :=
  match l with
  | [] => True
  | t :: rest => Forall (fun u => PrimFloat.leb t u = true) rest /\ ascending rest
  end.

End Frames.

Module Watcher.

(** [performanceWatcher]: for each key the last five durations between a
    [start] and the [end] that follows it. The clock [performance.now()]
    and the random numbers of a new colour are inputs of the operations. *)

(** A key of the maps: a string, or [undefined] ([None]), which [end()]
    passes. *)
Definition key := option string.

(** A [Map] as the list of its entries in the order of insertion. *)
Section Map.
Context {V : Type}.

Fixpoint map_get (k : key) (m : list (key * V)) : option V :=
  match m with
  | [] => None
  | (k', v) :: rest => if bool_decide (k = k') then Some v else map_get k rest
  end.

Definition map_has (k : key) (m : list (key * V)) : bool :=
  match map_get k m with
  | Some _ => true
  | None => false
  end.

(** [m.set(k, v)]: an entry that is there keeps its place. *)
Fixpoint map_set (k : key) (v : V) (m : list (key * V)) : list (key * V) :=
  match m with
  | [] => [(k, v)]
  | (k', v') :: rest =>
      if bool_decide (k = k') then (k, v) :: rest else (k', v') :: map_set k v rest
  end.

Fixpoint map_delete (k : key) (m : list (key * V)) : list (key * V) :=
  match m with
  | [] => []
  | (k', v') :: rest =>
      if bool_decide (k = k') then map_delete k rest else (k', v') :: map_delete k rest
  end.
End Map.

Record performanceWatcher := mkWatcher {
  data : list (key * list float);
  recording : list (key * float);
  colors : list (key * (float * float * float))
}.

(** [new performanceWatcher()]. *)
Definition new_performanceWatcher : performanceWatcher := mkWatcher [] [] [].

(** [start(key)] at the time [now], with the numbers [random] for a
    new colour. *)
Definition start (k : key) (now : float) (random : float * float * float)
    (w : performanceWatcher) : performanceWatcher :=
  mkWatcher
    (if map_has k (data w) then data w else map_set k [0; 0; 0; 0; 0] (data w))
    (map_set k now (recording w))
    (if map_has k (colors w) then colors w else map_set k random (colors w)).

(** The key that [end(key)] works on: for [undefined] the first key of
    [#recording], if there is one. *)
Definition end_key (k : key) (w : performanceWatcher) : key :=
  match k, recording w with
  | None, (k0, _) :: _ => k0
  | _, _ => k
  end.

(** [end(key)] at the time [now]: the array of the key takes the duration
    at its end and loses its first element; [push] on the [undefined]
    array of a key without data is a [TypeError]. *)
Definition end_ (k : key) (now : float) (w : performanceWatcher)
    : Js.result performanceWatcher :=
  let k := end_key k w in
  match map_get k (recording w) with
  | Some began =>
      match map_get k (data w) with
      | Some array =>
          Js.Ok (mkWatcher (map_set k (tail (array ++ [now - began])) (data w))
                   (map_delete k (recording w)) (colors w))
      | None => Js.Throw Js.TypeError
      end
  | None => Js.Ok (mkWatcher (data w) (map_delete k (recording w)) (colors w))
  end.

(** [get(key)]. *)
Definition get (k : key) (w : performanceWatcher) : option (list float) :=
  map_get k (data w).

(** [delete(key)], [clear()] and [size]. *)
Definition delete (k : key) (w : performanceWatcher) : performanceWatcher :=
  mkWatcher (map_delete k (data w)) (map_delete k (recording w)) (colors w).

Definition clear (w : performanceWatcher) : performanceWatcher :=
  mkWatcher [] [] (colors w).

Definition size (w : performanceWatcher) : nat := length (data w).

(** [value.reduce((a, b) => a + b)], a [TypeError] on an empty array. *)
Definition reduce_add (value : list float) : Js.result float :=
  match value with
  | [] => Js.Throw Js.TypeError
  | a :: rest => Js.Ok (fold_left (fun a b => a + b) rest a)
  end.

(** The length of an array as a number. *)
Definition length_number (value : list float) : float :=
  PrimFloat.of_uint63 (Uint63.of_Z (Z.of_nat (length value))).

(** The calls [callback(key, average)] that [forEach(callback)] makes, in
    order. *)
Fixpoint averages (entries : list (key * list float)) : Js.result (list (key * float)) :=
  match entries with
  | [] => Js.Ok []
  | (k, value) :: rest =>
      Js.bind (reduce_add value) (fun sum =>
      Js.bind (averages rest) (fun calls =>
      Js.Ok ((k, sum / length_number value) :: calls)))
  end.

Definition forEach (w : performanceWatcher) : Js.result (list (key * float)) :=
  averages (data w).

(** Every array holds five durations, and a key that is being recorded
    has its array. *)
Definition well_formed (w : performanceWatcher) : Prop :=
  Forall (fun e => length (snd e) = 5%nat) (data w)
  /\ forall k, is_Some (map_get k (recording w)) -> is_Some (map_get k (data w)).

End Watcher.

(** ** Scenarios *)

Module Scenario.
Import Scene Style.

(** Enough fuel for the trees below. *)
Definition fuel : nat := 8.

(** A context on a canvas of 800 by 600 and its root. *)
Definition stage : M (nat * nat) :=
  ctx ← new_Context 800 600;
  c ← getCtx ctx;
  match root c with
  | Some r => ret (ctx, r)
  | None => throw Js.TypeError
  end.

(** The same after [context.size = new Vector2(800, 600)]. *)
Definition sized_stage : M (nat * nat) :=
  '(ctx, r) ← stage;
  assign_size ctx (mkVector2 800 600);;
  ret (ctx, r).

(** The end-to-end scenario: [A] of size offset(100,100) at position
    offset(0,0) under the root, [B] of size scale(1,1) under [A], and one
    frame. *)
Definition end_to_end : M (nat * nat) :=
  '(ctx, r) ← sized_stage;
  a ← new_object FrameClass;
  assign a (AssignSize (SDim2_fromOffset 100 100));;
  assign a (AssignPosition (SDim2_fromOffset 0 0));;
  assign a (AssignAnchorPoint (SDim2_fromOffset 0 0));;
  set_parent a (Some r);;
  b ← new_object FrameClass;
  assign b (AssignSize (SDim2_fromScale 1 1));;
  set_parent b (Some a);;
  start ctx;;
  update fuel;;
  ret (a, b).

(** Four new [SDim.fromOffset(10)] as the paddings of the inline style. *)
Definition pad (a : nat) : M unit :=
  assign_style a paddingLeft (Some (SDimV 10 (SDim_fromOffset 10)));;
  assign_style a paddingTop (Some (SDimV 11 (SDim_fromOffset 10)));;
  assign_style a paddingRight (Some (SDimV 12 (SDim_fromOffset 10)));;
  assign_style a paddingBottom (Some (SDimV 13 (SDim_fromOffset 10))).

(** The end-to-end scenario, then the padding on [A] and the next frame. *)
Definition end_to_end_padded : M (nat * nat) :=
  '(a, b) ← end_to_end;
  pad a;;
  update fuel;;
  ret (a, b).

(** The clipping scenario up to the start of the context: [X] at
    offset(-50,-50) of size offset(10,10) with [clipsDescendants] under the
    root, [Y] of size scale(1,1) under [X]. *)
Definition clipping_tree : M (nat * nat) :=
  '(ctx, r) ← sized_stage;
  X ← new_object FrameClass;
  assign X (AssignPosition (SDim2_fromOffset (-50) (-50)));;
  assign X (AssignSize (SDim2_fromOffset 10 10));;
  assign_clipsDescendants X true;;
  set_parent X (Some r);;
  Y ← new_object FrameClass;
  assign Y (AssignSize (SDim2_fromScale 1 1));;
  set_parent Y (Some X);;
  start ctx;;
  ret (X, Y).

(** The clipping scenario after its first frame, which lays [X] out. *)
Definition clipping : M (nat * nat) :=
  '(X, Y) ← clipping_tree;
  update fuel;;
  ret (X, Y).

(** [n] further frames. *)
Fixpoint frames (n : nat) (s : Store) : Store :=
  match n with
  | O => s
  | S n => frames n (snd (update fuel s))
  end.


(** The same with a child [B] of [A]. *)
Definition family : M (nat * nat * nat * nat * nat) :=
  '(ctx, r) ← stage;
  a ← new_object FrameClass;
  set_parent a (Some r);;
  c ← new_object FrameClass;
  set_parent c (Some r);;
  b ← new_object FrameClass;
  set_parent b (Some a);;
  start ctx;;
  update fuel;;
  ret (ctx, r, a, c, b).

(** A frame just constructed, beside a context. *)
Definition with_fresh_frame : M nat :=
  '(ctx, r) ← stage;
  new_object FrameClass.

Definition first_frame : Store := snd (end_to_end empty_store).
Definition padded_frame : Store := snd (end_to_end_padded empty_store).
Definition clipped : Store := snd (clipping empty_store).
Definition family_store : Store := snd (family empty_store).
Definition fresh_frame_store : Store := snd (with_fresh_frame empty_store).

(** [try { m } catch (e) { }]. *)
Definition attempt {A} (m : M A) : M unit := fun s => (Ok tt, snd (m s)).

(** Two frames that were never attached, beside a context. *)
Definition two_fresh_frames : M (nat * nat) :=
  '(ctx, r) ← stage;
  a ← new_object FrameClass;
  b ← new_object FrameClass;
  ret (a, b).

(** A frame [B] under the root, whose move under the detached frame [D]
    fails, and a frame [C] that joins the root afterwards. *)
Definition failed_move : M (nat * nat * nat) :=
  '(ctx, r) ← stage;
  b ← new_object FrameClass;
  set_parent b (Some r);;
  d ← new_object FrameClass;
  attempt (set_parent b (Some d));;
  c ← new_object FrameClass;
  set_parent c (Some r);;
  ret (b, d, c).

(** [A] under the root and [B] under [A], one frame, and then [A] under
    [B]. *)
Definition cycle : M (nat * nat) :=
  '(ctx, r) ← stage;
  a ← new_object FrameClass;
  set_parent a (Some r);;
  b ← new_object FrameClass;
  set_parent b (Some a);;
  start ctx;;
  update fuel;;
  set_parent a (Some b);;
  ret (a, b).

(** The end-to-end scenario, then [B] resized and detached before the next
    frame. *)
Definition resized_and_detached : M (nat * nat) :=
  '(a, b) ← end_to_end;
  assign b (AssignSize (SDim2_fromOffset 5 5));;
  set_parent b None;;
  ret (a, b).

Definition two_fresh_frames_store : Store := snd (two_fresh_frames empty_store).
Definition failed_move_store : Store := snd (failed_move empty_store).
Definition cycle_store : Store := snd (cycle empty_store).
Definition resized_and_detached_store : Store :=
  snd (resized_and_detached empty_store).

End Scenario.

(** * Properties *)

(** ** The arithmetic helpers *)

Module JsFacts.
Import Js.

(** The negation of any value is a boolean, and a boolean is an instance
    of no class: the first operand of the guards is never an instance. *)
Lemma guard_is_dead (v : value) (c : class) : instanceof (js_not v) c = false.
Proof. reflexivity. Qed.

Lemma isNaN_object (c : class) (fields : list (prop * value)) :
  isNaN (VObj c fields) = true.
Proof. reflexivity. Qed.







(** C8 (the code departs from the claim). The guards of the helpers never
    fire, and an argument of another kind with the properties that the
    helper reads is turned into a result: [Vector2.add] and [SDim.add]
    accept an object literal, and [Vector2.multiply] and [Vector2.divide]
    accept [null] and [true] as the number 0 and 1. *)
Theorem C8_mismatch_returns_a_result :
  (forall (v : value) (c : class), instanceof (js_not v) c = false)
  /\ Vector2_add (Vector2_value (mkVector2 1 2))
                 (VObj CObject [(Px, VNum 3); (Py, VNum 4)])
     = Ok (Vector2_value (mkVector2 4 6))
  /\ Vector2_subtract (VObj CObject [(Px, VNum 3); (Py, VNum 4)])
                      (Vector2_value (mkVector2 1 2))
     = Ok (Vector2_value (mkVector2 2 2))
  /\ Vector2_multiply (Vector2_value (mkVector2 1 2)) VNull
     = Ok (Vector2_value (mkVector2 0 0))
  /\ Vector2_divide (Vector2_value (mkVector2 1 2)) (VBool true)
     = Ok (Vector2_value (mkVector2 1 2))
  /\ SDim_add (SDim_value (mkSDim 1 2))
              (VObj CObject [(Pscale, VNum 3); (Poffset, VNum 4)])
     = Ok (SDim_value (mkSDim 4 6))
  /\ SDim_subtract (SDim_value (mkSDim 1 2)) (SDim2_value (mkSDim2 0 0 0 0))
     = Throw (Error "scale is NaN")
  /\ SDim2_add (SDim2_value (mkSDim2 1 2 3 4))
               (VObj CObject [(PscaleX, VNum 1); (PoffsetX, VNum 1);
                              (PscaleY, VNum 1); (PoffsetY, VNum 1)])
     = Ok (SDim2_value (mkSDim2 2 3 4 5)).
Proof.
  split; [exact guard_is_dead|].
  repeat split; vm_compute; reflexivity.
Qed.


(** *** Factories, length and interpolation *)

Lemma is_nan_isNaN (f : float) : isNaN (VNum f) = PrimFloat.is_nan f.
Proof. reflexivity. Qed.

(** X1. [SDim2.fromSDim] is the inverse of the accessors [x] and [y] of an
    [SDim2]: for an [SDim2] [d] and two [SDim]s [a] and [b] whose fields
    are numbers, [SDim2.fromSDim(d.x, d.y)] has the fields of [d], and the
    [x] and [y] of [SDim2.fromSDim(a, b)] have the fields of [a] and of
    [b]. *)
Theorem SDim2_fromSDim_round_trip (d : SDim2) (a b : SDim) :
  PrimFloat.is_nan (scaleX d) = false -> PrimFloat.is_nan (offsetX d) = false ->
  PrimFloat.is_nan (scaleY d) = false -> PrimFloat.is_nan (offsetY d) = false ->
  PrimFloat.is_nan (scale a) = false -> PrimFloat.is_nan (offset a) = false ->
  PrimFloat.is_nan (scale b) = false -> PrimFloat.is_nan (offset b) = false ->
  (let! dx := get (SDim2_value d) Px in
   let! dy := get (SDim2_value d) Py in
   SDim2_fromSDim dx dy) = Ok (SDim2_value d)
  /\ (let! e := SDim2_fromSDim (SDim_value a) (SDim_value b) in get e Px)
     = Ok (SDim_value a)
  /\ (let! e := SDim2_fromSDim (SDim_value a) (SDim_value b) in get e Py)
     = Ok (SDim_value b).
Proof.
  intros H1 H2 H3 H4 H5 H6 H7 H8. destruct d, a, b. simpl in *.
  repeat (cbv -[PrimFloat.is_nan];
          first [rewrite H1 | rewrite H2 | rewrite H3 | rewrite H4
                | rewrite H5 | rewrite H6 | rewrite H7 | rewrite H8]).
  cbv -[PrimFloat.is_nan]. repeat split.
Qed.

Lemma eqb_zero_cases (a : float) :
  PrimFloat.eqb a 0 = true -> a = 0 \/ a = -0.
Proof.
  rewrite FloatAxioms.eqb_spec. unfold SFeqb.
  change (Prim2SF 0) with (S754_zero false).
  intros H. rewrite <- (SF2Prim_Prim2SF a).
  destruct (Prim2SF a) as [[]|[]| |[] m e]; simpl in H; try discriminate H.
  - right. reflexivity.
  - left. reflexivity.
Qed.

Lemma SDim2_fromSDim_round_trip_witness :
  (let! dx := get (SDim2_value (mkSDim2 0.25 300 0.5 200)) Px in
   let! dy := get (SDim2_value (mkSDim2 0.25 300 0.5 200)) Py in
   SDim2_fromSDim dx dy) = Ok (SDim2_value (mkSDim2 0.25 300 0.5 200)).
Proof.
  apply (proj1 (SDim2_fromSDim_round_trip (mkSDim2 0.25 300 0.5 200)
                  (mkSDim 0.25 300) (mkSDim 0.5 200)
                  eq_refl eq_refl eq_refl eq_refl eq_refl eq_refl eq_refl eq_refl)).
Defined.

(** X2. The length of a vector whose two coordinates are zero (of either
    sign) is 0, and its [normalized] throws "x is NaN": the division of
    zero by the length 0 is [NaN], which the constructor refuses. *)
Theorem Vector2_normalized_of_zero_throws (a : Vector2) :
  PrimFloat.eqb (x a) 0 = true -> PrimFloat.eqb (y a) 0 = true ->
  Vector2_length (Vector2_value a) = Ok (VNum 0)
  /\ Vector2_normalized (Vector2_value a) = Throw (Error "x is NaN").
Proof.
  destruct a as [ax ay]. simpl. intros Hx Hy.
  destruct (eqb_zero_cases _ Hx) as [->| ->], (eqb_zero_cases _ Hy) as [->| ->];
    split; vm_compute; reflexivity.
Qed.

Lemma Vector2_normalized_of_zero_throws_witness :
  Vector2_length (Vector2_value (mkVector2 0 (-0))) = Ok (VNum 0)
  /\ Vector2_normalized (Vector2_value (mkVector2 0 (-0))) = Throw (Error "x is NaN").
Proof.
  apply (Vector2_normalized_of_zero_throws (mkVector2 0 (-0))); reflexivity.
Defined.

(** X3. [lerp] refuses a weight that [isNaN] maps to true, among them
    [undefined], before it looks at [to]; with a number as weight it
    throws a [TypeError] for [to] [null] or [undefined], and for an
    object of any class with numbers [x] and [y] it returns the vector of
    [this.x * (1 - weight) + to.x * weight] and the same on [y], or the
    error of the constructor when one of these is [NaN]: the guard on
    [to] never fires. *)
Theorem Vector2_lerp_checks (a : Vector2) (c : class) (tx ty w : float) :
  (forall this to weight,
      isNaN weight = true -> Vector2_lerp this to weight = Throw (Error "weight is NaN"))
  /\ (forall this, Vector2_lerp this VNull VUndefined = Throw (Error "weight is NaN"))
  /\ (PrimFloat.is_nan w = false ->
      Vector2_lerp (Vector2_value a) VNull (VNum w) = Throw TypeError
      /\ Vector2_lerp (Vector2_value a) VUndefined (VNum w) = Throw TypeError
      /\ Vector2_lerp (Vector2_value a) (VObj c [(Px, VNum tx); (Py, VNum ty)]) (VNum w)
         = new_Vector2 (VNum (x a * (1 - w) + tx * w)) (VNum (y a * (1 - w) + ty * w))).
Proof.
  split; [|split].
  - intros this to weight H. unfold Vector2_lerp. rewrite guard_is_dead, H. reflexivity.
  - intros this. reflexivity.
  - intros Hw. unfold Vector2_lerp. rewrite !guard_is_dead.
    change (isNaN (VNum w)) with (PrimFloat.is_nan w). rewrite Hw.
    repeat split.
Qed.

End JsFacts.

Module GeometryFacts.

(** X4. The constructor of [SDim2] on numbers: four arguments are scale and
    offset on X and on Y; without a fourth argument the first two are the
    offsets and the scales are 0, and a third argument is dropped; an
    [undefined] third argument with a fourth one is stored as it is. The
    factories [SDim2.fromOffset], [SDim2.fromScale] and [SDim.fromOffset]
    on numbers give what the scene graph below builds with the functions
    of these names on records. *)
Theorem SDim2_constructor_overloads (a b c d : float) :
  PrimFloat.is_nan a = false -> PrimFloat.is_nan b = false ->
  PrimFloat.is_nan c = false -> PrimFloat.is_nan d = false ->
  Js.new_SDim2 (Js.VNum a) (Js.VNum b) (Js.VNum c) (Js.VNum d)
  = Js.Ok (SDim2_value (mkSDim2 a b c d))
  /\ Js.new_SDim2 (Js.VNum a) (Js.VNum b) Js.VUndefined Js.VUndefined
     = Js.Ok (SDim2_value (SDim2_fromOffset a b))
  /\ Js.new_SDim2 (Js.VNum a) (Js.VNum b) (Js.VNum c) Js.VUndefined
     = Js.Ok (SDim2_value (SDim2_fromOffset a b))
  /\ Js.new_SDim2 (Js.VNum a) Js.VUndefined Js.VUndefined Js.VUndefined
     = Js.Ok (SDim2_value (SDim2_fromOffset a 0))
  /\ Js.new_SDim2 (Js.VNum a) (Js.VNum b) Js.VUndefined (Js.VNum d)
     = Js.Ok (Js.VObj Js.CSDim2
                [(Js.PscaleX, Js.VNum a); (Js.PoffsetX, Js.VNum b);
                 (Js.PscaleY, Js.VUndefined); (Js.PoffsetY, Js.VNum d)])
  /\ Js.SDim2_fromOffset (Js.VNum a) (Js.VNum b)
     = Js.Ok (SDim2_value (SDim2_fromOffset a b))
  /\ Js.SDim2_fromScale (Js.VNum a) (Js.VNum b)
     = Js.Ok (SDim2_value (SDim2_fromScale a b))
  /\ Js.SDim_fromOffset (Js.VNum a) = Js.Ok (SDim_value (SDim_fromOffset a))
  /\ Js.SDim2_fromScale Js.VUndefined Js.VUndefined = Js.Ok (SDim2_value SDim2_zero)
  /\ Js.new_SDim2 Js.VUndefined Js.VUndefined Js.VUndefined Js.VUndefined
     = Js.Ok (SDim2_value SDim2_zero).
Proof.
  intros Ha Hb Hc Hd.
  repeat (cbv -[PrimFloat.is_nan];
          first [rewrite Ha | rewrite Hb | rewrite Hc | rewrite Hd]).
  cbv -[PrimFloat.is_nan]. repeat split.
Qed.

Lemma SDim2_constructor_overloads_witness :
  Js.new_SDim2 (Js.VNum 0.25) (Js.VNum 300) (Js.VNum 0.5) (Js.VNum 200)
  = Js.Ok (SDim2_value (mkSDim2 0.25 300 0.5 200))
  /\ Js.new_SDim2 (Js.VNum 0.25) (Js.VNum 300) (Js.VNum 0.5) Js.VUndefined
     = Js.Ok (SDim2_value (mkSDim2 0 0.25 0 300)).
Proof.
  pose proof (SDim2_constructor_overloads 0.25 300 0.5 200
                eq_refl eq_refl eq_refl eq_refl) as (H1 & _ & H3 & _).
  split; [exact H1 | exact H3].
Defined.

End GeometryFacts.

(** ** Style merging *)

Module StyleFacts.
Import Style.

Lemma sprop_eq_dec (p q : sprop) : {p = q} + {p <> q}.
Proof. decide equality. Defined.

Lemma sget_sset_eq (p : sprop) (v : option styleval) (s : UIStyle) :
  sget p (sset p v s) = v.
Proof. destruct p; reflexivity. Qed.

Lemma sget_sset_ne (p q : sprop) (v : option styleval) (s : UIStyle) :
  p <> q -> sget p (sset q v s) = sget p s.
Proof. intros Hne. destruct p, q; try reflexivity; congruence. Qed.

(** A style is determined by its nine fields. *)
Lemma UIStyle_ext (a b : UIStyle) :
  (forall p, sget p a = sget p b) -> a = b.
Proof.
  intros H. destruct a, b.
  pose proof (H background). pose proof (H color).
  pose proof (H paddingLeft). pose proof (H paddingTop).
  pose proof (H paddingRight). pose proof (H paddingBottom).
  pose proof (H textSize). pose proof (H textAlign).
  pose proof (H verticalTextAlign).
  simpl in *. congruence.
Qed.

Lemma sget_merge_prop (p q : sprop) (style acc : UIStyle) :
  sget p (merge_prop style acc q) =
  if sprop_eq_dec p q then override (sget q style) (sget p acc) else sget p acc.
Proof.
  unfold merge_prop. destruct (sprop_eq_dec p q) as [->|Hne].
  - destruct (sget q style); [apply sget_sset_eq | reflexivity].
  - destruct (sget q style); [apply sget_sset_ne; assumption | reflexivity].
Qed.

Lemma sget_fold_merge_prop (p : sprop) (style : UIStyle) (ps : list sprop) :
  forall acc,
    sget p (fold_left (merge_prop style) ps acc) =
    if existsb (fun q => if sprop_eq_dec p q then true else false) ps
    then override (sget p style) (sget p acc)
    else sget p acc.
Proof.
  induction ps as [|q ps IH]; intros acc; simpl; [reflexivity|].
  rewrite IH, sget_merge_prop.
  destruct (sprop_eq_dec p q) as [->|Hne]; simpl.
  - destruct (existsb _ ps); destruct (sget q style); reflexivity.
  - reflexivity.
Qed.

(** One style merged into the accumulator: its non-null fields win. *)
Lemma sget_merge_style (p : sprop) (acc style : UIStyle) :
  sget p (merge_style acc style) = override (sget p style) (sget p acc).
Proof.
  unfold merge_style. rewrite sget_fold_merge_prop.
  destruct p; reflexivity.
Qed.

Lemma merge_snoc (l : list UIStyle) (c : UIStyle) :
  merge (l ++ [c]) = merge_style (merge l) c.
Proof. unfold merge. rewrite fold_left_app. reflexivity. Qed.

Lemma last_non_null_snoc (vs : list (option styleval)) (v : option styleval) :
  last_non_null (vs ++ [v]) = override v (last_non_null vs).
Proof.
  induction vs as [|w vs IH]; simpl.
  - destruct v; reflexivity.
  - rewrite IH. destruct v; simpl; [reflexivity|].
    destruct (last_non_null vs); reflexivity.
Qed.

Lemma sget_merge (p : sprop) (l : list UIStyle) :
  sget p (merge l) = last_non_null (map (sget p) l).
Proof.
  induction l as [|c l IH] using rev_ind.
  - destruct p; reflexivity.
  - rewrite merge_snoc, sget_merge_style, map_app. simpl map.
    rewrite last_non_null_snoc, IH. reflexivity.
Qed.

Lemma merge_style_new (m : UIStyle) : merge_style new_UIStyle m = m.
Proof.
  apply UIStyle_ext. intros p. rewrite sget_merge_style.
  destruct (sget p m); [reflexivity | destruct p; reflexivity].
Qed.

Lemma merge_regroup (l : list UIStyle) (c : UIStyle) :
  merge (l ++ [c]) = merge [merge l; c].
Proof.
  rewrite merge_snoc. unfold merge at 2. simpl.
  rewrite merge_style_new. reflexivity.
Qed.

(** C5. The computed style is the merge of the default style, the styles
    of the list and the inline style, in this order; a field of a merge is
    the last non-null value of that field in the sequence; a non-null
    field of the inline style is the computed one, a null one leaves what
    the default and the list give; and merging a sequence and then a last
    style over the result is merging the sequence extended by it. *)
Theorem C5_computed_style_is_override_merge :
  (forall o : Scene.UIObject,
      Scene.computedStyle o = merge (default :: Scene.styles o ++ [Scene.style o]))
  /\ (forall (l : list UIStyle) (p : sprop),
         sget p (merge l) = last_non_null (map (sget p) l))
  /\ (forall (o : Scene.UIObject) (p : sprop),
         sget p (Scene.computedStyle o) =
         match sget p (Scene.style o) with
         | Some v => Some v
         | None => sget p (merge (default :: Scene.styles o))
         end)
  /\ (forall (l : list UIStyle) (c : UIStyle),
         merge (l ++ [c]) = merge [merge l; c]
         /\ merge (l ++ [c]) = merge_style (merge l) c).
Proof.
  split; [reflexivity|]. split; [intros; apply sget_merge|]. split.
  - intros o p. unfold Scene.computedStyle.
    change (default :: Scene.styles o ++ [Scene.style o])
      with ((default :: Scene.styles o) ++ [Scene.style o]).
    rewrite merge_snoc, sget_merge_style. reflexivity.
  - intros l c. split; [apply merge_regroup | apply merge_snoc].
Qed.

End StyleFacts.

(** ** The scene graph *)

Module SceneFacts.
Import Style Scene.

(** *** Running computations *)

Lemma bind_run {A B} (m : M A) (k : A -> M B) (s : Store) :
  (m ≫= k) s =
  match m s with
  | (Ok a, s') => k a s'
  | (Throw e, s') => (Throw e, s')
  | (Abort r, s') => (Abort r, s')
  end.
Proof. reflexivity. Qed.

Lemma run_getObj (n : nat) (o : UIObject) (s : Store) :
  objects s !! n = Some o -> getObj n s = (Ok o, s).
Proof. intros H. unfold getObj. rewrite H. reflexivity. Qed.

Lemma run_modObj (n : nat) (f : UIObject -> UIObject) (o : UIObject) (s : Store) :
  objects s !! n = Some o ->
  modObj n f s = (Ok tt, set_objects (<[n := f o]> (objects s)) s).
Proof. intros H. unfold modObj. rewrite H. reflexivity. Qed.

Lemma run_getCtx (c : nat) (k : Context) (s : Store) :
  ctxs s !! c = Some k -> getCtx c s = (Ok k, s).
Proof. intros H. unfold getCtx. rewrite H. reflexivity. Qed.

Lemma run_modCtx (c : nat) (f : Context -> Context) (k : Context) (s : Store) :
  ctxs s !! c = Some k ->
  modCtx c f s = (Ok tt, set_ctxs (<[c := f k]> (ctxs s)) s).
Proof. intros H. unfold modCtx. rewrite H. reflexivity. Qed.

Lemma getObj_store (n : nat) (s : Store) : snd (getObj n s) = s.
Proof. unfold getObj. destruct (objects s !! n); reflexivity. Qed.

Lemma getObj_inv (n : nat) (s s' : Store) (r : result UIObject) :
  getObj n s = (r, s') ->
  s' = s /\ (r = Abort Dangling /\ objects s !! n = None
             \/ exists o, r = Ok o /\ objects s !! n = Some o).
Proof.
  unfold getObj. destruct (objects s !! n) as [o|]; intros [= <- <-]; eauto.
Qed.

Lemma getCtx_inv (c : nat) (s s' : Store) (r : result Context) :
  getCtx c s = (r, s') ->
  s' = s /\ (r = Abort Dangling /\ ctxs s !! c = None
             \/ exists k, r = Ok k /\ ctxs s !! c = Some k).
Proof.
  unfold getCtx. destruct (ctxs s !! c) as [k|]; intros [= <- <-]; eauto.
Qed.

(** *** Relations between the store before and after *)

Section Keeps.
Context (R : Store -> Store -> Prop).
Context (R_refl : forall s, R s s).
Context (R_trans : forall s1 s2 s3, R s1 s2 -> R s2 s3 -> R s1 s3).

Lemma keeps_ret {A} (a : A) : keeps R (ret a).
Proof. intros s. apply R_refl. Qed.

Lemma keeps_throw {A} (e : Js.error) : keeps R (@throw A e).
Proof. intros s. apply R_refl. Qed.

Lemma keeps_abort {A} (r : abort) : keeps R (@abort_with A r).
Proof. intros s. apply R_refl. Qed.

Lemma keeps_getObj (n : nat) : keeps R (getObj n).
Proof. intros s. rewrite getObj_store. apply R_refl. Qed.

Lemma keeps_getCtx (c : nat) : keeps R (getCtx c).
Proof. intros s. unfold getCtx. destruct (ctxs s !! c); apply R_refl. Qed.

Lemma keeps_bind {A B} (m : M A) (k : A -> M B) :
  keeps R m -> (forall a, keeps R (k a)) -> keeps R (m ≫= k).
Proof.
  intros Hm Hk s. rewrite bind_run. specialize (Hm s).
  destruct (m s) as [[a|e|r] s']; simpl in *; [|assumption..].
  eapply R_trans; [exact Hm | apply Hk].
Qed.

Lemma keeps_when (b : bool) (m : M unit) : keeps R m -> keeps R (when b m).
Proof. intros Hm. destruct b; [exact Hm | apply keeps_ret]. Qed.

Lemma keeps_for_of {A} (l : list A) (f : A -> M unit) :
  (forall a, keeps R (f a)) -> keeps R (for_of l f).
Proof.
  intros Hf. induction l as [|a l IH]; simpl.
  - apply keeps_ret.
  - apply keeps_bind; [apply Hf | intros _; exact IH].
Qed.
End Keeps.

(** A loop keeps an invariant of the store that each iteration keeps for
    the elements of the list. *)
Lemma for_of_invariant {A} (I : Store -> Prop) (l : list A) (f : A -> M unit) :
  (forall a s, a ∈ l -> I s -> I (snd (f a s))) ->
  forall s, I s -> I (snd (for_of l f s)).
Proof.
  induction l as [|a l IH]; intros Hf s Hs; simpl; [exact Hs|].
  rewrite bind_run.
  pose proof (Hf a s (list_elem_of_here a l) Hs) as Ha.
  destruct (f a s) as [[[]|e|r] s']; simpl in *; try exact Ha.
  apply IH; [|exact Ha].
  intros b s0 Hb. apply Hf. apply list_elem_of_further. exact Hb.
Qed.

(** *** Layout touches the computed fields only *)

Lemma touches_refl (P : nat -> Prop) (s : Store) : touches P s s.
Proof. repeat split. Qed.

Lemma touches_trans (P : nat -> Prop) (s1 s2 s3 : Store) :
  touches P s1 s2 -> touches P s2 s3 -> touches P s1 s3.
Proof.
  intros [(H1 & H2 & H3 & H4) H5] [(K1 & K2 & K3 & K4) K5].
  split; [split; [|split; [|split]]|].
  - congruence.
  - congruence.
  - congruence.
  - intros m. rewrite K4. apply H4.
  - intros m Hm. rewrite K5, H5; auto.
Qed.

Lemma touches_weaken (P Q : nat -> Prop) (s s' : Store) :
  (forall m, P m -> Q m) -> touches P s s' -> touches Q s s'.
Proof. intros HPQ [H1 H2]. split; [exact H1|]. intros m Hm. apply H2. auto. Qed.

Lemma keeps_touches_modObj (P : nat -> Prop) (n : nat) (f : UIObject -> UIObject) :
  P n -> (forall o, erase_computed (f o) = erase_computed o) ->
  keeps (touches P) (modObj n f).
Proof.
  intros HP Hf s. unfold modObj.
  destruct (objects s !! n) as [o|] eqn:Ho; simpl; [|apply touches_refl].
  split; [split; [|split; [|split]]|]; simpl; try reflexivity.
  - intros m. destruct (decide (n = m)) as [<-|Hne].
    + rewrite lookup_insert_eq, Ho. simpl. rewrite Hf. reflexivity.
    + rewrite lookup_insert_ne by assumption. reflexivity.
  - intros m Hm. apply lookup_insert_ne. congruence.
Qed.

Lemma keeps_touches_resolve_padding (P : nat -> Prop) d e :
  keeps (touches P) (resolve_padding d e).
Proof.
  intros s. unfold resolve_padding.
  destruct (padding_value d e); apply touches_refl.
Qed.

Ltac keeps_touches :=
  repeat first
    [ apply keeps_bind; [apply touches_trans | | intros ?]
    | apply keeps_getObj; apply touches_refl
    | apply keeps_getCtx; apply touches_refl
    | apply keeps_ret; apply touches_refl
    | apply keeps_throw; apply touches_refl
    | apply keeps_when; [apply touches_refl|]
    | apply keeps_touches_resolve_padding
    | apply keeps_touches_modObj; [reflexivity | intros ?; reflexivity] ].

Lemma layout_own_touches (this : nat) (up : bool) :
  keeps (touches (eq this)) (layout_own this up).
Proof.
  unfold layout_own. keeps_touches.
  match goal with |- context [parent ?o] => destruct (parent o) end; keeps_touches.
  match goal with |- context [_context ?o] => destruct (_context o) end; keeps_touches.
Qed.

Lemma layout_root_own_touches (this : nat) :
  keeps (touches (eq this)) (layout_root_own this).
Proof.
  unfold layout_root_own. keeps_touches.
  match goal with |- context [_context ?o] => destruct (_context o) end; keeps_touches.
Qed.

Lemma ranked_computed_only (rank : nat -> nat) (s s' : Store) :
  computed_only s s' -> ranked rank s -> ranked rank s'.
Proof.
  intros (_ & _ & _ & He) Hr p po' Hp.
  specialize (He p). rewrite Hp in He. simpl in He.
  destruct (objects s !! p) as [po|] eqn:Hpo; [|discriminate].
  assert (erase_computed po' = erase_computed po) as Heq
    by (simpl in He; congruence).
  assert (children po' = children po) as -> by exact (f_equal children Heq).
  exact (Hr p po Hpo).
Qed.

(** The loop over the children, given that the calls on the children
    write at their rank and above. *)
Lemma children_loop_touches (rank : nat -> nat)
    (f : layoutKind -> nat -> bool -> option bool -> M unit)
    (this : nat) (o : UIObject) (up : bool) (s : Store) :
  (forall fn c up ucp s, ranked rank s ->
      touches (fun m => (rank c <= rank m)%nat) s (snd (f fn c up ucp s))) ->
  ranked rank s -> objects s !! this = Some o ->
  touches (fun m => (rank this < rank m)%nat) s
    (snd (for_of (children o)
            (fun child =>
               co ← getObj child;
               if visible co then f (layoutFn co) child up None else ret tt) s)).
Proof.
  intros Hf Hr Ho.
  apply (for_of_invariant (fun s' => touches (fun m => (rank this < rank m)%nat) s s'));
    [|apply touches_refl].
  intros c s2 Hc Hs2.
  eapply touches_trans; [exact Hs2|].
  assert (rank this < rank c)%nat as Hlt.
  { pose proof (Hr this o Ho) as Hall. rewrite Forall_forall in Hall. auto. }
  rewrite bind_run.
  destruct (getObj c s2) as [r s3] eqn:E. apply getObj_inv in E.
  destruct E as [-> [[-> _] | (co & -> & Hco)]]; [apply touches_refl|].
  destruct (visible co); [|apply touches_refl].
  eapply touches_weaken; [|apply Hf].
  - intros m Hm. simpl in Hm. lia.
  - eapply ranked_computed_only; [apply Hs2 | exact Hr].
Qed.

Lemma layout_touches (rank : nat -> nat) (fuel : nat) :
  forall fn this up ucp s, ranked rank s ->
    touches (fun m => (rank this <= rank m)%nat) s (snd (layout fuel fn this up ucp s)).
Proof.
  induction fuel as [|fuel IH]; intros fn this up ucp s Hr; [apply touches_refl|].
  destruct fn; simpl.
  - rewrite bind_run.
    pose proof (layout_own_touches this up s) as H1.
    destruct (layout_own this up s) as [[[]|e|r] s1]; simpl in H1;
      try (eapply touches_weaken; [|exact H1]; intros m <-; lia).
    eapply touches_trans; [eapply touches_weaken; [|exact H1]; intros m <-; lia|].
    rewrite bind_run.
    destruct (getObj this s1) as [r s2] eqn:E. apply getObj_inv in E.
    destruct E as [-> [[-> _] | (o & -> & Ho)]]; [apply touches_refl|].
    eapply touches_weaken;
      [|apply (children_loop_touches rank (layout fuel)); [exact IH| |exact Ho]].
    + intros m Hm. simpl in Hm. lia.
    + eapply ranked_computed_only; [apply H1 | exact Hr].
  - apply IH. exact Hr.
  - rewrite bind_run.
    pose proof (layout_root_own_touches this s) as H1.
    destruct (layout_root_own this s) as [[[]|e|r] s1]; simpl in H1;
      try (eapply touches_weaken; [|exact H1]; intros m <-; lia).
    eapply touches_trans; [eapply touches_weaken; [|exact H1]; intros m <-; lia|].
    rewrite bind_run.
    destruct (getObj this s1) as [r s2] eqn:E. apply getObj_inv in E.
    destruct E as [-> [[-> _] | (o & -> & Ho)]]; [apply touches_refl|].
    eapply touches_weaken;
      [|apply (children_loop_touches rank (layout fuel)); [exact IH| |exact Ho]].
    + intros m Hm. simpl in Hm. lia.
    + eapply ranked_computed_only; [apply H1 | exact Hr].
Qed.

(** *** What a layout computes *)

Lemma run_resolve_padding (d : option styleval) (e v : float) (s : Store) :
  padding_value d e = Some v -> resolve_padding d e s = (Ok v, s).
Proof. intros H. unfold resolve_padding. rewrite H. reflexivity. Qed.

Ltac tidy H :=
  cbv beta iota in H;
  cbn [objects ctxs contexts contextId nextObject trace
       set_objects set_ctxs set_trace] in H.

Ltac run_mod H :=
  rewrite bind_run in H;
  erewrite run_modObj in H by (first [eassumption | apply lookup_insert_eq]);
  tidy H.

Ltac run_padding H :=
  rewrite bind_run in H;
  let E := fresh "Epad" in
  match type of H with
  | context [resolve_padding ?d ?e ?s] =>
      destruct (padding_value d e) as [?|] eqn:E;
      [ rewrite (run_resolve_padding _ _ _ _ E) in H; tidy H
      | unfold resolve_padding, throw in H; rewrite E in H; tidy H; discriminate H ]
  end.


Ltac run_get_as H o Ho :=
  rewrite bind_run in H;
  match type of H with
  | context [getObj ?n ?s] =>
      let r := fresh "r" in
      let s' := fresh "s" in
      let E := fresh "E" in
      destruct (getObj n s) as [r s'] eqn:E; apply getObj_inv in E;
      destruct E as [-> [[-> ?] | (o & -> & Ho)]]; tidy H; [discriminate H|]
  end.

Ltac run_getCtx H k Hk :=
  rewrite bind_run in H;
  match type of H with
  | context [getCtx ?n ?s] =>
      let r := fresh "r" in
      let s' := fresh "s" in
      let E := fresh "E" in
      destruct (getCtx n s) as [r s'] eqn:E; apply getCtx_inv in E;
      destruct E as [-> [[-> ?] | (k & -> & Hk)]]; tidy H; [discriminate H|]
  end.


Lemma for_of_snd {A} (l : list A) (f : A -> M unit) (s s' : Store) (r : result unit) :
  for_of l f s = (r, s') -> s' = snd (for_of l f s).
Proof. intros ->. reflexivity. Qed.




(** *** Comparisons of numbers *)



(** *** The size, the paddings and the visibility after a layout *)



#[export] Instance ranked_dec (rank : nat -> nat) (s : Store) : Decision (ranked rank s).
Proof. unfold ranked. apply _. Defined.


(** *** The traversals *)








Lemma reach_trans (s : Store) (r c n : nat) :
  reach s r c -> reach s c n -> reach s r n.
Proof.
  intros Hrc H. induction H as [|p po d _ IH Hpo Hd Hc]; [exact Hrc|].
  eapply reach_child; eassumption.
Qed.










Lemma reach_children (s : Store) (r : nat) (o : UIObject) (c : nat) :
  objects s !! r = Some o -> descends o = true -> c ∈ children o -> reach s r c.
Proof. intros Ho Hd Hc. eapply reach_child; [constructor | eassumption..]. Qed.




Lemma with_zIndex_inv (l : list nat) :
  forall s s' r, with_zIndex l s = (r, s') ->
    s' = s /\ forall zs, r = Ok zs -> map fst zs = l.
Proof.
  induction l as [|c l IH]; intros s s' r H; simpl in H.
  - injection H as <- <-. split; [reflexivity|]. intros zs [= <-]. reflexivity.
  - rewrite bind_run in H.
    destruct (getObj c s) as [res s1] eqn:E. apply getObj_inv in E.
    destruct E as [-> [[-> _] | (co & -> & Hco)]].
    + injection H as <- <-. split; [reflexivity | discriminate].
    + rewrite bind_run in H.
      destruct (with_zIndex l s) as [res s2] eqn:E2.
      destruct (IH _ _ _ E2) as [-> Hzs].
      destruct res as [zs|e|a]; injection H as <- <-;
        (split; [reflexivity|]); try discriminate.
      intros zs' [= <-]. simpl. rewrite (Hzs zs eq_refl). reflexivity.
Qed.





(** *** Scheduling *)

Lemma includes_elem (n : nat) (l : list nat) : includes n l = true <-> n ∈ l.
Proof.
  unfold includes. rewrite existsb_exists. split.
  - intros (m & Hin & Heq). apply Nat.eqb_eq in Heq. subst m.
    apply list_elem_of_In. exact Hin.
  - intros H. exists n. split; [apply list_elem_of_In; exact H | apply Nat.eqb_refl].
Qed.

Lemma not_includes_elem (n : nat) (l : list nat) : includes n l = false <-> n ∉ l.
Proof.
  rewrite <- includes_elem. destruct (includes n l); split; congruence.
Qed.

(** [_scheduleLayout] leaves the objects alone, and either leaves the
    contexts alone as well or appends the object to the list of the
    context, the object being accepted and not yet listed. *)
Lemma scheduleLayout_cases (c n : nat) (s : Store) :
  let s' := snd (_scheduleLayout c n s) in
  s' = s
  \/ exists o k,
       objects s !! n = Some o /\ ctxs s !! c = Some k
       /\ accepted c o /\ (n ∉ relayout k)
       /\ s' = set_ctxs (<[c := set_relayout (relayout k ++ [n]) k]> (ctxs s)) s.
Proof.
  unfold _scheduleLayout. simpl. rewrite bind_run.
  destruct (getObj n s) as [r s1] eqn:E. apply getObj_inv in E.
  destruct E as [-> [[-> _] | (o & -> & Ho)]]; [left; reflexivity|].
  rewrite bind_run.
  destruct (getCtx c s) as [r s1] eqn:E. apply getCtx_inv in E.
  destruct E as [-> [[-> _] | (k & -> & Hk)]]; [left; reflexivity|].
  destruct (bool_decide (_context o = Some c)) eqn:G1; [|left; reflexivity].
  destruct (bool_decide (is_Some (parent o))) eqn:G2; [|left; reflexivity].
  destruct (visible o) eqn:G3; [|left; reflexivity].
  destruct (includes n (relayout k)) eqn:G4; [left; reflexivity|].
  right. exists o, k. simpl. rewrite (run_modCtx _ _ _ _ Hk). simpl.
  apply bool_decide_eq_true_1 in G1, G2. apply not_includes_elem in G4.
  unfold accepted. auto 10.
Qed.


Lemma scheduleLayout_parentless (c n : nat) (s : Store) (o : UIObject) :
  objects s !! n = Some o -> parent o = None -> snd (_scheduleLayout c n s) = s.
Proof.
  intros Ho Hp. destruct (scheduleLayout_cases c n s) as [H|H]; [exact H|].
  destruct H as (o' & k & Ho' & _ & (_ & G2 & _) & _).
  rewrite Ho in Ho'. injection Ho' as <-. rewrite Hp in G2.
  destruct G2 as [? G2]. discriminate G2.
Qed.

Lemma eligible_objects (s s' : Store) (c n : nat) :
  objects s' = objects s -> eligible s c n -> eligible s' c n.
Proof. intros E (o & Ho & H). exists o. rewrite E. auto. Qed.

Lemma adds_guarded_refl (X : nat -> Prop) (s : Store) : adds_guarded X s s.
Proof.
  split; [intros n c _ H; exact H|]. intros c.
  destruct (ctxs s !! c) as [k|]; [|reflexivity].
  exists k, []. rewrite app_nil_r.
  split; [reflexivity|]. split; [reflexivity|]. split; [reflexivity|].
  split; [constructor|]. intros m Hm. apply elem_of_nil in Hm. contradiction.
Qed.


(** Two phases in a row: what the first appended stays eligible when the
    second spares it. *)
Lemma appends_compose (X Y : nat -> Prop) (s1 s2 s3 : Store) :
  appends X s1 s2 -> spares X s2 s3 -> appends Y s2 s3 ->
  appends (fun n => X n /\ Y n) s1 s3.
Proof.
  intros A1 E2 A2 c. specialize (A1 c). specialize (A2 c).
  destruct (ctxs s1 !! c) as [k|]; [|rewrite A1 in A2; exact A2].
  destruct A1 as (k2 & a1 & Hk2 & Hr2 & Hl2 & Hd2 & Ha2).
  rewrite Hk2 in A2. destruct A2 as (k3 & a2 & Hk3 & Hr3 & Hl3 & Hd3 & Ha3).
  exists k3, (a1 ++ a2). split; [exact Hk3|]. split; [congruence|].
  split; [rewrite Hl3, Hl2; symmetry; apply app_assoc|]. split.
  - apply NoDup_app. split; [exact Hd2|]. split; [|exact Hd3].
    intros n Hn1 Hn2. destruct (Ha3 n Hn2) as [Hnot _]. apply Hnot.
    rewrite Hl2. apply elem_of_app. auto.
  - intros n Hn. apply elem_of_app in Hn. destruct Hn as [Hn|Hn].
    + destruct (Ha2 n Hn) as (H1 & H2 & H3). split; [exact H1|]. split; [tauto|].
      apply E2; assumption.
    + destruct (Ha3 n Hn) as (H1 & H2 & H3). split; [|split; [tauto | exact H3]].
      intros Hin. apply H1. rewrite Hl2. apply elem_of_app. auto.
Qed.

Lemma adds_guarded_trans (X : nat -> Prop) (s1 s2 s3 : Store) :
  adds_guarded X s1 s2 -> adds_guarded X s2 s3 -> adds_guarded X s1 s3.
Proof.
  intros [E1 A1] [E2 A2]. split; [intros n c HX H; auto|].
  pose proof (appends_compose X X s1 s2 s3 A1 E2 A2) as A.
  intros c. specialize (A c). destruct (ctxs s1 !! c) as [k|]; [|exact A].
  destruct A as (k' & added & H1 & H2 & H3 & H4 & H5).
  exists k', added. repeat (split; [assumption|]).
  intros n Hn. destruct (H5 n Hn) as (? & ? & ?). tauto.
Qed.



Lemma keeps_guarded_modObj (X : nat -> Prop) (n : nat) (f : UIObject -> UIObject) :
  X n \/ (forall o c, accepted c o -> accepted c (f o)) ->
  keeps (adds_guarded X) (modObj n f).
Proof.
  intros Hf s. unfold modObj.
  destruct (objects s !! n) as [o|] eqn:Ho; simpl; [|apply adds_guarded_refl].
  split.
  - intros m c HX (om & Hom & Hacc). unfold eligible. simpl.
    destruct (decide (n = m)) as [<-|Hne].
    + rewrite lookup_insert_eq. exists (f o). split; [reflexivity|].
      destruct Hf as [Hf|Hf]; [contradiction|].
      rewrite Ho in Hom. injection Hom as <-. apply Hf. exact Hacc.
    + rewrite lookup_insert_ne by assumption. exists om. auto.
  - intros c. simpl. destruct (ctxs s !! c) as [k|]; [|reflexivity].
    exists k, []. rewrite app_nil_r.
    split; [reflexivity|]. split; [reflexivity|]. split; [reflexivity|].
    split; [constructor|]. intros m Hm. apply elem_of_nil in Hm. contradiction.
Qed.

Lemma keeps_guarded_scheduleLayout (X : nat -> Prop) (c n : nat) :
  ~ X n -> keeps (adds_guarded X) (_scheduleLayout c n).
Proof.
  intros HX s. destruct (scheduleLayout_cases c n s) as [->|H];
    [apply adds_guarded_refl|].
  destruct H as (o & k & Ho & Hk & Hacc & Hnot & ->). split.
  - intros m c' _ H. eapply eligible_objects; [|exact H]. reflexivity.
  - intros c'. simpl. destruct (decide (c = c')) as [<-|Hne].
    + rewrite Hk, lookup_insert_eq. eexists _, [n].
      split; [reflexivity|]. split; [reflexivity|]. split; [reflexivity|].
      split; [apply NoDup_singleton|].
      intros m Hm. apply list_elem_of_singleton in Hm. subst m.
      split; [exact Hnot|]. split; [exact HX|]. exists o. auto.
    + rewrite lookup_insert_ne by assumption.
      destruct (ctxs s !! c') as [k'|]; [|reflexivity].
      exists k', []. rewrite app_nil_r.
      split; [reflexivity|]. split; [reflexivity|]. split; [reflexivity|].
      split; [constructor|]. intros m Hm. apply elem_of_nil in Hm. contradiction.
Qed.

Lemma keeps_guarded_call_scheduleLayout (X : nat -> Prop) (ctx : option nat) (n : nat) :
  ~ X n -> keeps (adds_guarded X) (call_scheduleLayout ctx n).
Proof.
  intros HX. destruct ctx; simpl.
  - apply keeps_guarded_scheduleLayout. exact HX.
  - apply keeps_throw. apply adds_guarded_refl.
Qed.

Ltac keeps_guarded :=
  repeat first
    [ apply keeps_bind; [apply adds_guarded_trans | | intros ?]
    | apply keeps_getObj; apply adds_guarded_refl
    | apply keeps_getCtx; apply adds_guarded_refl
    | apply keeps_ret; apply adds_guarded_refl
    | apply keeps_throw; apply adds_guarded_refl
    | apply keeps_when; [apply adds_guarded_refl|] ].

Lemma accepted_children (v : list nat) (o : UIObject) (c : nat) :
  accepted c o -> accepted c (set_children v o).
Proof. intros H. exact H. Qed.


Lemma leave_parent_guarded (this : nat) (oldParent : option nat) :
  oldParent <> Some this ->
  keeps (adds_guarded (eq this)) (leave_parent this oldParent).
Proof.
  intros Hne. unfold leave_parent. destruct oldParent as [p|]; keeps_guarded.
  - apply keeps_guarded_modObj. right. intros o c H. exact H.
  - apply keeps_guarded_call_scheduleLayout. congruence.
Qed.

Lemma detach_guarded (this : nat) :
  keeps (adds_guarded (eq this)) (enter_parent this None).
Proof.
  unfold enter_parent. keeps_guarded; apply keeps_guarded_modObj; left; reflexivity.
Qed.

Lemma attach_prefix_guarded (this q : nat) (ctx : option nat) :
  keeps (adds_guarded (eq this))
    (modObj this (set_context ctx);;
     modObj q (fun qo => set_children (children qo ++ [this]) qo)).
Proof.
  keeps_guarded.
  - apply keeps_guarded_modObj. left. reflexivity.
  - apply keeps_guarded_modObj. right. intros o c H. exact H.
Qed.


Lemma snd_bind {A B} (m : M A) (k : A -> M B) (s : Store) :
  snd ((m ≫= k) s) =
  match m s with
  | (Ok a, s') => snd (k a s')
  | (_, s') => s'
  end.
Proof. rewrite bind_run. destruct (m s) as [[a|e|r] s']; reflexivity. Qed.


(** Detaching an object does not append it. *)
Lemma set_parent_null_guarded (this : nat) (s : Store) (o : UIObject) :
  objects s !! this = Some o -> priv_parent o <> Some this ->
  adds_guarded (eq this) s (snd (set_parent this None s)).
Proof.
  intros Ho Hself. unfold set_parent. rewrite snd_bind, (run_getObj _ _ _ Ho).
  destruct (isRoot o); [apply adds_guarded_refl|].
  destruct (bool_decide (None = priv_parent o)); [apply adds_guarded_refl|].
  rewrite snd_bind.
  pose proof (leave_parent_guarded this (priv_parent o) Hself s) as H1.
  destruct (leave_parent this (priv_parent o) s) as [[[]|e|r] s1]; simpl in H1;
    try exact H1.
  eapply adds_guarded_trans; [exact H1 | apply detach_guarded].
Qed.




#[export] Instance no_self_parent_dec (s : Store) : Decision (no_self_parent s).
Proof. unfold no_self_parent. apply _. Defined.

(** *** Reparenting *)

Lemma parent_kept_refl (this : nat) (s : Store) : parent_kept this s s.
Proof. split; [reflexivity|]. intros o Ho. exists o. auto. Qed.

Lemma parent_kept_trans (this : nat) (s1 s2 s3 : Store) :
  parent_kept this s1 s2 -> parent_kept this s2 s3 -> parent_kept this s1 s3.
Proof.
  intros [C1 O1] [C2 O2]. split; [congruence|].
  intros o3 Ho3. destruct (O2 o3 Ho3) as (o2 & Ho2 & P2 & R2).
  destruct (O1 o2 Ho2) as (o1 & Ho1 & P1 & R1).
  exists o1. split; [exact Ho1|]. split; congruence.
Qed.

Lemma keeps_parent_kept_modObj (this n : nat) (f : UIObject -> UIObject) :
  (forall o, priv_parent (f o) = priv_parent o /\ isRoot (f o) = isRoot o) ->
  keeps (parent_kept this) (modObj n f).
Proof.
  intros Hf s. unfold modObj.
  destruct (objects s !! n) as [o|] eqn:Ho; simpl; [|apply parent_kept_refl].
  split; [reflexivity|]. simpl. intros o' Ho'.
  destruct (decide (n = this)) as [->|Hne].
  - rewrite lookup_insert_eq in Ho'. injection Ho' as <-.
    exists o. split; [exact Ho|]. apply Hf.
  - rewrite lookup_insert_ne in Ho' by assumption. exists o'. auto.
Qed.

(** A reparenting of an object without parent leaves the relayout lists
    as they are. *)
Lemma set_parent_parentless (this : nat) (newParent : option nat) (s : Store)
    (o : UIObject) :
  objects s !! this = Some o -> parent o = None ->
  ctxs (snd (set_parent this newParent s)) = ctxs s.
Proof.
  intros Ho Hp. unfold set_parent. rewrite snd_bind, (run_getObj _ _ _ Ho).
  destruct (isRoot o) eqn:Hroot; [reflexivity|].
  assert (priv_parent o = None) as Hpp
    by (unfold parent in Hp; rewrite Hroot in Hp; exact Hp).
  rewrite Hpp. destruct newParent as [q|]; [|reflexivity].
  rewrite bool_decide_eq_false_2 by discriminate.
  rewrite snd_bind. cbn [leave_parent ret]. unfold enter_parent.
  rewrite snd_bind.
  destruct (getObj q s) as [r s0] eqn:E. apply getObj_inv in E.
  destruct E as [-> [[-> _] | (qo & -> & Hqo)]]; [reflexivity|].
  rewrite snd_bind.
  pose proof (keeps_parent_kept_modObj this this (set_context (_context qo))
                (fun _ => conj eq_refl eq_refl) s) as H1.
  destruct (modObj this _ s) as [[[]|e|r] s1]; simpl in H1; try apply H1.
  rewrite snd_bind.
  pose proof (keeps_parent_kept_modObj this q
                (fun qo => set_children (children qo ++ [this]) qo)
                (fun _ => conj eq_refl eq_refl) s1) as H2.
  pose proof (parent_kept_trans _ _ _ _ H1 H2) as H12.
  destruct (modObj q _ s1) as [[[]|e|r] s2]; simpl in H2, H12; try apply H12.
  rewrite snd_bind.
  destruct (getObj this s2) as [r s3] eqn:E. apply getObj_inv in E.
  destruct E as [-> [[-> _] | (o2 & -> & Ho2)]]; [apply H12|].
  destruct H12 as [Hctx Hobj].
  destruct (Hobj o2 Ho2) as (o0 & Ho0 & Hpp2 & Hroot2).
  rewrite Ho in Ho0. injection Ho0 as <-.
  assert (parent o2 = None) as Hp2
    by (unfold parent; rewrite Hroot2, Hroot, Hpp2; exact Hpp).
  rewrite snd_bind.
  assert (snd (call_scheduleLayout (_context o2) this s2) = s2) as Hsame.
  { destruct (_context o2) as [c|]; [|reflexivity].
    apply (scheduleLayout_parentless c this s2 o2 Ho2 Hp2). }
  destruct (call_scheduleLayout (_context o2) this s2) as [[[]|e|r] s3];
    simpl in Hsame; subst s3; try exact Hctx.
  unfold modObj. rewrite Ho2. exact Hctx.
Qed.

Lemma relayout_of_ctxs (s s' : Store) (c : nat) :
  ctxs s' = ctxs s -> relayout_of s' c = relayout_of s c.
Proof. intros H. unfold relayout_of. rewrite H. reflexivity. Qed.

(** C10. Assigning a parent to an object that has none adds nothing to
    any relayout list: the object is not enqueued. An object (that is not
    its own parent) is enqueued by the assignment only if it had a parent
    and gets one. *)
Theorem C10_parentless_node_not_enqueued
    (s : Store) (this : nat) (newParent : option nat) (o : UIObject) :
  objects s !! this = Some o ->
  (parent o = None -> ctxs (snd (set_parent this newParent s)) = ctxs s)
  /\ (priv_parent o <> Some this ->
      forall c,
        this ∉ relayout_of s c ->
        this ∈ relayout_of (snd (set_parent this newParent s)) c ->
        is_Some (parent o) /\ is_Some newParent).
Proof.
  intros Ho. split; [apply set_parent_parentless; exact Ho|].
  intros Hself c Hnot Hin.
  destruct (parent o) as [p|] eqn:Hp.
  - split; [eexists; reflexivity|]. destruct newParent as [q|]; [eexists; reflexivity|].
    exfalso.
    pose proof (set_parent_null_guarded this s o Ho Hself) as [_ A].
    specialize (A c). unfold relayout_of in Hnot, Hin.
    destruct (ctxs s !! c) as [k|].
    + destruct A as (k' & added & Hk' & _ & Hl & _ & Hadd).
      rewrite Hk', Hl in Hin. apply elem_of_app in Hin.
      destruct Hin as [Hin|Hin]; [contradiction|].
      destruct (Hadd this Hin) as (_ & Hne & _). apply Hne. reflexivity.
    + rewrite A in Hin. apply elem_of_nil in Hin. contradiction.
  - exfalso. apply Hnot.
    rewrite <- (relayout_of_ctxs s _ c (set_parent_parentless this newParent s o Ho Hp)).
    exact Hin.
Qed.


Lemma indexOf_none (n : nat) (l : list nat) : indexOf n l = None -> n ∉ l.
Proof.
  induction l as [|m l IH]; simpl; intros H Hin.
  - apply elem_of_nil in Hin. contradiction.
  - destruct (Nat.eqb n m) eqn:E; [discriminate H|]. apply Nat.eqb_neq in E.
    destruct (indexOf n l); [discriminate H|].
    apply elem_of_cons in Hin. destruct Hin as [Hin|Hin]; [contradiction|].
    exact (IH eq_refl Hin).
Qed.



Lemma scheduleLayout_grows (c n : nat) (s : Store) (c' m : nat) :
  m ∈ relayout_of s c' -> m ∈ relayout_of (snd (_scheduleLayout c n s)) c'.
Proof.
  intros Hm. destruct (scheduleLayout_cases c n s) as [->|H]; [exact Hm|].
  destruct H as (o & k & _ & Hk & _ & _ & ->). unfold relayout_of in *. simpl.
  destruct (decide (c = c')) as [<-|Hne].
  - rewrite lookup_insert_eq. rewrite Hk in Hm. simpl. apply elem_of_app. auto.
  - rewrite lookup_insert_ne by assumption. exact Hm.
Qed.

Lemma scheduleLayout_objects (c n : nat) (s : Store) :
  objects (snd (_scheduleLayout c n s)) = objects s.
Proof.
  destruct (scheduleLayout_cases c n s) as [->|H]; [reflexivity|].
  destruct H as (o & k & _ & _ & _ & _ & ->). reflexivity.
Qed.

Lemma run_scheduleLayout_ok (c n : nat) (s s' : Store) :
  _scheduleLayout c n s = (Ok tt, s') ->
  objects s' = objects s
  /\ forall c' m, m ∈ relayout_of s c' -> m ∈ relayout_of s' c'.
Proof.
  intros H. assert (s' = snd (_scheduleLayout c n s)) as -> by (rewrite H; reflexivity).
  split; [apply scheduleLayout_objects|]. intros c' m. apply scheduleLayout_grows.
Qed.




(** *** Clipped subtrees *)


#[export] Instance children_have_parent_dec (s : Store) :
  Decision (children_have_parent s).
Proof. unfold children_have_parent. apply _. Defined.


(** The state of the clipping scenario repeats itself from frame to frame,
    up to the trace. *)
Lemma clipping_frame (t : list event) :
  snd (update Scenario.fuel (set_trace t Scenario.clipped))
  = set_trace (((((t ++ [EvSweep 0]) ++ [EvSweep 1]) ++ [EvDraw 0])
                 ++ [EvPaint 0]) ++ [EvDraw 1])
      Scenario.clipped.
Proof. vm_compute. reflexivity. Qed.

Lemma frames_S (n : nat) (s : Store) :
  Scenario.frames (S n) s = Scenario.frames n (snd (update Scenario.fuel s)).
Proof. reflexivity. Qed.

Lemma frames_O (s : Store) : Scenario.frames 0 s = s.
Proof. reflexivity. Qed.

Lemma clipping_frames (n : nat) :
  forall t, exists t',
    Scenario.frames n (set_trace t Scenario.clipped)
    = set_trace (t ++ t') Scenario.clipped
    /\ Forall (fun e => node_of e <> 2%nat) t'.
Proof.
  induction n as [|n IH]; intros t.
  - exists []. rewrite frames_O, app_nil_r. split; [reflexivity | constructor].
  - rewrite frames_S, clipping_frame.
    destruct (IH (((((t ++ [EvSweep 0]) ++ [EvSweep 1]) ++ [EvDraw 0])
                     ++ [EvPaint 0]) ++ [EvDraw 1])) as (t' & -> & Ht').
    exists ([EvSweep 0; EvSweep 1; EvDraw 0; EvPaint 0; EvDraw 1] ++ t').
    split.
    + f_equal. rewrite <- !app_assoc. reflexivity.
    + apply Forall_app. split; [|exact Ht'].
      repeat constructor; simpl; discriminate.
Qed.

(** In the clipping scenario no frame after the first calls the sweep or
    the draw traversal on [Y], however many frames follow. *)
Lemma clipping_later_frames_skip_Y (n : nat) :
  Forall (fun e => node_of e <> 2%nat)
    (drop (length (trace Scenario.clipped))
       (trace (Scenario.frames n Scenario.clipped))).
Proof.
  destruct (clipping_frames n (trace Scenario.clipped))
    as (t' & E & Ht').
  replace (set_trace (trace Scenario.clipped)
             Scenario.clipped)
    with Scenario.clipped in E by (vm_compute; reflexivity).
  rewrite E. cbn [trace set_trace]. rewrite drop_app_length. exact Ht'.
Qed.

(** The first frame lays [X] out: its sweep runs while [visibleOnScreen]
    still has its initial value, and calls on [Y]; its draw traversal
    does not. *)
Lemma clipping_first_frame :
  trace Scenario.clipped
  = [EvSweep 0; EvSweep 1; EvSweep 2; EvDraw 0; EvPaint 0; EvDraw 1].
Proof. vm_compute. reflexivity. Qed.

(** *** The scenarios *)

(** C2 (amended). In the end-to-end scenario [A] is at (0,0) with size
    (100,100) and [B] has size (100,100); once [A] has paddings of 10 on
    its four sides, the next frame leaves [A] at its size and gives [B]
    the size (80,80) at position (10,10). *)
Theorem C2_end_to_end_scenario :
  fst (Scenario.end_to_end empty_store) = Ok (1%nat, 2%nat)
  /\ absolutePosition <$> (objects Scenario.first_frame !! 1%nat)
     = Some (mkVector2 0 0)
  /\ absoluteSize <$> (objects Scenario.first_frame !! 1%nat)
     = Some (mkVector2 100 100)
  /\ absoluteSize <$> (objects Scenario.first_frame !! 2%nat)
     = Some (mkVector2 100 100)
  /\ fst (Scenario.end_to_end_padded empty_store) = Ok (1%nat, 2%nat)
  /\ absoluteSize <$> (objects Scenario.padded_frame !! 1%nat)
     = Some (mkVector2 100 100)
  /\ absolutePaddingLeft <$> (objects Scenario.padded_frame !! 1%nat)
     = Some 10
  /\ absolutePaddingRight <$> (objects Scenario.padded_frame !! 1%nat)
     = Some 10
  /\ absoluteSize <$> (objects Scenario.padded_frame !! 2%nat)
     = Some (mkVector2 80 80)
  /\ absolutePosition <$> (objects Scenario.padded_frame !! 2%nat)
     = Some (mkVector2 10 10).
Proof. repeat split; vm_compute; reflexivity. Qed.

(** The padding on [A] changes the size of [B]. *)
Lemma C2_padding_changes_size_of_B :
  absoluteSize <$> (objects Scenario.padded_frame !! 2%nat)
  <> absoluteSize <$> (objects Scenario.first_frame !! 2%nat).
Proof.
  intros H.
  apply (f_equal (fun v => match v with
                           | Some w => PrimFloat.eqb (x w) 100
                           | None => false
                           end)) in H.
  vm_compute in H. discriminate H.
Qed.



(** *** Instances of the theorems *)




Lemma C10_parentless_node_not_enqueued_witness :
  (parent (fresh_object FrameClass) = None ->
   ctxs (snd (set_parent 1 (Some 0%nat) Scenario.fresh_frame_store))
   = ctxs Scenario.fresh_frame_store)
  /\ (priv_parent (fresh_object FrameClass) <> Some 1%nat ->
      forall c,
        1%nat ∉ relayout_of Scenario.fresh_frame_store c ->
        1%nat ∈ relayout_of
                 (snd (set_parent 1 (Some 0%nat)
                         Scenario.fresh_frame_store)) c ->
        is_Some (parent (fresh_object FrameClass)) /\ is_Some (Some 0%nat)).
Proof.
  apply (C10_parentless_node_not_enqueued
           Scenario.fresh_frame_store 1 (Some 0%nat)
           (fresh_object FrameClass)).
  vm_compute. reflexivity.
Defined.

(** A child that moves from one parent to another is enqueued, after its
    old parent. *)
Lemma reparented_child_is_enqueued :
  relayout_of Scenario.family_store 0 = []
  /\ relayout_of (snd (set_parent 3 (Some 2%nat)
                         Scenario.family_store)) 0
     = [1%nat; 3%nat].
Proof. split; vm_compute; reflexivity. Qed.

(** *** What a layout writes *)

Lemma lays_out_trans (s : Store) (a b c : nat) :
  lays_out s a b -> lays_out s b c -> lays_out s a c.
Proof.
  intros Hab Hbc. induction Hbc as [|p po c co _ IH Hp Hc Hco Hv]; [exact Hab|].
  eapply lays_out_child; eassumption.
Qed.

Lemma computed_only_lookup (s s' : Store) (n : nat) (o : UIObject) :
  computed_only s s' -> objects s' !! n = Some o ->
  exists o0, objects s !! n = Some o0 /\ erase_computed o = erase_computed o0.
Proof.
  intros (_ & _ & _ & He) Hn. specialize (He n). rewrite Hn in He.
  destruct (objects s !! n) as [o0|]; [|discriminate He].
  exists o0. split; [reflexivity|]. simpl in He. congruence.
Qed.

Lemma erase_computed_children (o o0 : UIObject) :
  erase_computed o = erase_computed o0 -> children o = children o0.
Proof. intros H. exact (f_equal children H). Qed.

Lemma erase_computed_visible (o o0 : UIObject) :
  erase_computed o = erase_computed o0 -> visible o = visible o0.
Proof. intros H. exact (f_equal visible H). Qed.

Lemma lays_out_computed_only (s s' : Store) (a b : nat) :
  computed_only s s' -> lays_out s' a b -> lays_out s a b.
Proof.
  intros Hc H. induction H as [|p po c co _ IH Hp Hin Hco Hv]; [constructor|].
  destruct (computed_only_lookup _ _ _ _ Hc Hp) as (po0 & Hp0 & Ep).
  destruct (computed_only_lookup _ _ _ _ Hc Hco) as (co0 & Hc0 & Ec).
  eapply lays_out_child; [exact IH | exact Hp0 | | exact Hc0 |].
  - rewrite <- (erase_computed_children _ _ Ep). exact Hin.
  - rewrite <- (erase_computed_visible _ _ Ec). exact Hv.
Qed.

Lemma layout_children_subtree
    (f : layoutKind -> nat -> bool -> option bool -> M unit)
    (this : nat) (o : UIObject) (up : bool) (s0 s : Store) :
  (forall fn c up ucp s, touches (lays_out s c) s (snd (f fn c up ucp s))) ->
  touches (lays_out s0 this) s0 s -> objects s !! this = Some o ->
  touches (lays_out s0 this) s0
    (snd (for_of (children o)
            (fun child =>
               co ← getObj child;
               if visible co then f (layoutFn co) child up None else ret tt) s)).
Proof.
  intros Hf Hs Ho.
  apply (for_of_invariant (fun s' => touches (lays_out s0 this) s0 s')); [|exact Hs].
  intros c s2 Hc Hs2.
  eapply touches_trans; [exact Hs2|].
  rewrite bind_run.
  destruct (getObj c s2) as [r s3] eqn:E. apply getObj_inv in E.
  destruct E as [-> [[-> _] | (co & -> & Hco)]]; [apply touches_refl|].
  destruct (visible co) eqn:Hv; [|apply touches_refl].
  eapply touches_weaken; [|apply Hf].
  intros m Hm. simpl in Hm.
  apply (lays_out_computed_only s0 s2) in Hm; [|apply Hs2].
  eapply lays_out_trans; [|exact Hm].
  destruct Hs as [Hs _].
  destruct (computed_only_lookup _ _ _ _ Hs Ho) as (o0 & Ho0 & Eo).
  destruct Hs2 as [Hs2 _].
  destruct (computed_only_lookup _ _ _ _ Hs2 Hco) as (co0 & Hco0 & Ec).
  eapply lays_out_child; [constructor | exact Ho0 | | exact Hco0 |].
  - rewrite <- (erase_computed_children _ _ Eo). exact Hc.
  - rewrite <- (erase_computed_visible _ _ Ec). exact Hv.
Qed.

Lemma layout_subtree (fuel : nat) :
  forall fn this up ucp s,
    touches (lays_out s this) s (snd (layout fuel fn this up ucp s)).
Proof.
  induction fuel as [|fuel IH]; intros fn this up ucp s; [apply touches_refl|].
  assert (forall m, this = m -> lays_out s this m) as Hself
    by (intros m <-; constructor).
  destruct fn; simpl.
  - rewrite bind_run.
    pose proof (layout_own_touches this up s) as H1.
    destruct (layout_own this up s) as [[[]|e|r] s1]; simpl in H1;
      try (eapply touches_weaken; [|exact H1]; exact Hself).
    apply (touches_weaken _ _ _ _ Hself) in H1.
    rewrite bind_run.
    destruct (getObj this s1) as [r s2] eqn:E. apply getObj_inv in E.
    destruct E as [-> [[-> _] | (o & -> & Ho)]]; [exact H1|].
    apply (layout_children_subtree (layout fuel)); [exact IH | exact H1 | exact Ho].
  - eapply touches_weaken; [|apply IH]. auto.
  - rewrite bind_run.
    pose proof (layout_root_own_touches this s) as H1.
    destruct (layout_root_own this s) as [[[]|e|r] s1]; simpl in H1;
      try (eapply touches_weaken; [|exact H1]; exact Hself).
    apply (touches_weaken _ _ _ _ Hself) in H1.
    rewrite bind_run.
    destruct (getObj this s1) as [r s2] eqn:E. apply getObj_inv in E.
    destruct E as [-> [[-> _] | (o & -> & Ho)]]; [exact H1|].
    apply (layout_children_subtree (layout fuel)); [exact IH | exact H1 | exact Ho].
Qed.

(** X5. A layout writes nothing but computed layout fields, and only of
    the object and of the objects that it comes to through visible
    children: the contexts with their relayout lists and the map of the
    running contexts stay as they are, every object keeps what user code
    has set, and an object outside this set is not written at all. This
    holds for every store and every outcome of the call. *)
Theorem layout_writes_laid_out_objects_only
    (fuel : nat) (this : nat) (updatePosition : bool) (s : Store) :
  let s' := snd (call_layout fuel this updatePosition s) in
  ctxs s' = ctxs s /\ contexts s' = contexts s
  /\ (forall m, erase_computed <$> (objects s' !! m)
                = erase_computed <$> (objects s !! m))
  /\ (forall m, ~ lays_out s this m -> objects s' !! m = objects s !! m).
Proof.
  cbv zeta. unfold call_layout. rewrite bind_run.
  destruct (getObj this s) as [r s1] eqn:E. apply getObj_inv in E.
  destruct E as [-> [[-> _] | (o & -> & Ho)]]; [simpl; auto|].
  destruct (layout_subtree fuel (layoutFn o) this updatePosition None s)
    as [(H1 & H2 & _ & H3) H4].
  auto.
Qed.

(** *** The position after a layout *)

Lemma layout_own_position (this : nat) (up : bool) (s s1 : Store) (o : UIObject)
    (p : nat) (po : UIObject) :
  objects s !! this = Some o -> parent o = Some p -> p <> this ->
  objects s !! p = Some po ->
  layout_own this up s = (Ok tt, s1) ->
  exists o1,
    objects s1 !! this = Some o1
    /\ absoluteSize o1 = expected_absoluteSize o po
    /\ (if up then
          absoluteAnchorPoint o1 = expected_absoluteAnchorPoint o (absoluteSize o1)
          /\ absolutePosition o1
             = expected_absolutePosition o po (absoluteAnchorPoint o1)
        else
          absoluteAnchorPoint o1 = absoluteAnchorPoint o
          /\ absolutePosition o1 = absolutePosition o).
Proof.
  intros Ho Hp Hne Hpo H. unfold layout_own in H.
  rewrite bind_run, (run_getObj _ _ _ Ho), Hp in H.
  rewrite bind_run, (run_getObj _ _ _ Hpo) in H. cbv zeta in H.
  run_padding H. run_mod H. run_padding H. run_mod H.
  run_padding H. run_mod H. run_padding H. run_mod H. run_mod H.
  destruct up; unfold when in H.
  - rewrite bind_run in H. run_mod H. run_get_as H po' Hpo'.
    tidy Hpo'. rewrite !lookup_insert_ne in Hpo' by congruence.
    assert (po' = po) as -> by congruence.
    erewrite run_modObj in H by apply lookup_insert_eq. tidy H.
    rewrite bind_run, (run_getObj _ _ _ (lookup_insert_eq _ _ _)) in H. tidy H.
    simpl (_context _) in H.
    destruct (_context o) as [c|] eqn:Hc; [|unfold throw in H; discriminate H].
    run_getCtx H k Hk.
    erewrite run_modObj in H by apply lookup_insert_eq. tidy H.
    injection H as <-.
    eexists. split; [apply lookup_insert_eq|]. simpl. auto.
  - rewrite bind_run in H. cbn [ret] in H. tidy H.
    rewrite bind_run, (run_getObj _ _ _ (lookup_insert_eq _ _ _)) in H. tidy H.
    simpl (_context _) in H.
    destruct (_context o) as [c|] eqn:Hc; [|unfold throw in H; discriminate H].
    run_getCtx H k Hk.
    erewrite run_modObj in H by apply lookup_insert_eq. tidy H.
    injection H as <-.
    eexists. split; [apply lookup_insert_eq|]. simpl. auto.
Qed.

(** X6. A layout of an object under a parent other than itself, called to
    update the position, leaves it with the absolute anchor point
    [anchorPoint.scale * absoluteSize + anchorPoint.offset] and the
    absolute position [position.scale * parent.absoluteSize +
    position.offset - absoluteAnchorPoint + parent.absolutePosition +
    parent padding (left, top)] on each axis; called with a false
    [updatePosition] it leaves both as they were. *)
Theorem layout_absolute_position
    (rank : nat -> nat) (fuel : nat) (this : nat) (updatePosition : bool)
    (s s' : Store) (o : UIObject) (p : nat) (po : UIObject) :
  ranked rank s ->
  objects s !! this = Some o -> layoutFn o <> LRoot ->
  parent o = Some p -> p <> this -> objects s !! p = Some po ->
  call_layout fuel this updatePosition s = (Ok tt, s') ->
  exists o1,
    objects s' !! this = Some o1
    /\ (if updatePosition then
          x (absoluteAnchorPoint o1)
          = scaleX (anchorPoint o) * x (absoluteSize o1) + offsetX (anchorPoint o)
          /\ y (absoluteAnchorPoint o1)
             = scaleY (anchorPoint o) * y (absoluteSize o1) + offsetY (anchorPoint o)
          /\ x (absolutePosition o1)
             = scaleX (position o) * x (absoluteSize po) + offsetX (position o)
               - x (absoluteAnchorPoint o1) + x (absolutePosition po)
               + absolutePaddingLeft po
          /\ y (absolutePosition o1)
             = scaleY (position o) * y (absoluteSize po) + offsetY (position o)
               - y (absoluteAnchorPoint o1) + y (absolutePosition po)
               + absolutePaddingTop po
        else
          absoluteAnchorPoint o1 = absoluteAnchorPoint o
          /\ absolutePosition o1 = absolutePosition o).
Proof.
  intros Hr Ho Hfn Hp Hne Hpo H. unfold call_layout in H.
  rewrite bind_run, (run_getObj _ _ _ Ho) in H.
  assert (exists fuel', layout (S fuel') LDefault this updatePosition None s = (Ok tt, s'))
    as [fuel' H'].
  { destruct (layoutFn o); [| |congruence].
    - destruct fuel as [|fuel]; [discriminate H|]. exists fuel. exact H.
    - destruct fuel as [|[|fuel]]; try discriminate H. exists fuel. exact H. }
  clear H. simpl in H'. rewrite bind_run in H'.
  pose proof (layout_own_touches this updatePosition s) as Ht.
  destruct (layout_own this updatePosition s) as [[[]|e|r] s1] eqn:E1;
    try discriminate H'.
  simpl in Ht.
  destruct (layout_own_position _ _ _ _ _ _ _ Ho Hp Hne Hpo E1) as (o1 & Ho1 & Hsz & Hpos).
  rewrite bind_run, (run_getObj _ _ _ Ho1) in H'.
  apply for_of_snd in H'.
  assert (ranked rank s1) as Hr1
    by (eapply ranked_computed_only; [apply Ht | exact Hr]).
  pose proof (children_loop_touches rank (layout fuel') this o1
                (not_false None) s1 (layout_touches rank fuel') Hr1 Ho1) as [_ Hsame].
  exists o1. rewrite H', Hsame by lia. split; [exact Ho1|].
  destruct updatePosition.
  - destruct Hpos as [Ha Hb]. rewrite Hb, Ha. simpl. auto.
  - exact Hpos.
Qed.

(** *** What the setter of [parent] writes *)

Lemma reparents_refl (this : nat) (P : nat -> Prop) (s : Store) : reparents this P s s.
Proof. split; intros; reflexivity. Qed.

Lemma reparents_trans (this : nat) (P : nat -> Prop) (s1 s2 s3 : Store) :
  reparents this P s1 s2 -> reparents this P s2 s3 -> reparents this P s1 s3.
Proof.
  intros [H1 H2] [K1 K2]. split.
  - intros m Hm. rewrite K1, H1 by assumption. reflexivity.
  - intros m Hm HP. rewrite K2, H2 by assumption. reflexivity.
Qed.

Lemma keeps_reparents_modObj (this : nat) (P : nat -> Prop) (n : nat)
    (f : UIObject -> UIObject) :
  n = this \/ (P n /\ forall o, set_children [] (f o) = set_children [] o) ->
  keeps (reparents this P) (modObj n f).
Proof.
  intros Hf s. unfold modObj.
  destruct (objects s !! n) as [o|] eqn:Ho; simpl; [|apply reparents_refl].
  split; simpl.
  - intros m Hm. destruct (decide (n = m)) as [<-|Hne].
    + rewrite lookup_insert_eq, Ho. simpl.
      destruct Hf as [Hf|[_ Hf]]; [contradiction|]. rewrite Hf. reflexivity.
    + rewrite lookup_insert_ne by assumption. reflexivity.
  - intros m Hm HP. apply lookup_insert_ne. intros <-.
    destruct Hf as [Hf|[Hf _]]; contradiction.
Qed.

Lemma keeps_reparents_call_scheduleLayout (this : nat) (P : nat -> Prop)
    (ctx : option nat) (n : nat) :
  keeps (reparents this P) (call_scheduleLayout ctx n).
Proof.
  destruct ctx as [c|]; simpl; [|apply keeps_throw; apply reparents_refl].
  intros s. pose proof (scheduleLayout_objects c n s) as E.
  split; intros; rewrite E; reflexivity.
Qed.

Ltac keeps_reparents :=
  repeat first
    [ apply keeps_bind; [apply reparents_trans | | intros ?]
    | apply keeps_getObj; apply reparents_refl
    | apply keeps_ret; apply reparents_refl
    | apply keeps_throw; apply reparents_refl
    | apply keeps_reparents_call_scheduleLayout
    | apply keeps_reparents_modObj; left; reflexivity
    | apply keeps_reparents_modObj; right; split;
        [auto; fail | intros ?; reflexivity] ].

Lemma set_parent_reparents (this : nat) (newParent : option nat) (s : Store)
    (o : UIObject) :
  objects s !! this = Some o ->
  reparents this (fun m => Some m = priv_parent o \/ Some m = newParent) s
    (snd (set_parent this newParent s)).
Proof.
  intros Ho. unfold set_parent. rewrite snd_bind, (run_getObj _ _ _ Ho).
  destruct (isRoot o); [apply reparents_refl|].
  destruct (bool_decide (newParent = priv_parent o)); [apply reparents_refl|].
  revert s Ho. 
  assert (keeps (reparents this (fun m => Some m = priv_parent o \/ Some m = newParent))
            (leave_parent this (priv_parent o);; enter_parent this newParent)) as K.
  { unfold leave_parent, enter_parent.
    destruct (priv_parent o) as [p|], newParent as [q|]; keeps_reparents. }
  intros s _. apply K.
Qed.

Lemma set_children_nil_eq (a b : UIObject) :
  set_children [] a = set_children [] b -> a = set_children (children a) b.
Proof.
  destruct a, b. cbn. intros H. injection H. intros. subst. reflexivity.
Qed.

(** X7. Whatever its outcome, the setter of [parent] writes to the object
    itself and to the [children] of other objects only, and it leaves an
    object that is neither the old nor the new parent as it is. So the
    objects below the one that moves keep their [_context], also when the
    object moves to another context or is detached. *)
Theorem set_parent_writes
    (this : nat) (newParent : option nat) (s : Store) (o : UIObject) :
  objects s !! this = Some o ->
  let s' := snd (set_parent this newParent s) in
  (forall m o', m <> this -> objects s' !! m = Some o' ->
     exists o0, objects s !! m = Some o0
       /\ o' = set_children (children o') o0
       /\ (Some m <> priv_parent o -> Some m <> newParent -> o' = o0)).
Proof.
  intros Ho s' m o' Hm Ho'.
  destruct (set_parent_reparents this newParent s o Ho) as [H1 H2].
  fold s' in H1, H2. specialize (H1 m Hm). rewrite Ho' in H1.
  destruct (objects s !! m) as [o0|] eqn:Ho0; [|discriminate H1].
  exists o0. split; [reflexivity|]. split.
  - apply set_children_nil_eq. simpl in H1. congruence.
  - intros Hp Hq. specialize (H2 m Hm). rewrite Ho', Ho0 in H2.
    assert (Some o' = Some o0) by (apply H2; tauto). congruence.
Qed.

(** *** Parents without context, and parents that do not list the object *)

Lemma indexOf_not_elem (n : nat) (l : list nat) : n ∉ l -> indexOf n l = None.
Proof.
  induction l as [|m l IH]; intros H; [reflexivity|]. simpl.
  apply not_elem_of_cons in H. destruct H as [Hne H].
  rewrite (proj2 (Nat.eqb_neq n m) Hne), (IH H). reflexivity.
Qed.

Lemma scheduleLayout_returns (c n : nat) (s : Store) (o : UIObject) (k : Context) :
  objects s !! n = Some o -> ctxs s !! c = Some k ->
  fst (_scheduleLayout c n s) = Ok tt.
Proof.
  intros Ho Hk. unfold _scheduleLayout.
  rewrite bind_run, (run_getObj _ _ _ Ho), bind_run, (run_getCtx _ _ _ Hk).
  unfold when.
  match goal with |- context [if ?b then _ else _] => destruct b end;
    [rewrite (run_modCtx _ _ _ _ Hk)|]; reflexivity.
Qed.

Lemma scheduleLayout_ctxs (c n : nat) (s : Store) (o : UIObject) (k : Context) :
  ctxs s !! c = Some k -> is_Some (ctxs (snd (_scheduleLayout c n s)) !! c).
Proof.
  intros Hk. destruct (scheduleLayout_cases c n s) as [->|H]; [eauto|].
  destruct H as (o' & k' & _ & _ & _ & _ & ->). simpl.
  rewrite lookup_insert_eq. eauto.
Qed.

(** X8. Giving an object without parent a new parent that has no context
    (one that is not attached itself) throws a [TypeError], from the call
    of [_scheduleLayout] on the [null] context. By then the object is in
    the [children] of the new parent; its [#parent] is still [null]. *)
Theorem set_parent_without_context_throws
    (this q : nat) (s : Store) (o qo : UIObject) :
  objects s !! this = Some o -> isRoot o = false -> priv_parent o = None ->
  q <> this -> objects s !! q = Some qo -> _context qo = None ->
  set_parent this (Some q) s
  = (Throw Js.TypeError,
     set_objects
       (<[q := set_children (children qo ++ [this]) qo]>
          (<[this := set_context None o]> (objects s))) s).
Proof.
  intros Ho Hroot Hpp Hne Hqo Hctx. unfold set_parent.
  rewrite bind_run, (run_getObj _ _ _ Ho), Hroot, Hpp.
  rewrite bool_decide_eq_false_2 by discriminate.
  unfold leave_parent, enter_parent.
  rewrite bind_run. cbn [ret mret M_ret]. 
  rewrite bind_run, (run_getObj _ _ _ Hqo), Hctx.
  rewrite bind_run, (run_modObj _ _ _ _ Ho).
  rewrite bind_run.
  erewrite run_modObj
    by (cbn [objects set_objects]; rewrite lookup_insert_ne by congruence; exact Hqo).
  cbn [objects set_objects].
  rewrite bind_run.
  erewrite run_getObj
    by (cbn [objects set_objects]; rewrite lookup_insert_ne by congruence;
        apply lookup_insert_eq).
  rewrite bind_run. cbn [_context set_context call_scheduleLayout throw].
  destruct s. reflexivity.
Qed.

(** X9. When the [#parent] of an object does not list the object,
    detaching the object removes the last child of that parent instead:
    [indexOf] is -1, and [splice(-1, 1)] removes the last element. *)
Theorem set_parent_removes_last_sibling
    (this p c : nat) (s : Store) (o po : UIObject) (k : Context) :
  objects s !! this = Some o -> isRoot o = false -> priv_parent o = Some p ->
  p <> this -> objects s !! p = Some po -> this ∉ children po ->
  _context po = Some c -> ctxs s !! c = Some k ->
  exists s' o' po',
    set_parent this None s = (Ok tt, s')
    /\ objects s' !! this = Some o' /\ parent o' = None /\ _context o' = None
    /\ objects s' !! p = Some po'
    /\ children po' = removelast (children po).
Proof.
  intros Ho Hroot Hpp Hne Hpo Hnot Hc Hk. unfold set_parent.
  rewrite bind_run, (run_getObj _ _ _ Ho), Hroot, Hpp.
  rewrite bool_decide_eq_false_2 by discriminate.
  unfold leave_parent, enter_parent.
  rewrite bind_run, bind_run, (run_getObj _ _ _ Hpo).
  rewrite bind_run, (run_modObj _ _ _ _ Hpo).
  rewrite bind_run, (run_getObj _ _ _ (lookup_insert_eq _ _ _)).
  cbn [_context set_children]. rewrite Hc. cbn [call_scheduleLayout].
  unfold splice_indexOf. rewrite (indexOf_not_elem _ _ Hnot).
  match goal with |- context [_scheduleLayout c p ?s1] => set (s1' := s1) end.
  assert (objects s1' !! p = Some (set_children (removelast (children po)) po)) as Hp1
    by apply lookup_insert_eq.
  pose proof (scheduleLayout_returns c p s1' _ k Hp1 Hk) as Hret.
  pose proof (scheduleLayout_objects c p s1') as Hobj.
  destruct (_scheduleLayout c p s1') as [r s2]. simpl in Hret, Hobj. subst r.
  assert (objects s2 !! this = Some o) as Ho2.
  { rewrite Hobj. unfold s1'. cbn [objects set_objects].
    rewrite lookup_insert_ne by congruence. exact Ho. }
  rewrite bind_run, (run_modObj _ _ _ _ Ho2).
  erewrite run_modObj by (cbn [objects set_objects]; apply lookup_insert_eq).
  eexists _, _, _. split; [reflexivity|]. cbn [objects set_objects].
  split; [apply lookup_insert_eq|].
  split; [unfold parent; simpl; destruct (isRoot o); reflexivity|].
  split; [reflexivity|].
  split.
  - rewrite !lookup_insert_ne by congruence. rewrite Hobj. exact Hp1.
  - reflexivity.
Qed.

(** *** Cycles

    A loop does not end normally when one of its iterations cannot. *)
Lemma for_of_fails {A} (I : Store -> Prop) (l : list A) (f : A -> M unit) (a : A) :
  a ∈ l ->
  (forall b s, I s -> I (snd (f b s))) ->
  (forall s, I s -> fst (f a s) <> Ok tt) ->
  forall s, I s -> fst (for_of l f s) <> Ok tt.
Proof.
  intros Ha Hkeep Hfail. induction l as [|b l IH]; intros s Hs.
  - apply elem_of_nil in Ha. contradiction.
  - simpl. rewrite bind_run.
    pose proof (Hkeep b s Hs) as Hb.
    apply elem_of_cons in Ha. destruct Ha as [<-|Ha].
    + pose proof (Hfail s Hs) as Hf.
      destruct (f a s) as [[[]|e|r] s1]; simpl in *; congruence.
    + destruct (f b s) as [[[]|e|r] s1]; simpl in *; try discriminate.
      apply IH; assumption.
Qed.

Lemma computed_only_refl (s : Store) : computed_only s s.
Proof. repeat split. Qed.

Lemma computed_only_sym (s s' : Store) : computed_only s s' -> computed_only s' s.
Proof. intros (H1 & H2 & H3 & H4). repeat split; auto. Qed.

Lemma computed_only_trans (s1 s2 s3 : Store) :
  computed_only s1 s2 -> computed_only s2 s3 -> computed_only s1 s3.
Proof.
  intros (H1 & H2 & H3 & H4) (K1 & K2 & K3 & K4).
  split; [congruence|]. split; [congruence|]. split; [congruence|].
  intros m. rewrite K4. apply H4.
Qed.

Lemma lays_out_first (s : Store) (a b : nat) :
  lays_out s a b ->
  a = b
  \/ exists ao d do,
       objects s !! a = Some ao /\ d ∈ children ao
       /\ objects s !! d = Some do /\ visible do = true /\ lays_out s d b.
Proof.
  intros H. induction H as [|p po c co Hap IH Hp Hin Hco Hv]; [left; reflexivity|].
  right. destruct IH as [->|(ao & d & do & Ha & Hd & Hdo & Hdv & Hdp)].
  - exists po, c, co. repeat split; try assumption. constructor.
  - exists ao, d, do. repeat split; try assumption.
    eapply lays_out_child; eassumption.
Qed.

Lemma lays_out_itself_next (s : Store) (n : nat) (o : UIObject) (c : nat)
    (co : UIObject) :
  objects s !! n = Some o -> c ∈ children o -> objects s !! c = Some co ->
  visible co = true -> lays_out s c n -> lays_out_itself s c.
Proof.
  intros Ho Hin Hco Hv Hcn.
  destruct (lays_out_first _ _ _ Hcn) as [->|(ao & d & do & Ha & Hd & Hdo & Hdv & Hdn)].
  - exists o, n, co. repeat split; assumption.
  - exists ao, d, do. repeat split; try assumption.
    apply (lays_out_child s d n o c co); assumption.
Qed.

Lemma layout_cycle_fails (fuel : nat) :
  forall fn this up ucp s,
    lays_out_itself s this -> fst (layout fuel fn this up ucp s) <> Ok tt.
Proof.
  induction fuel as [|fuel IH]; intros fn this up ucp s Hs; [discriminate|].
  assert (forall up' s1, computed_only s s1 ->
            fst ((o ← getObj this;
                  for_of (children o)
                    (fun child =>
                       co ← getObj child;
                       if visible co then layout fuel (layoutFn co) child up' None
                       else ret tt)) s1) <> Ok tt) as Hloop.
  { intros up' s1 Hs1. destruct Hs as (o & c & co & Ho & Hin & Hco & Hv & Hcn).
    destruct (computed_only_lookup _ _ this o (computed_only_sym _ _ Hs1) Ho)
      as (o1 & Ho1 & E1).
    rewrite bind_run, (run_getObj _ _ _ Ho1).
    rewrite <- (erase_computed_children _ _ E1).
    apply (for_of_fails (computed_only s) _ _ c Hin); [| |exact Hs1].
    - intros b s2 Hs2. eapply computed_only_trans; [exact Hs2|].
      rewrite snd_bind.
      destruct (getObj b s2) as [r s3] eqn:E. apply getObj_inv in E.
      destruct E as [-> [[-> _] | (bo & -> & Hbo)]]; [apply computed_only_refl|].
      destruct (visible bo); [|apply computed_only_refl].
      apply layout_subtree.
    - intros s2 Hs2.
      pose proof (computed_only_sym _ _ Hs2) as Hs2'.
      destruct (computed_only_lookup _ _ c co Hs2' Hco) as (co2 & Hco2 & E2).
      destruct (computed_only_lookup _ _ this o Hs2' Ho) as (o2 & Ho2 & E3).
      rewrite bind_run, (run_getObj _ _ _ Hco2).
      rewrite <- (erase_computed_visible _ _ E2), Hv.
      apply IH.
      apply (lays_out_itself_next s2 this o2 c co2); try assumption.
      + rewrite <- (erase_computed_children _ _ E3). exact Hin.
      + rewrite <- (erase_computed_visible _ _ E2). exact Hv.
      + eapply lays_out_computed_only; [exact Hs2'|exact Hcn]. }
  destruct fn; simpl.
  - rewrite bind_run.
    pose proof (layout_own_touches this up s) as [H1 _].
    destruct (layout_own this up s) as [[[]|e|r] s1]; simpl in H1; try discriminate.
    apply Hloop. exact H1.
  - apply IH. exact Hs.
  - rewrite bind_run.
    pose proof (layout_root_own_touches this s) as [H1 _].
    destruct (layout_root_own this s) as [[[]|e|r] s1]; simpl in H1; try discriminate.
    apply Hloop. exact H1.
Qed.

(** X10. The layout of an object that is laid out again by one of its own
    visible children (the setter of [parent] does not refuse a descendant,
    or the object itself, as the new parent) does not end normally,
    whatever the fuel: the recursion does not end. *)
Theorem layout_on_a_cycle_never_returns
    (fuel : nat) (this : nat) (updatePosition : bool) (s : Store) :
  lays_out_itself s this ->
  fst (call_layout fuel this updatePosition s) <> Ok tt.
Proof.
  intros Hs. pose proof Hs as (o & _ & _ & Ho & _).
  unfold call_layout. rewrite bind_run, (run_getObj _ _ _ Ho).
  apply layout_cycle_fails. exact Hs.
Qed.

(** *** What a frame keeps *)

Lemma structure_kept_refl (s : Store) : structure_kept s s.
Proof. repeat split. Qed.

Lemma structure_kept_trans (s1 s2 s3 : Store) :
  structure_kept s1 s2 -> structure_kept s2 s3 -> structure_kept s1 s3.
Proof.
  intros (H1 & H2 & H3) (K1 & K2 & K3). split; [congruence|]. split.
  - intros c. rewrite K2. apply H2.
  - intros m. rewrite K3. apply H3.
Qed.

Lemma sweeps_refl (s : Store) : sweeps s s.
Proof. split; [apply structure_kept_refl|]. split; auto. Qed.

Lemma sweeps_trans (s1 s2 s3 : Store) : sweeps s1 s2 -> sweeps s2 s3 -> sweeps s1 s3.
Proof.
  intros (H1 & H2 & H3) (K1 & K2 & K3).
  split; [eapply structure_kept_trans; eassumption|]. split.
  - intros c m Hm. apply K2, H2, Hm.
  - intros m. rewrite K3. apply H3.
Qed.

Lemma trace_only_refl (s : Store) : trace_only s s.
Proof. repeat split. Qed.

Lemma trace_only_trans (s1 s2 s3 : Store) :
  trace_only s1 s2 -> trace_only s2 s3 -> trace_only s1 s3.
Proof. intros (H1 & H2 & H3) (K1 & K2 & K3). repeat split; congruence. Qed.

Lemma trace_only_structure_kept (s s' : Store) : trace_only s s' -> structure_kept s s'.
Proof. intros (H1 & H2 & H3). unfold structure_kept. rewrite H1, H2, H3. auto. Qed.

Lemma erase_cached_computed (o o' : UIObject) :
  erase_computed o' = erase_computed o -> erase_cached o' = erase_cached o.
Proof.
  intros E. unfold erase_cached. rewrite E.
  assert (_styleTriggersLayout o' = _styleTriggersLayout o) as ->
    by exact (f_equal _styleTriggersLayout E).
  reflexivity.
Qed.

Lemma computed_only_structure_kept (s s' : Store) :
  computed_only s s' -> structure_kept s s'.
Proof.
  intros (H1 & H2 & _ & H4). split; [exact H2|]. split; [rewrite H1; auto|].
  intros m. specialize (H4 m).
  destruct (objects s' !! m) as [o'|], (objects s !! m) as [o|];
    try discriminate H4; [|reflexivity].
  simpl. f_equal. apply erase_cached_computed. simpl in H4. congruence.
Qed.

Lemma keeps_sweeps_emit (e : event) : keeps sweeps (emit e).
Proof. intros s. split; [split; [|split]|split]; simpl; auto. Qed.

Lemma keeps_sweeps_refresh (n : nat) (cs : UIStyle) :
  keeps sweeps
    (modObj n (fun o => set_styleTriggersLayout (refresh cs (_styleTriggersLayout o)) o)).
Proof.
  intros s. unfold modObj.
  destruct (objects s !! n) as [o|] eqn:Ho; simpl; [|apply sweeps_refl].
  split; [split; [reflexivity|split; [reflexivity|]]|split; [auto|]]; simpl.
  - intros m. destruct (decide (n = m)) as [<-|Hne].
    + rewrite lookup_insert_eq, Ho. simpl. f_equal.
      unfold erase_cached, refresh. simpl. rewrite map_map. reflexivity.
    + rewrite lookup_insert_ne by assumption. reflexivity.
  - intros m. destruct (decide (n = m)) as [<-|Hne].
    + rewrite lookup_insert_eq, Ho. reflexivity.
    + rewrite lookup_insert_ne by assumption. reflexivity.
Qed.

Lemma keeps_sweeps_call_scheduleLayout (ctx : option nat) (n : nat) :
  keeps sweeps (call_scheduleLayout ctx n).
Proof.
  destruct ctx as [c|]; simpl; [|apply keeps_throw; apply sweeps_refl].
  intros s. destruct (scheduleLayout_cases c n s) as [->|H]; [apply sweeps_refl|].
  destruct H as (o & k & Ho & Hk & _ & _ & ->).
  split; [split; [reflexivity|split; [|reflexivity]]|split; [|reflexivity]]; simpl.
  - intros c'. destruct (decide (c = c')) as [<-|Hne].
    + rewrite lookup_insert_eq, Hk. reflexivity.
    + rewrite lookup_insert_ne by assumption. reflexivity.
  - intros c' m Hm. unfold relayout_of in *. simpl.
    destruct (decide (c = c')) as [<-|Hne].
    + rewrite lookup_insert_eq. rewrite Hk in Hm. simpl. apply elem_of_app. auto.
    + rewrite lookup_insert_ne by assumption. exact Hm.
Qed.

Ltac keeps_sweeps :=
  repeat first
    [ apply keeps_bind; [apply sweeps_trans | | intros ?]
    | apply keeps_getObj; apply sweeps_refl
    | apply keeps_ret; apply sweeps_refl
    | apply keeps_abort; apply sweeps_refl
    | apply keeps_when; [apply sweeps_refl|]
    | apply keeps_sweeps_emit
    | apply keeps_sweeps_refresh
    | apply keeps_sweeps_call_scheduleLayout ].

Lemma sweep_sweeps (fuel : nat) :
  forall r, keeps sweeps (iterativeCheckForStyleChanges fuel r).
Proof.
  induction fuel as [|fuel IH]; intros r; simpl; keeps_sweeps.
  match goal with |- context [visibleOnScreen ?o] => destruct (visibleOnScreen o) end;
    keeps_sweeps;
    apply keeps_for_of; [apply sweeps_refl | apply sweeps_trans | exact IH
                        | apply sweeps_refl | apply sweeps_trans | exact IH].
Qed.

Lemma keeps_trace_only_emit (e : event) : keeps trace_only (emit e).
Proof. intros s. repeat split. Qed.

Ltac keeps_trace_only :=
  repeat first
    [ apply keeps_bind; [apply trace_only_trans | | intros ?]
    | apply keeps_getObj; apply trace_only_refl
    | apply keeps_ret; apply trace_only_refl
    | apply keeps_abort; apply trace_only_refl
    | apply keeps_trace_only_emit ].

Lemma with_zIndex_trace_only (l : list nat) : keeps trace_only (with_zIndex l).
Proof. induction l as [|c l IH]; simpl; keeps_trace_only. exact IH. Qed.

Lemma draw_trace_only (fuel : nat) :
  forall r, keeps trace_only (iterativeDraw fuel r).
Proof.
  induction fuel as [|fuel IH]; intros r; simpl.
  - apply keeps_abort. apply trace_only_refl.
  - apply keeps_bind; [apply trace_only_trans | apply keeps_trace_only_emit | intros _].
    apply keeps_bind; [apply trace_only_trans | apply keeps_getObj; apply trace_only_refl
                      | intros o].
    assert (keeps trace_only (cs ← sorted_children o; for_of cs (iterativeDraw fuel))) as K.
    { apply keeps_bind; [apply trace_only_trans | | intros cs].
      - unfold sorted_children.
        apply keeps_bind; [apply trace_only_trans | apply with_zIndex_trace_only | intros zs].
        apply keeps_ret. apply trace_only_refl.
      - apply keeps_for_of; [apply trace_only_refl | apply trace_only_trans | exact IH]. }
    destruct (visible o); [|apply keeps_ret; apply trace_only_refl].
    destruct (visibleOnScreen o).
    + apply keeps_bind; [apply trace_only_trans | apply keeps_trace_only_emit | intros _].
      exact K.
    + destruct (clipsDescendants o); simpl; [apply keeps_ret; apply trace_only_refl|].
      exact K.
Qed.

Lemma keeps_weaken {A} (R Q : Store -> Store -> Prop) (m : M A) :
  (forall s s', R s s' -> Q s s') -> keeps R m -> keeps Q m.
Proof. intros HRQ Hm s. apply HRQ, Hm. Qed.

Lemma call_layout_computed_only (fuel : nat) (object : nat) (up : bool) :
  keeps computed_only (call_layout fuel object up).
Proof.
  intros s. unfold call_layout. rewrite snd_bind.
  destruct (getObj object s) as [r s1] eqn:E. apply getObj_inv in E.
  destruct E as [-> [[-> _] | (o & -> & Ho)]]; [apply computed_only_refl|].
  apply layout_subtree.
Qed.

Lemma keeps_structure_modCtx (c : nat) (f : Context -> Context) :
  (forall k, root (f k) = root k /\ csize (f k) = csize k) ->
  keeps structure_kept (modCtx c f).
Proof.
  intros Hf s. unfold modCtx.
  destruct (ctxs s !! c) as [k|] eqn:Hk; simpl; [|apply structure_kept_refl].
  split; [reflexivity|]. split; [|reflexivity]. simpl.
  intros c'. destruct (decide (c = c')) as [<-|Hne].
  - rewrite lookup_insert_eq, Hk. simpl. destruct (Hf k) as [-> ->]. reflexivity.
  - rewrite lookup_insert_ne by assumption. reflexivity.
Qed.

Lemma update_context_structure_kept (fuel : nat) (id : nat) :
  keeps structure_kept (update_context fuel id).
Proof.
  unfold update_context.
  apply keeps_bind;
    [apply structure_kept_trans | apply keeps_getCtx; apply structure_kept_refl | intros k].
  destruct (root k) as [r|]; [|apply keeps_throw; apply structure_kept_refl].
  apply keeps_bind; [apply structure_kept_trans | | intros _].
  { eapply keeps_weaken; [|apply sweep_sweeps]. intros s s' H. apply H. }
  apply keeps_bind;
    [apply structure_kept_trans | apply keeps_getCtx; apply structure_kept_refl | intros k1].
  apply keeps_bind; [apply structure_kept_trans | | intros _].
  { apply keeps_for_of; [apply structure_kept_refl | apply structure_kept_trans |].
    intros object. eapply keeps_weaken; [|apply call_layout_computed_only].
    apply computed_only_structure_kept. }
  apply keeps_bind; [apply structure_kept_trans | | intros _].
  { eapply keeps_weaken; [|apply draw_trace_only]. apply trace_only_structure_kept. }
  apply keeps_structure_modCtx. intros k'. split; reflexivity.
Qed.

(** X11. Whatever its outcome, [update] writes nothing but computed layout
    fields, caches of style values and relayout lists: the map of the
    running contexts, the root and the size of every context, and in
    every object what user code has set (parent, children, context,
    geometry, visibility, styles, z-index) are the same after the frame. *)
Theorem update_keeps_what_user_code_set (fuel : nat) (s : Store) :
  let s' := snd (update fuel s) in
  contexts s' = contexts s
  /\ (forall c, (fun k => (root k, csize k)) <$> (ctxs s' !! c)
                = (fun k => (root k, csize k)) <$> (ctxs s !! c))
  /\ (forall m, erase_cached <$> (objects s' !! m) = erase_cached <$> (objects s !! m)).
Proof.
  cbv zeta. unfold update.
  apply (keeps_for_of structure_kept structure_kept_refl structure_kept_trans).
  intros id. apply update_context_structure_kept.
Qed.

Lemma parentless_computed_only (n : nat) (s s' : Store) :
  computed_only s s' -> parentless n s -> parentless n s'.
Proof.
  intros Hc (o & Ho & Hp & Hfn).
  destruct (computed_only_lookup _ _ n o (computed_only_sym _ _ Hc) Ho) as (o' & Ho' & E).
  exists o'. split; [exact Ho'|].
  assert (priv_parent o = priv_parent o') as Epp by exact (f_equal priv_parent E).
  assert (isRoot o = isRoot o') as Er by exact (f_equal isRoot E).
  assert (layoutFn o = layoutFn o') as Ef by exact (f_equal layoutFn E).
  unfold parent in *. rewrite <- Epp, <- Er, <- Ef. auto.
Qed.

Lemma layout_parentless_fails (fuel : nat) (n : nat) (up : bool) (s : Store) :
  parentless n s -> fst (call_layout fuel n up s) <> Ok tt.
Proof.
  intros (o & Ho & Hp & Hfn). unfold call_layout.
  rewrite bind_run, (run_getObj _ _ _ Ho).
  assert (forall f ucp, fst (layout f LDefault n up ucp s) <> Ok tt) as Hd.
  { intros [|f] ucp; [discriminate|]. simpl. rewrite bind_run. unfold layout_own.
    rewrite bind_run, (run_getObj _ _ _ Ho), Hp. discriminate. }
  destruct (layoutFn o); [apply Hd | | congruence].
  destruct fuel as [|fuel]; [discriminate|]. simpl. apply Hd.
Qed.

(** X12. The frame of a context whose relayout list holds an object without
    parent (an object that was scheduled and then detached stays in the
    list) does not end normally: the layout of that object reads the
    absolute size of its parent, which is [null]. *)
Theorem update_with_parentless_object_in_relayout
    (fuel : nat) (c : nat) (s : Store) (k : Context) (n : nat) (o : UIObject) :
  ctxs s !! c = Some k -> n ∈ relayout k ->
  objects s !! n = Some o -> parent o = None -> layoutFn o <> LRoot ->
  fst (update_context fuel c s) <> Ok tt.
Proof.
  intros Hk Hn Ho Hp Hfn. unfold update_context.
  rewrite bind_run, (run_getCtx _ _ _ Hk).
  destruct (root k) as [r|]; [|discriminate].
  rewrite bind_run.
  pose proof (sweep_sweeps fuel r s) as (_ & Hgrow & Hobj).
  destruct (iterativeCheckForStyleChanges fuel r s) as [[[]|e|a] s1];
    simpl in Hgrow, Hobj; try discriminate.
  specialize (Hgrow c n). unfold relayout_of in Hgrow. rewrite Hk in Hgrow.
  specialize (Hgrow Hn).
  rewrite bind_run.
  destruct (ctxs s1 !! c) as [k1|] eqn:Hk1; [|apply elem_of_nil in Hgrow; contradiction].
  rewrite (run_getCtx _ _ _ Hk1). rewrite bind_run.
  assert (parentless n s1) as Hd.
  { specialize (Hobj n). rewrite Ho in Hobj.
    destruct (objects s1 !! n) as [o1|] eqn:Ho1; [|discriminate Hobj].
    assert (set_styleTriggersLayout [] o1 = set_styleTriggersLayout [] o) as E
      by (simpl in Hobj; congruence).
    exists o1. split; [exact Ho1|].
    assert (priv_parent o1 = priv_parent o) as Epp by exact (f_equal priv_parent E).
    assert (isRoot o1 = isRoot o) as Er by exact (f_equal isRoot E).
    assert (layoutFn o1 = layoutFn o) as Ef by exact (f_equal layoutFn E).
    unfold parent in *. rewrite Epp, Er, Ef. auto. }
  pose proof (for_of_fails (parentless n) (relayout k1)
                (fun object => call_layout fuel object true) n Hgrow) as Hfail.
  match goal with
  | |- context [for_of ?l ?f s1] =>
      destruct (for_of l f s1) as [[[]|e|a] s2] eqn:E
  end; try discriminate.
  exfalso. apply (Hfail) with (s := s1).
  - intros b s0 Hs0. eapply parentless_computed_only; [|exact Hs0].
    apply call_layout_computed_only.
  - intros s0 Hs0. apply layout_parentless_fails. exact Hs0.
  - exact Hd.
  - rewrite E. reflexivity.
Qed.

(** *** Children by name, and the lifecycle of a context *)

Lemma find_named_spec (wanted : string) (s : Store) (l : list nat) :
  (forall c, c ∈ l -> is_Some (objects s !! c)) ->
  exists r,
    find_named wanted l s = (Ok r, s)
    /\ match r with
       | Some c =>
           exists pre post co,
             l = pre ++ c :: post /\ objects s !! c = Some co /\ name co = wanted
             /\ forall d do, d ∈ pre -> objects s !! d = Some do -> name do <> wanted
       | None =>
           forall d do, d ∈ l -> objects s !! d = Some do -> name do <> wanted
       end.
Proof.
  induction l as [|c l IH]; intros Hl.
  - exists None. split; [reflexivity|]. intros d do Hd. apply elem_of_nil in Hd.
    contradiction.
  - destruct (Hl c (list_elem_of_here _ _)) as [co Hco]. simpl.
    rewrite bind_run, (run_getObj _ _ _ Hco).
    destruct (bool_decide (name co = wanted)) eqn:E.
    + apply bool_decide_eq_true_1 in E. exists (Some c). split; [reflexivity|].
      exists [], l, co. repeat split; try assumption.
      intros d do Hd. apply elem_of_nil in Hd. contradiction.
    + apply bool_decide_eq_false_1 in E.
      destruct IH as (r & Hr & Hspec).
      { intros d Hd. apply Hl. apply list_elem_of_further. exact Hd. }
      exists r. split; [exact Hr|]. destruct r as [c'|].
      * destruct Hspec as (pre & post & co' & -> & Hco' & Hn & Hpre).
        exists (c :: pre), post, co'. repeat split; try assumption.
        intros d do Hd Hdo. apply elem_of_cons in Hd. destruct Hd as [->|Hd].
        -- congruence.
        -- eapply Hpre; eassumption.
      * intros d do Hd Hdo. apply elem_of_cons in Hd. destruct Hd as [->|Hd].
        -- congruence.
        -- eapply Hspec; eassumption.
Qed.

(** X13. [getChild] returns the first child, in the order of [children],
    whose name is the one asked for, and [undefined] when no child has
    this name; it leaves the store as it is. *)
Theorem getChild_returns_first_child_of_that_name
    (this : nat) (wanted : string) (s : Store) (o : UIObject) :
  objects s !! this = Some o ->
  (forall c, c ∈ children o -> is_Some (objects s !! c)) ->
  exists r,
    getChild this wanted s = (Ok r, s)
    /\ match r with
       | Some c =>
           exists pre post co,
             children o = pre ++ c :: post
             /\ objects s !! c = Some co /\ name co = wanted
             /\ forall d do, d ∈ pre -> objects s !! d = Some do -> name do <> wanted
       | None =>
           forall d do, d ∈ children o -> objects s !! d = Some do -> name do <> wanted
       end.
Proof.
  intros Ho Hl. unfold getChild. rewrite bind_run, (run_getObj _ _ _ Ho).
  apply find_named_spec. exact Hl.
Qed.

Lemma includes_app (n : nat) (l1 l2 : list nat) :
  includes n (l1 ++ l2) = includes n l1 || includes n l2.
Proof. unfold includes. apply existsb_app. Qed.

Lemma includes_filter_ne (n c : nat) (l : list nat) :
  includes n (filter (fun d => d ≠ c) l) = includes n l && negb (Nat.eqb n c).
Proof.
  induction l as [|m l IH]; [reflexivity|].
  rewrite filter_cons. change (includes n (m :: l)) with (Nat.eqb n m || includes n l).
  destruct (decide (m ≠ c)) as [Hne|Heq].
  - change (includes n (m :: ?t)) with (Nat.eqb n m || includes n t). rewrite IH.
    destruct (Nat.eqb n m) eqn:E1; [|reflexivity]. simpl.
    apply Nat.eqb_eq in E1. subst m.
    rewrite (proj2 (Nat.eqb_neq n c) Hne). reflexivity.
  - assert (m = c) as -> by (destruct (decide (m = c)); [assumption|contradiction]).
    rewrite IH. destruct (Nat.eqb n c); simpl; [|reflexivity].
    rewrite !andb_false_r. reflexivity.
Qed.

(** X14. After [start] the context is running, and a second [start] changes
    nothing; [stop] returns whether the context was running, and after it
    the context is not running; neither changes whether another context
    is running, and the map of the running contexts keeps its keys
    distinct. *)
Theorem context_lifecycle (ctx : nat) (s : Store) :
  fst (running ctx (snd (start ctx s))) = Ok true
  /\ snd (start ctx (snd (start ctx s))) = snd (start ctx s)
  /\ fst (stop ctx s) = fst (running ctx s)
  /\ fst (running ctx (snd (stop ctx s))) = Ok false
  /\ (forall other, other <> ctx ->
        fst (running other (snd (start ctx s))) = fst (running other s)
        /\ fst (running other (snd (stop ctx s))) = fst (running other s))
  /\ (NoDup (contexts s) ->
        NoDup (contexts (snd (start ctx s))) /\ NoDup (contexts (snd (stop ctx s)))).
Proof.
  unfold running, start, stop. simpl.
  split; [|split; [|split; [|split; [|split]]]].
  - destruct (includes ctx (contexts s)) eqn:E; simpl; [rewrite E; reflexivity|].
    rewrite includes_app. simpl. rewrite Nat.eqb_refl, orb_true_r. reflexivity.
  - destruct (includes ctx (contexts s)) eqn:E; simpl; [rewrite E; reflexivity|].
    rewrite includes_app. simpl. rewrite Nat.eqb_refl, orb_true_r. reflexivity.
  - reflexivity.
  - rewrite includes_filter_ne, Nat.eqb_refl, andb_false_r. reflexivity.
  - intros other Hne. split.
    + destruct (includes ctx (contexts s)); simpl; [reflexivity|].
      rewrite includes_app. simpl.
      rewrite (proj2 (Nat.eqb_neq other ctx) Hne). simpl. rewrite orb_false_r.
      reflexivity.
    + rewrite includes_filter_ne, (proj2 (Nat.eqb_neq other ctx) Hne), andb_true_r.
      reflexivity.
  - intros Hd. split.
    + destruct (includes ctx (contexts s)) eqn:E; simpl; [exact Hd|].
      apply NoDup_app. split; [exact Hd|]. split; [|apply NoDup_singleton].
      intros x Hx Hx'. apply list_elem_of_singleton in Hx'. subst x.
      apply not_includes_elem in E. contradiction.
    + apply NoDup_filter. exact Hd.
Qed.

Lemma cleanup_run (ctx : nat) (s : Store) (k : Context) :
  ctxs s !! ctx = Some k ->
  cleanup ctx s
  = match root k with
    | Some _ =>
        (Ok tt,
         set_ctxs (<[ctx := mkContext [] None (csize k)]> (ctxs s))
           (set_contexts (filter (fun c => c ≠ ctx) (contexts s)) s))
    | None =>
        (Throw Js.TypeError, set_contexts (filter (fun c => c ≠ ctx) (contexts s)) s)
    end.
Proof.
  intros Hk. unfold cleanup. rewrite bind_run. unfold stop at 1. cbv beta iota.
  rewrite bind_run. erewrite run_getCtx by exact Hk.
  destruct (root k); [|reflexivity].
  erewrite run_modCtx by exact Hk. reflexivity.
Qed.

(** X15. [cleanup] of a context that has its root ends normally: the context
    is not running, its relayout list is empty, its root is [null], and the
    objects are as before. After it a second [cleanup], an assignment to
    [size], and a frame of the context, should it be started again, each
    throw a [TypeError]. *)
Theorem cleanup_leaves_a_dead_context
    (ctx : nat) (s : Store) (k : Context) (r : nat) :
  ctxs s !! ctx = Some k -> root k = Some r ->
  exists s',
    cleanup ctx s = (Ok tt, s')
    /\ ctxs s' !! ctx = Some (mkContext [] None (csize k))
    /\ fst (running ctx s') = Ok false
    /\ objects s' = objects s
    /\ fst (cleanup ctx s') = Throw Js.TypeError
    /\ (forall v, fst (assign_size ctx v s') = Throw Js.TypeError)
    /\ (forall fuel, fst (update_context fuel ctx (snd (start ctx s')))
                     = Throw Js.TypeError).
Proof.
  intros Hk Hr. rewrite (cleanup_run _ _ _ Hk), Hr.
  eexists. split; [reflexivity|].
  match goal with |- ctxs ?s0 !! ctx = _ /\ _ => set (s2 := s0) end.
  assert (ctxs s2 !! ctx = Some (mkContext [] None (csize k))) as Hk2
    by apply lookup_insert_eq.
  split; [exact Hk2|].
  split.
  { unfold running, s2. simpl.
    rewrite includes_filter_ne, Nat.eqb_refl, andb_false_r. reflexivity. }
  split; [reflexivity|].
  split; [rewrite (cleanup_run _ _ _ Hk2); reflexivity|].
  split.
  { intros v. unfold assign_size.
    rewrite bind_run, (run_modCtx _ _ _ _ Hk2).
    rewrite bind_run. erewrite run_getCtx by apply lookup_insert_eq. reflexivity. }
  intros fuel. unfold update_context. rewrite bind_run.
  assert (ctxs (snd (start ctx s2)) !! ctx
          = Some (mkContext [] None (csize k))) as Hk3.
  { unfold start. simpl. destruct (includes ctx _); exact Hk2. }
  rewrite (run_getCtx _ _ _ Hk3). reflexivity.
Qed.

(** *** What the draw traversal paints *)

Lemma insert_z_perm (a : nat * float) (l : list (nat * float)) :
  insert_z a l ≡ₚ a :: l.
Proof.
  induction l as [|b l IH]; simpl; [reflexivity|].
  destruct (PrimFloat.ltb (snd a - snd b) 0); [reflexivity|].
  rewrite IH. apply perm_swap.
Qed.

Lemma sort_z_perm (l : list (nat * float)) : sort_z l ≡ₚ l.
Proof.
  unfold sort_z.
  assert (forall acc, fold_left (fun sorted a => insert_z a sorted) l acc ≡ₚ l ++ acc) as H.
  { induction l as [|a l IH]; intros acc; simpl; [reflexivity|].
    rewrite IH, insert_z_perm. symmetry. apply Permutation_middle. }
  rewrite H. rewrite app_nil_r. reflexivity.
Qed.

Lemma sorted_children_perm (o : UIObject) (s s' : Store) (cs : list nat) :
  sorted_children o s = (Ok cs, s') -> s' = s /\ cs ≡ₚ children o.
Proof.
  unfold sorted_children. rewrite bind_run.
  destruct (with_zIndex (children o) s) as [res s1] eqn:E.
  destruct (with_zIndex_inv _ _ _ _ E) as [-> Hzs].
  destruct res as [zs|e|a]; intros [= <- <-]. split; [reflexivity|].
  rewrite <- (Hzs zs eq_refl). apply fmap_Permutation. apply sort_z_perm.
Qed.

Lemma reach_objects (s s' : Store) (r n : nat) :
  objects s' = objects s -> reach s r n -> reach s' r n.
Proof.
  intros E H. induction H as [|p po c _ IH Hpo Hd Hc]; [constructor|].
  eapply reach_child; [exact IH | rewrite E; exact Hpo | exact Hd | exact Hc].
Qed.

Lemma paintable_objects (s s' : Store) (r n : nat) :
  objects s' = objects s -> paintable s r n -> paintable s' r n.
Proof.
  intros E [Hr (o & Ho & Hv)]. split; [eapply reach_objects; eassumption|].
  exists o. rewrite E. auto.
Qed.

Lemma reach_first (s : Store) (r n : nat) :
  reach s r n ->
  n = r
  \/ exists ro c, objects s !! r = Some ro /\ descends ro = true
                  /\ c ∈ children ro /\ reach s c n.
Proof.
  intros H. induction H as [|p po c Hrp IH Hpo Hd Hc]; [left; reflexivity|].
  right. destruct IH as [->|(ro & d & Hro & Hrd & Hdc & Hdp)].
  - exists po, c. repeat split; try assumption. constructor.
  - exists ro, d. repeat split; try assumption.
    eapply reach_child; eassumption.
Qed.

Lemma draw_loop_paints (f : nat -> M unit) (l : list nat) :
  (forall c s s', f c s = (Ok tt, s') -> draws c s s') ->
  forall s s', for_of l f s = (Ok tt, s') ->
    objects s' = objects s
    /\ exists evs, trace s' = trace s ++ evs
                   /\ forall n, EvPaint n ∈ evs <-> exists c, c ∈ l /\ paintable s c n.
Proof.
  intros Hf. induction l as [|c l IH]; intros s s' H; simpl in H.
  - injection H as <-. split; [reflexivity|]. exists []. split.
    + symmetry. apply app_nil_r.
    + intros n. split.
      * intros Hn. apply elem_of_nil in Hn. contradiction.
      * intros (c & Hc & _). apply elem_of_nil in Hc. contradiction.
  - rewrite bind_run in H.
    destruct (f c s) as [[[]|e|a] s1] eqn:E; try discriminate H.
    destruct (Hf _ _ _ E) as (Ho1 & ev1 & T1 & P1).
    destruct (IH _ _ H) as (Ho2 & ev2 & T2 & P2).
    split; [congruence|]. exists (ev1 ++ ev2).
    split; [rewrite T2, T1; symmetry; apply app_assoc|].
    intros n. rewrite elem_of_app, P1, P2. split.
    + intros [Hn|(d & Hd & Hn)].
      * exists c. split; [apply list_elem_of_here | exact Hn].
      * exists d. split; [apply list_elem_of_further; exact Hd|].
        eapply paintable_objects; [|exact Hn]. congruence.
    + intros (d & Hd & Hn). apply elem_of_cons in Hd. destruct Hd as [->|Hd].
      * left. exact Hn.
      * right. exists d. split; [exact Hd|].
        eapply paintable_objects; [|exact Hn]. congruence.
Qed.

Lemma draw_draws (fuel : nat) :
  forall r s s', iterativeDraw fuel r s = (Ok tt, s') -> draws r s s'.
Proof.
  induction fuel as [|fuel IH]; intros r s s' H; [discriminate H|]. simpl in H.
  rewrite bind_run in H. unfold emit at 1 in H. cbv beta iota in H.
  set (s1 := set_trace (trace s ++ [EvDraw r]) s) in H.
  rewrite bind_run in H.
  destruct (getObj r s1) as [res s2] eqn:E. apply getObj_inv in E.
  destruct E as [-> [[-> _] | (o & -> & Ho)]]; [discriminate H|].
  change (objects s1) with (objects s) in Ho.
  assert (forall s0 s0', objects s0 = objects s ->
            (cs ← sorted_children o; for_of cs (iterativeDraw fuel)) s0 = (Ok tt, s0') ->
            objects s0' = objects s
            /\ exists evs, trace s0' = trace s0 ++ evs
                 /\ forall n, EvPaint n ∈ evs
                              <-> exists c, c ∈ children o /\ paintable s c n) as Hloop.
  { intros s0 s0' E0 H0. rewrite bind_run in H0.
    destruct (sorted_children o s0) as [[cs|e|a] s3] eqn:Ecs; try discriminate H0.
    destruct (sorted_children_perm _ _ _ _ Ecs) as [-> Hperm].
    destruct (draw_loop_paints _ cs IH _ _ H0) as (Hobj & evs & T & P).
    split; [congruence|]. exists evs. split; [exact T|].
    intros n. rewrite P. split; intros (c & Hc & Hn); exists c.
    - split; [rewrite <- Hperm; exact Hc|]. eapply paintable_objects; [|exact Hn].
      congruence.
    - split; [rewrite Hperm; exact Hc|]. eapply paintable_objects; [|exact Hn].
      congruence. }
  assert (forall n, (exists c, c ∈ children o /\ paintable s c n) -> descends o = true ->
                    paintable s r n) as Hdown.
  { intros n (c & Hc & Hcn & Hflags) Hd. split; [|exact Hflags].
    eapply reach_trans; [|exact Hcn]. eapply reach_children; eassumption. }
  assert (forall n, paintable s r n ->
                    (n = r /\ visible o = true /\ visibleOnScreen o = true)
                    \/ (descends o = true
                        /\ exists c, c ∈ children o /\ paintable s c n)) as Hup.
  { intros n [Hr Hflags]. destruct (reach_first _ _ _ Hr) as [->|H'].
    - left. destruct Hflags as (o' & Ho' & Hv & Hon).
      assert (o' = o) as -> by congruence. auto.
    - right. destruct H' as (ro & c & Hro & Hd & Hc & Hcn).
      assert (ro = o) as -> by congruence. split; [exact Hd|].
      exists c. split; [exact Hc|]. split; [exact Hcn | exact Hflags]. }
  unfold descends in Hdown, Hup.
  destruct (visible o) eqn:Hv.
  - destruct (visibleOnScreen o) eqn:Hon.
    + rewrite bind_run in H. unfold emit at 1 in H. cbv beta iota in H.
      set (s2 := set_trace (trace s1 ++ [EvPaint r]) s1) in H.
      destruct (Hloop s2 s' eq_refl H) as (Hobj & evs & T & P).
      split; [exact Hobj|]. exists ([EvDraw r; EvPaint r] ++ evs).
      split. { rewrite T. simpl. rewrite <- !app_assoc. reflexivity. }
      intros n. rewrite elem_of_app, P. split.
      * intros [Hn|Hn].
        -- apply elem_of_cons in Hn. destruct Hn as [Hn|Hn]; [discriminate Hn|].
           apply list_elem_of_singleton in Hn. injection Hn as ->.
           split; [constructor|]. exists o. auto.
        -- apply Hdown; [exact Hn | reflexivity].
      * intros Hn. destruct (Hup n Hn) as [(-> & _)|[_ Hc]].
        -- left. apply list_elem_of_further, list_elem_of_here.
        -- right. exact Hc.
    + destruct (clipsDescendants o) eqn:Hcl; cbn [negb] in H.
      * injection H as <-. split; [reflexivity|]. exists [EvDraw r].
        split; [reflexivity|]. intros n. split.
        -- intros Hn. apply list_elem_of_singleton in Hn. discriminate Hn.
        -- intros Hn. destruct (Hup n Hn) as [(_ & _ & Hf)|[Hf _]]; discriminate Hf.
      * destruct (Hloop s1 s' eq_refl H) as (Hobj & evs & T & P).
        split; [exact Hobj|]. exists ([EvDraw r] ++ evs).
        split. { rewrite T. simpl. rewrite <- !app_assoc. reflexivity. }
        intros n. rewrite elem_of_app, P. split.
        -- intros [Hn|Hn].
           ++ apply list_elem_of_singleton in Hn. discriminate Hn.
           ++ apply Hdown; [exact Hn | reflexivity].
        -- intros Hn. destruct (Hup n Hn) as [(_ & _ & Hf)|[_ Hc]];
             [discriminate Hf|]. right. exact Hc.
  - injection H as <-. split; [reflexivity|]. exists [EvDraw r].
    split; [reflexivity|]. intros n. split.
    + intros Hn. apply list_elem_of_singleton in Hn. discriminate Hn.
    + intros Hn. destruct (Hup n Hn) as [(_ & Hf & _)|[Hf _]]; discriminate Hf.
Qed.

Lemma for_of_returns {A} (I : Store -> Prop) (l : list A) (f : A -> M unit) :
  (forall a s, a ∈ l -> I s -> fst (f a s) = Ok tt /\ I (snd (f a s))) ->
  forall s, I s -> fst (for_of l f s) = Ok tt.
Proof.
  induction l as [|a l IH]; intros Hf s Hs; [reflexivity|]. simpl.
  rewrite bind_run.
  destruct (Hf a s (list_elem_of_here _ _) Hs) as [Hr Hi].
  destruct (f a s) as [res s1]. simpl in Hr, Hi. subst res.
  apply IH; [|exact Hi].
  intros b s0 Hb. apply Hf. apply list_elem_of_further. exact Hb.
Qed.

Lemma with_zIndex_returns (l : list nat) (s : Store) :
  Forall (fun c => is_Some (objects s !! c)) l ->
  exists zs, with_zIndex l s = (Ok zs, s).
Proof.
  induction l as [|c l IH]; intros Hl; [exists []; reflexivity|].
  apply Forall_cons in Hl. destruct Hl as [[co Hco] Hl].
  destruct (IH Hl) as (zs & Hzs). eexists. simpl.
  rewrite bind_run, (run_getObj _ _ _ Hco), bind_run, Hzs. reflexivity.
Qed.

Lemma draw_returns (rank : nat -> nat) (O : gmap nat UIObject) (fuel : nat) :
  map_Forall (fun p po => Forall (fun c => (rank p < rank c)%nat) (children po)) O ->
  map_Forall (fun p po => Forall (fun c => is_Some (O !! c)) (children po)) O ->
  forall r s,
    objects s = O -> is_Some (O !! r) ->
    (forall m, is_Some (O !! m) -> (rank m < rank r + fuel)%nat) ->
    fst (iterativeDraw fuel r s) = Ok tt.
Proof.
  intros Hrank Hex. induction fuel as [|fuel IH]; intros r s E [o Ho] Hb.
  { specialize (Hb r (ex_intro _ o Ho)). lia. }
  simpl. rewrite bind_run. unfold emit at 1. cbv beta iota.
  set (s1 := set_trace (trace s ++ [EvDraw r]) s).
  assert (objects s1 = O) as E1 by exact E.
  assert (objects s1 !! r = Some o) as Ho1 by (rewrite E1; exact Ho).
  rewrite bind_run, (run_getObj _ _ _ Ho1).
  assert (forall s0, objects s0 = O ->
            fst ((cs ← sorted_children o; for_of cs (iterativeDraw fuel)) s0) = Ok tt)
    as Hloop.
  { intros s0 E0. rewrite bind_run. unfold sorted_children. rewrite bind_run.
    destruct (with_zIndex_returns (children o) s0) as (zs & Hzs).
    { rewrite E0. exact (Hex r o Ho). }
    rewrite Hzs. cbn [ret mret M_ret].
    destruct (with_zIndex_inv _ _ _ _ Hzs) as [_ Hfst].
    apply (for_of_returns (fun s' => objects s' = O)); [|exact E0].
    intros c s2 Hc E2.
    assert (c ∈ children o) as Hc'.
    { rewrite <- (Hfst zs eq_refl). rewrite <- (sort_z_perm zs). exact Hc. }
    pose proof (Hrank r o Ho) as Hr. rewrite Forall_forall in Hr.
    pose proof (Hex r o Ho) as He. rewrite Forall_forall in He.
    split.
    - apply IH; [exact E2 | apply He; exact Hc' |].
      intros m Hm. specialize (Hb m Hm). specialize (Hr c Hc'). lia.
    - destruct (draw_trace_only fuel c s2) as [-> _]. exact E2. }
  destruct (visible o); [|reflexivity].
  destruct (visibleOnScreen o).
  - rewrite bind_run. unfold emit at 1. cbv beta iota. apply Hloop. exact E.
  - destruct (clipsDescendants o); [reflexivity|]. apply Hloop. exact E.
Qed.

(** X16. On a store whose children lists form a forest of objects that are
    all in the store, the draw traversal from [r] ends normally as soon
    as the fuel exceeds the depth of the forest; it writes to no object,
    and it paints exactly the objects that it comes to (from [r] through
    the children of objects that are visible and either on screen or not
    clipping) and that are visible and on screen. *)
Theorem draw_paints_what_is_visible_on_screen
    (rank : nat -> nat) (fuel : nat) (r : nat) (s : Store) :
  ranked rank s -> children_exist s -> is_Some (objects s !! r) ->
  (forall m, is_Some (objects s !! m) -> (rank m < rank r + fuel)%nat) ->
  fst (iterativeDraw fuel r s) = Ok tt
  /\ objects (snd (iterativeDraw fuel r s)) = objects s
  /\ forall n,
       EvPaint n ∈ new_events (iterativeDraw fuel r) s
       <-> reach s r n
           /\ exists o, objects s !! n = Some o
                        /\ visible o = true /\ visibleOnScreen o = true.
Proof.
  intros Hrank Hex Hr Hb.
  pose proof (draw_returns rank (objects s) fuel Hrank Hex r s eq_refl Hr Hb) as Hret.
  split; [exact Hret|]. unfold new_events.
  destruct (iterativeDraw fuel r s) as [res s'] eqn:E. simpl in Hret. subst res.
  destruct (draw_draws _ _ _ _ E) as (Hobj & evs & T & P).
  split; [exact Hobj|]. intros n. simpl. rewrite T, drop_app_length. apply P.
Qed.

(** *** Instances of these theorems *)

#[export] Instance children_exist_dec (s : Store) : Decision (children_exist s).
Proof. unfold children_exist. apply _. Defined.

Lemma layout_absolute_position_witness :
  exists o1,
    objects (snd (call_layout Scenario.fuel 2 true Scenario.padded_frame)) !! 2%nat
    = Some o1
    /\ x (absoluteAnchorPoint o1) = 0 * x (absoluteSize o1) + 0
    /\ y (absoluteAnchorPoint o1) = 0 * y (absoluteSize o1) + 0
    /\ x (absolutePosition o1) = 0 * 100 + 0 - x (absoluteAnchorPoint o1) + 0 + 10
    /\ y (absolutePosition o1) = 0 * 100 + 0 - y (absoluteAnchorPoint o1) + 0 + 10.
Proof.
  pose (s := Scenario.padded_frame).
  apply (layout_absolute_position (fun n => n) Scenario.fuel 2 true
           s (snd (call_layout Scenario.fuel 2 true s)) (obj s 2) 1 (obj s 1)).
  - apply (bool_decide_unpack (ranked _ _)). vm_compute. exact I.
  - vm_compute. reflexivity.
  - vm_compute. discriminate.
  - vm_compute. reflexivity.
  - discriminate.
  - vm_compute. reflexivity.
  - vm_compute. reflexivity.
Defined.

Lemma set_parent_writes_witness :
  exists o0,
    objects Scenario.family_store !! 3%nat = Some o0
    /\ obj (snd (set_parent 1 None Scenario.family_store)) 3
       = set_children (children (obj (snd (set_parent 1 None Scenario.family_store)) 3)) o0
    /\ (Some 3%nat <> Some 0%nat -> Some 3%nat <> None ->
        obj (snd (set_parent 1 None Scenario.family_store)) 3 = o0).
Proof.
  apply (set_parent_writes 1 None Scenario.family_store (obj Scenario.family_store 1)).
  - vm_compute. reflexivity.
  - discriminate.
  - vm_compute. reflexivity.
Defined.

Lemma set_parent_without_context_throws_witness :
  set_parent 2 (Some 1%nat) Scenario.two_fresh_frames_store
  = (Throw Js.TypeError,
     set_objects
       (<[1%nat := set_children ([] ++ [2%nat]) (fresh_object FrameClass)]>
          (<[2%nat := set_context None (fresh_object FrameClass)]>
             (objects Scenario.two_fresh_frames_store)))
       Scenario.two_fresh_frames_store).
Proof.
  apply (set_parent_without_context_throws 2 1 Scenario.two_fresh_frames_store
           (fresh_object FrameClass) (fresh_object FrameClass)).
  - vm_compute. reflexivity.
  - reflexivity.
  - reflexivity.
  - discriminate.
  - vm_compute. reflexivity.
  - reflexivity.
Defined.

Lemma set_parent_removes_last_sibling_witness :
  exists s' o' po',
    set_parent 1 None Scenario.failed_move_store = (Ok tt, s')
    /\ objects s' !! 1%nat = Some o' /\ parent o' = None /\ _context o' = None
    /\ objects s' !! 0%nat = Some po'
    /\ children po' = removelast [3%nat].
Proof.
  apply (set_parent_removes_last_sibling 1 0 0 Scenario.failed_move_store
           (obj Scenario.failed_move_store 1) (obj Scenario.failed_move_store 0)
           (mkContext [] (Some 0%nat) (mkVector2 800 600))).
  - vm_compute. reflexivity.
  - vm_compute. reflexivity.
  - vm_compute. reflexivity.
  - discriminate.
  - vm_compute. reflexivity.
  - apply (bool_decide_unpack (_ ∉ _)). vm_compute. exact I.
  - vm_compute. reflexivity.
  - vm_compute. reflexivity.
Defined.

Lemma layout_on_a_cycle_never_returns_witness :
  fst (call_layout Scenario.fuel 1 true Scenario.cycle_store) <> Ok tt.
Proof.
  apply (layout_on_a_cycle_never_returns Scenario.fuel 1 true Scenario.cycle_store).
  exists (obj Scenario.cycle_store 1), 2%nat, (obj Scenario.cycle_store 2).
  split; [vm_compute; reflexivity|].
  split; [apply (bool_decide_unpack (_ ∈ _)); vm_compute; exact I|].
  split; [vm_compute; reflexivity|].
  split; [vm_compute; reflexivity|].
  apply (lays_out_child Scenario.cycle_store 2 2 (obj Scenario.cycle_store 2) 1
           (obj Scenario.cycle_store 1)).
  - constructor.
  - vm_compute. reflexivity.
  - apply (bool_decide_unpack (_ ∈ _)). vm_compute. exact I.
  - vm_compute. reflexivity.
  - vm_compute. reflexivity.
Defined.

Lemma update_with_parentless_object_in_relayout_witness :
  fst (update_context Scenario.fuel 0 Scenario.resized_and_detached_store) <> Ok tt.
Proof.
  apply (update_with_parentless_object_in_relayout Scenario.fuel 0
           Scenario.resized_and_detached_store
           (mkContext [2%nat; 1%nat] (Some 0%nat) (mkVector2 800 600)) 2
           (obj Scenario.resized_and_detached_store 2)).
  - vm_compute. reflexivity.
  - apply (bool_decide_unpack (_ ∈ _)). vm_compute. exact I.
  - vm_compute. reflexivity.
  - vm_compute. reflexivity.
  - vm_compute. discriminate.
Defined.

Lemma getChild_returns_first_child_of_that_name_witness :
  exists r,
    getChild 0 "Frame" Scenario.family_store = (Ok r, Scenario.family_store)
    /\ match r with
       | Some c =>
           exists pre post co,
             children (obj Scenario.family_store 0) = pre ++ c :: post
             /\ objects Scenario.family_store !! c = Some co /\ name co = "Frame"
             /\ forall d do, d ∈ pre -> objects Scenario.family_store !! d = Some do ->
                             name do <> "Frame"
       | None =>
           forall d do, d ∈ children (obj Scenario.family_store 0) ->
                        objects Scenario.family_store !! d = Some do ->
                        name do <> "Frame"
       end.
Proof.
  apply (getChild_returns_first_child_of_that_name 0 "Frame" Scenario.family_store
           (obj Scenario.family_store 0)).
  - vm_compute. reflexivity.
  - apply Forall_forall.
    apply (bool_decide_unpack (Forall _ _)). vm_compute. exact I.
Defined.

Lemma cleanup_leaves_a_dead_context_witness :
  exists s',
    cleanup 0 Scenario.first_frame = (Ok tt, s')
    /\ ctxs s' !! 0%nat = Some (mkContext [] None (mkVector2 800 600))
    /\ fst (running 0 s') = Ok false
    /\ objects s' = objects Scenario.first_frame
    /\ fst (cleanup 0 s') = Throw Js.TypeError
    /\ (forall v, fst (assign_size 0 v s') = Throw Js.TypeError)
    /\ (forall fuel, fst (update_context fuel 0 (snd (start 0 s')))
                     = Throw Js.TypeError).
Proof.
  apply (cleanup_leaves_a_dead_context 0 Scenario.first_frame
           (mkContext [] (Some 0%nat) (mkVector2 800 600)) 0).
  - vm_compute. reflexivity.
  - reflexivity.
Defined.

Lemma draw_paints_what_is_visible_on_screen_witness :
  fst (iterativeDraw Scenario.fuel 0 Scenario.clipped) = Ok tt
  /\ objects (snd (iterativeDraw Scenario.fuel 0 Scenario.clipped))
     = objects Scenario.clipped
  /\ forall n,
       EvPaint n ∈ new_events (iterativeDraw Scenario.fuel 0) Scenario.clipped
       <-> reach Scenario.clipped 0 n
           /\ exists o, objects Scenario.clipped !! n = Some o
                        /\ visible o = true /\ visibleOnScreen o = true.
Proof.
  apply (draw_paints_what_is_visible_on_screen (fun n => n) Scenario.fuel 0
           Scenario.clipped).
  - apply (bool_decide_unpack (ranked _ _)). vm_compute. exact I.
  - apply (bool_decide_unpack (children_exist _)). vm_compute. exact I.
  - vm_compute. eauto.
  - intros m Hm.
    assert (map_Forall (fun m _ => (m < 0 + Scenario.fuel)%nat) (objects Scenario.clipped))
      as Hall by (apply (bool_decide_unpack (map_Forall _ _)); vm_compute; exact I).
    destruct Hm as [o Ho]. exact (Hall m o Ho).
Defined.

(** *** A layout that ends normally *)

Lemma last_non_null_some (v : styleval) (vs : list (option styleval)) :
  is_Some (last_non_null (Some v :: vs)).
Proof. simpl. destruct (last_non_null vs); eauto. Qed.

Lemma computedStyle_total (o : UIObject) (p : sprop) :
  is_Some (sget p (computedStyle o)).
Proof.
  unfold computedStyle. rewrite StyleFacts.sget_merge. simpl map.
  destruct p; apply last_non_null_some.
Qed.

Lemma padding_value_total (d : option styleval) (e : float) :
  is_Some d -> is_Some (padding_value d e).
Proof. intros [v ->]. destruct v; simpl; eauto. Qed.

Lemma resolve_padding_computed (o : UIObject) (p : sprop) (e : float) (s : Store) :
  exists v, resolve_padding (sget p (computedStyle o)) e s = (Ok v, s).
Proof.
  destruct (padding_value_total _ e (computedStyle_total o p)) as [v Hv].
  exists v. apply run_resolve_padding. exact Hv.
Qed.

Ltac go_padding p :=
  rewrite bind_run;
  match goal with
  | |- context [resolve_padding ?d ?e ?s] =>
      let v := fresh "v" in
      let E := fresh "E" in
      match d with
      | _ (computedStyle ?o) =>
          destruct (resolve_padding_computed o p e s) as [v E];
          change (sget p (computedStyle o)) with d in E; rewrite E; clear E
      end
  end.

Ltac go_mod :=
  rewrite bind_run;
  erewrite run_modObj by (first [eassumption | apply lookup_insert_eq]);
  cbv beta iota;
  cbn [objects ctxs contexts contextId nextObject trace set_objects set_ctxs set_trace].

Lemma layout_own_returns (this : nat) (up : bool) (s : Store) (o : UIObject)
    (p : nat) (po : UIObject) (c : nat) (k : Context) :
  objects s !! this = Some o -> parent o = Some p -> objects s !! p = Some po ->
  _context o = Some c -> ctxs s !! c = Some k ->
  fst (layout_own this up s) = Ok tt.
Proof.
  intros Ho Hp Hpo Hc Hk. unfold layout_own.
  rewrite bind_run, (run_getObj _ _ _ Ho), Hp.
  rewrite bind_run, (run_getObj _ _ _ Hpo). cbv zeta.
  go_padding paddingLeft. go_mod. go_padding paddingTop. go_mod.
  go_padding paddingRight. go_mod. go_padding paddingBottom. go_mod. go_mod.
  assert (forall (O : gmap nat UIObject) (o' : UIObject) (S0 : Store),
            _context o' = Some c -> ctxs S0 = ctxs s ->
            forall f,
            fst ((o ← getObj this;
                  match _context o with
                  | Some c => ctx ← getCtx c; modObj this (f o ctx)
                  | None => throw Js.TypeError
                  end) (set_objects (<[this := o']> O) S0)) = Ok tt) as Hend.
  { intros O o' S0 Hc' Hctx f.
    rewrite bind_run, (run_getObj _ _ _ (lookup_insert_eq _ _ _)), Hc'.
    rewrite bind_run. erewrite run_getCtx by (simpl; rewrite Hctx; exact Hk).
    erewrite run_modObj by apply lookup_insert_eq. reflexivity. }
  destruct up; unfold when.
  - rewrite bind_run. go_mod.
    rewrite bind_run.
    match goal with
    | |- context [getObj p ?s0] =>
        destruct (getObj p s0) as [r s'] eqn:E; apply getObj_inv in E;
        destruct E as [-> [[-> Hnone] | (po' & -> & Hpo')]]
    end.
    { exfalso. simpl in Hnone.
      repeat (apply lookup_insert_None in Hnone; destruct Hnone as [Hnone _]).
      congruence. }
    erewrite run_modObj by apply lookup_insert_eq.
    cbv beta iota. cbn [objects set_objects]. apply Hend; [simpl; exact Hc | reflexivity].
  - rewrite bind_run. cbn [ret mret M_ret]. cbv beta iota.
    apply Hend; [simpl; exact Hc | reflexivity].
Qed.

Lemma layout_root_own_returns (this : nat) (s : Store) (o : UIObject)
    (c : nat) (k : Context) :
  objects s !! this = Some o -> _context o = Some c -> ctxs s !! c = Some k ->
  fst (layout_root_own this s) = Ok tt.
Proof.
  intros Ho Hc Hk. unfold layout_root_own.
  rewrite bind_run, (run_getObj _ _ _ Ho), Hc, bind_run, (run_getCtx _ _ _ Hk).
  rewrite (run_modObj _ _ _ _ Ho). reflexivity.
Qed.

Lemma computed_only_lookup' (s s' : Store) (n : nat) (o : UIObject) :
  computed_only s s' -> objects s !! n = Some o ->
  exists o', objects s' !! n = Some o' /\ erase_computed o' = erase_computed o.
Proof.
  intros Hc Ho.
  destruct (computed_only_lookup _ _ n o (computed_only_sym _ _ Hc) Ho) as (o' & Ho' & E).
  exists o'. auto.
Qed.

Lemma can_lay_out_computed_only (s s' : Store) (n : nat) :
  computed_only s s' -> can_lay_out s n -> can_lay_out s' n.
Proof.
  intros Hc (o & c & k & Ho & Hctx & Hk & Hpar).
  destruct (computed_only_lookup' _ _ _ _ Hc Ho) as (o' & Ho' & E).
  exists o', c, k. split; [exact Ho'|].
  split; [rewrite <- Hctx; exact (f_equal _context E)|].
  split; [destruct Hc as (-> & _); exact Hk|].
  intros Hfn.
  assert (layoutFn o' = layoutFn o) as Ef by exact (f_equal layoutFn E).
  assert (priv_parent o' = priv_parent o) as Ep by exact (f_equal priv_parent E).
  assert (isRoot o' = isRoot o) as Er by exact (f_equal isRoot E).
  rewrite Ef in Hfn. destruct (Hpar Hfn) as (p & po & Hp & Hpo).
  destruct (computed_only_lookup' _ _ _ _ Hc Hpo) as (po' & Hpo' & _).
  exists p, po'. split; [|exact Hpo'].
  unfold parent in *. rewrite Ep, Er. exact Hp.
Qed.

Lemma children_can_lay_out_computed_only (s s' : Store) :
  computed_only s s' -> children_can_lay_out s -> children_can_lay_out s'.
Proof.
  intros Hc H p po' Hp.
  destruct (computed_only_lookup _ _ _ _ Hc Hp) as (po & Hpo & E).
  rewrite (erase_computed_children _ _ E).
  eapply Forall_impl; [exact (H p po Hpo)|].
  intros c. apply can_lay_out_computed_only. exact Hc.
Qed.

Lemma layout_returns (rank : nat -> nat) (fuel : nat) :
  forall fn this up ucp s,
    ranked rank s -> children_can_lay_out s ->
    (exists o c k,
        objects s !! this = Some o /\ _context o = Some c /\ ctxs s !! c = Some k
        /\ (fn <> LRoot -> exists p po, parent o = Some p /\ objects s !! p = Some po)) ->
    (forall m, is_Some (objects s !! m) ->
       (2 * rank m + 2 <= 2 * rank this + fuel
                          + match fn with LText => 0 | _ => 1 end)%nat) ->
    fst (layout fuel fn this up ucp s) = Ok tt.
Proof.
  induction fuel as [|fuel IH]; intros fn this up ucp s Hr Hch Hthis Hb.
  { destruct Hthis as (o & _ & _ & Ho & _).
    specialize (Hb this (ex_intro _ o Ho)). destruct fn; lia. }
  destruct Hthis as (o & c & k & Ho & Hc & Hk & Hpar).
  assert (forall up' s1, computed_only s s1 -> fn <> LText ->
            fst ((o ← getObj this;
                  for_of (children o)
                    (fun child =>
                       co ← getObj child;
                       if visible co then layout fuel (layoutFn co) child up' None
                       else ret tt)) s1) = Ok tt) as Hloop.
  { intros up' s1 Hs1 Hfn.
    destruct (computed_only_lookup' _ _ _ _ Hs1 Ho) as (o1 & Ho1 & E1).
    rewrite bind_run, (run_getObj _ _ _ Ho1), (erase_computed_children _ _ E1).
    apply (for_of_returns (computed_only s)); [|exact Hs1].
    intros child s2 Hin Hs2.
    pose proof (Hr this o Ho) as Hrk. rewrite Forall_forall in Hrk.
    pose proof (Hch this o Ho) as Hcan. rewrite Forall_forall in Hcan.
    specialize (Hrk child Hin). specialize (Hcan child Hin).
    pose proof (can_lay_out_computed_only _ _ _ Hs2 Hcan)
      as (co & cc & ck & Hco & Hcc & Hck & Hcpar).
    rewrite bind_run, (run_getObj _ _ _ Hco).
    destruct (visible co); [|split; [reflexivity | exact Hs2]].
    split.
    - apply IH.
      + eapply ranked_computed_only; eassumption.
      + eapply children_can_lay_out_computed_only; eassumption.
      + exists co, cc, ck. auto.
      + intros m [mo Hm].
        destruct (computed_only_lookup _ _ _ _ Hs2 Hm) as (mo0 & Hm0 & _).
        specialize (Hb m (ex_intro _ mo0 Hm0)).
        destruct fn; [|congruence|]; destruct (layoutFn co); lia.
    - eapply computed_only_trans; [exact Hs2 | apply layout_subtree]. }
  destruct fn; simpl.
  - destruct (Hpar ltac:(discriminate)) as (p & po & Hp & Hpo).
    rewrite bind_run.
    pose proof (layout_own_returns this up s o p po c k Ho Hp Hpo Hc Hk) as Hret.
    pose proof (layout_own_touches this up s) as [H1 _].
    destruct (layout_own this up s) as [res s1]. simpl in Hret, H1. subst res.
    apply Hloop; [exact H1 | discriminate].
  - apply IH; try assumption.
    + exists o, c, k. repeat split; try assumption.
      intros _. apply Hpar. discriminate.
    + intros m Hm. specialize (Hb m Hm). lia.
  - rewrite bind_run.
    pose proof (layout_root_own_returns this s o c k Ho Hc Hk) as Hret.
    pose proof (layout_root_own_touches this s) as [H1 _].
    destruct (layout_root_own this s) as [res s1]. simpl in Hret, H1. subst res.
    apply Hloop; [exact H1 | discriminate].
Qed.

(** X17. On a store whose children lists form a forest in which every
    listed child has its context and, unless it is a root, its parent in
    the store, the layout of an object that has them as well ends
    normally, without exception, as soon as the fuel is twice the depth of
    the forest below the object (the layout of a [TextLabel] calls the
    default one): no padding of a computed style is [null], since the
    default style has them all. *)
Theorem layout_returns_on_an_attached_forest
    (rank : nat -> nat) (fuel : nat) (this : nat) (updatePosition : bool) (s : Store) :
  ranked rank s -> children_can_lay_out s -> can_lay_out s this ->
  (forall m, is_Some (objects s !! m) -> (2 * rank m + 2 <= 2 * rank this + fuel)%nat) ->
  fst (call_layout fuel this updatePosition s) = Ok tt.
Proof.
  intros Hr Hch (o & c & k & Ho & Hc & Hk & Hpar) Hb. unfold call_layout.
  rewrite bind_run, (run_getObj _ _ _ Ho).
  apply (layout_returns rank); try assumption.
  - exists o, c, k. auto.
  - intros m Hm. specialize (Hb m Hm). destruct (layoutFn o); lia.
Qed.

#[export] Instance layoutKind_eq_dec : EqDecision layoutKind.
Proof. solve_decision. Defined.

Lemma can_lay_out_iff (s : Store) (n : nat) :
  can_lay_out s n <-> can_lay_out_test s n.
Proof.
  unfold can_lay_out, can_lay_out_test. split.
  - intros (o & c & k & -> & -> & Hk & Hpar). split; [eauto|].
    intros Hfn. destruct (Hpar Hfn) as (p & po & -> & Hpo). eauto.
  - intros H. destruct (objects s !! n) as [o|]; [|destruct H].
    destruct (_context o) as [c|] eqn:Hc; [|destruct H].
    destruct H as [[k Hk] Hpar]. exists o, c, k.
    split; [reflexivity|]. split; [exact Hc|]. split; [exact Hk|].
    intros Hfn. specialize (Hpar Hfn).
    destruct (parent o) as [p|]; [|destruct Hpar].
    destruct Hpar as [po Hpo]. eauto.
Qed.

#[export] Instance can_lay_out_test_dec (s : Store) (n : nat) :
  Decision (can_lay_out_test s n).
Proof.
  unfold can_lay_out_test.
  destruct (objects s !! n) as [o|]; [|apply _].
  destruct (_context o) as [c|]; [|apply _].
  destruct (parent o); apply _.
Defined.

#[export] Instance can_lay_out_dec (s : Store) (n : nat) : Decision (can_lay_out s n).
Proof.
  destruct (decide (can_lay_out_test s n)) as [H|H]; [left | right];
    rewrite can_lay_out_iff; exact H.
Defined.

#[export] Instance children_can_lay_out_dec (s : Store) :
  Decision (children_can_lay_out s).
Proof. unfold children_can_lay_out. apply _. Defined.

Lemma layout_returns_on_an_attached_forest_witness :
  fst (call_layout Scenario.fuel 1 true Scenario.padded_frame) = Ok tt.
Proof.
  apply (layout_returns_on_an_attached_forest (fun n => n) Scenario.fuel 1 true
           Scenario.padded_frame).
  - apply (bool_decide_unpack (ranked _ _)). vm_compute. exact I.
  - apply (bool_decide_unpack (children_can_lay_out _)). vm_compute. exact I.
  - apply (bool_decide_unpack (can_lay_out _ _)). vm_compute. exact I.
  - intros m [o Ho].
    assert (map_Forall (fun m _ => (2 * m + 2 <= 2 * 1 + Scenario.fuel)%nat)
              (objects Scenario.padded_frame)) as Hall
      by (apply (bool_decide_unpack (map_Forall _ _)); vm_compute; exact I).
    exact (Hall m o Ho).
Defined.

(** *** What the style sweep refreshes *)





Lemma refreshed_shape (o : UIObject) : shape (refreshed o) = shape o.
Proof. reflexivity. Qed.

Lemma refreshes_refl (s : Store) : refreshes s s.
Proof. intros m. left. reflexivity. Qed.




Lemma keeps_refreshes_emit (e : event) : keeps refreshes (emit e).
Proof. intros s m. left. reflexivity. Qed.

Lemma keeps_refreshes_call_scheduleLayout (ctx : option nat) (n : nat) :
  keeps refreshes (call_scheduleLayout ctx n).
Proof.
  destruct ctx as [c|]; simpl; [|apply keeps_throw; apply refreshes_refl].
  intros s m. left. rewrite scheduleLayout_objects. reflexivity.
Qed.














(** *** A frame that ends normally *)

Lemma structure_kept_lookup (s s' : Store) (n : nat) (o : UIObject) :
  structure_kept s s' -> objects s !! n = Some o ->
  exists o', objects s' !! n = Some o' /\ erase_cached o' = erase_cached o.
Proof.
  intros (_ & _ & He) Ho. specialize (He n). rewrite Ho in He.
  destruct (objects s' !! n) as [o'|]; [|discriminate He].
  exists o'. split; [reflexivity|]. simpl in He. congruence.
Qed.

Lemma structure_kept_sym (s s' : Store) : structure_kept s s' -> structure_kept s' s.
Proof. intros (H1 & H2 & H3). repeat split; auto. Qed.

Lemma structure_kept_ctx (s s' : Store) (c : nat) (k : Context) :
  structure_kept s s' -> ctxs s !! c = Some k ->
  exists k', ctxs s' !! c = Some k' /\ root k' = root k /\ csize k' = csize k.
Proof.
  intros (_ & Hc & _) Hk. specialize (Hc c). rewrite Hk in Hc.
  destruct (ctxs s' !! c) as [k'|]; [|discriminate Hc].
  exists k'. split; [reflexivity|]. simpl in Hc. split; congruence.
Qed.

Lemma erase_cached_fields (o' o : UIObject) :
  erase_cached o' = erase_cached o ->
  children o' = children o /\ _context o' = _context o
  /\ priv_parent o' = priv_parent o /\ isRoot o' = isRoot o
  /\ layoutFn o' = layoutFn o /\ visible o' = visible o.
Proof.
  intros E.
  pose proof (f_equal children E). pose proof (f_equal _context E).
  pose proof (f_equal priv_parent E). pose proof (f_equal isRoot E).
  pose proof (f_equal layoutFn E). pose proof (f_equal visible E). auto 10.
Qed.

Lemma can_lay_out_structure_kept (s s' : Store) (n : nat) :
  structure_kept s s' -> can_lay_out s n -> can_lay_out s' n.
Proof.
  intros Hs (o & c & k & Ho & Hctx & Hk & Hpar).
  destruct (structure_kept_lookup _ _ _ _ Hs Ho) as (o' & Ho' & E).
  destruct (erase_cached_fields _ _ E) as (_ & Ec & Ep & Er & Ef & _).
  destruct (structure_kept_ctx _ _ _ _ Hs Hk) as (k' & Hk' & _).
  exists o', c, k'. split; [exact Ho'|]. split; [congruence|]. split; [exact Hk'|].
  intros Hfn. rewrite Ef in Hfn. destruct (Hpar Hfn) as (p & po & Hp & Hpo).
  destruct (structure_kept_lookup _ _ _ _ Hs Hpo) as (po' & Hpo' & _).
  exists p, po'. split; [|exact Hpo']. unfold parent in *. rewrite Ep, Er. exact Hp.
Qed.

Lemma ranked_structure_kept (rank : nat -> nat) (s s' : Store) :
  structure_kept s s' -> ranked rank s -> ranked rank s'.
Proof.
  intros Hs Hr p po' Hp.
  destruct (structure_kept_lookup _ _ _ _ (structure_kept_sym _ _ Hs) Hp) as (po & Hpo & E).
  destruct (erase_cached_fields _ _ E) as (Ec & _). rewrite <- Ec.
  exact (Hr p po Hpo).
Qed.

Lemma children_can_lay_out_structure_kept (s s' : Store) :
  structure_kept s s' -> children_can_lay_out s -> children_can_lay_out s'.
Proof.
  intros Hs H p po' Hp.
  destruct (structure_kept_lookup _ _ _ _ (structure_kept_sym _ _ Hs) Hp) as (po & Hpo & E).
  destruct (erase_cached_fields _ _ E) as (Ec & _). rewrite <- Ec.
  eapply Forall_impl; [exact (H p po Hpo)|].
  intros c. apply can_lay_out_structure_kept. exact Hs.
Qed.

Lemma running_have_roots_structure_kept (s s' : Store) :
  structure_kept s s' -> running_have_roots s -> running_have_roots s'.
Proof.
  intros Hs H. unfold running_have_roots in *.
  destruct Hs as (Hc & Hk & Ho). rewrite Hc.
  eapply Forall_impl; [exact H|]. intros id Hid. simpl in Hid.
  destruct (ctxs s !! id) as [k|] eqn:E; [|contradiction].
  destruct (structure_kept_ctx s s' id k (conj Hc (conj Hk Ho)) E) as (k' & -> & -> & _).
  destruct (root k); [|contradiction].
  eapply can_lay_out_structure_kept; [|exact Hid]. repeat split; assumption.
Qed.

(** The relayout lists after a step that appended at most objects that
    can be laid out. *)
Lemma relayout_can_lay_out_step (s s' : Store) :
  structure_kept s s' ->
  (forall c m, m ∈ relayout_of s' c -> m ∈ relayout_of s c \/ can_lay_out s' m) ->
  relayout_can_lay_out s -> relayout_can_lay_out s'.
Proof.
  intros Hs Hnew H c k' Hk'. apply Forall_forall. intros m Hm.
  assert (m ∈ relayout_of s' c) as Hm' by (unfold relayout_of; rewrite Hk'; exact Hm).
  destruct (Hnew c m Hm') as [Hold|Hcan]; [|exact Hcan].
  unfold relayout_of in Hold. destruct (ctxs s !! c) as [k|] eqn:Hk.
  - eapply can_lay_out_structure_kept; [exact Hs|].
    pose proof (H c k Hk) as Hall. rewrite Forall_forall in Hall. auto.
  - apply elem_of_nil in Hold. contradiction.
Qed.

Lemma relayout_can_lay_out_same (s s' : Store) :
  structure_kept s s' -> ctxs s' = ctxs s ->
  relayout_can_lay_out s -> relayout_can_lay_out s'.
Proof.
  intros Hs Hc. apply relayout_can_lay_out_step; [exact Hs|].
  intros c m Hm. left. unfold relayout_of in *. rewrite <- Hc. exact Hm.
Qed.

Lemma frame_ready_structure_kept (rank : nat -> nat) (s s' : Store) :
  structure_kept s s' ->
  (forall c m, m ∈ relayout_of s' c -> m ∈ relayout_of s c \/ can_lay_out s' m) ->
  frame_ready rank s -> frame_ready rank s'.
Proof.
  intros Hs Hnew (H1 & H2 & H3 & H4).
  split; [eapply ranked_structure_kept; eassumption|].
  split; [eapply children_can_lay_out_structure_kept; eassumption|].
  split; [eapply relayout_can_lay_out_step; eassumption|].
  eapply running_have_roots_structure_kept; eassumption.
Qed.

Lemma frame_ready_objects (rank : nat -> nat) (s s' : Store) :
  objects s' = objects s -> ctxs s' = ctxs s -> contexts s' = contexts s ->
  frame_ready rank s -> frame_ready rank s'.
Proof.
  intros Eo Ec Ek. apply frame_ready_structure_kept.
  - unfold structure_kept. rewrite Eo, Ec, Ek. auto.
  - intros c m Hm. left. unfold relayout_of in *. rewrite <- Ec. exact Hm.
Qed.

Lemma structure_kept_is_Some (s s' : Store) (m : nat) :
  structure_kept s s' -> is_Some (objects s' !! m) -> is_Some (objects s !! m).
Proof.
  intros Hs [o' Ho'].
  destruct (structure_kept_lookup _ _ _ _ (structure_kept_sym _ _ Hs) Ho') as (o & Ho & _).
  eauto.
Qed.

Lemma schedule_frame_ready (rank : nat -> nat) (c n : nat) (s : Store) :
  frame_ready rank s -> can_lay_out s n ->
  frame_ready rank (snd (_scheduleLayout c n s)).
Proof.
  intros Hf Hn.
  assert (structure_kept s (snd (_scheduleLayout c n s))) as Hs
    by apply (keeps_sweeps_call_scheduleLayout (Some c) n s).
  apply (frame_ready_structure_kept rank s); [exact Hs| |exact Hf].
  intros c' m Hm.
  destruct (scheduleLayout_cases c n s) as [E|E].
  - cbv zeta in E. rewrite E in Hm. left. exact Hm.
  - destruct E as (o & k & Ho & Hk & _ & _ & E). cbv zeta in E.
    rewrite E in Hm. unfold relayout_of in Hm |- *. simpl in Hm.
    destruct (decide (c = c')) as [<-|Hne].
    + rewrite lookup_insert_eq in Hm. simpl in Hm. rewrite Hk.
      apply elem_of_app in Hm. destruct Hm as [Hm|Hm]; [left; exact Hm|].
      apply list_elem_of_singleton in Hm. subst m. right.
      eapply can_lay_out_structure_kept; eassumption.
    + rewrite lookup_insert_ne in Hm by assumption. left. exact Hm.
Qed.

Lemma sweep_returns (rank : nat -> nat) (fuel : nat) :
  forall r s,
    frame_ready rank s -> can_lay_out s r ->
    (forall m, is_Some (objects s !! m) -> (rank m < rank r + fuel)%nat) ->
    fst (iterativeCheckForStyleChanges fuel r s) = Ok tt
    /\ frame_ready rank (snd (iterativeCheckForStyleChanges fuel r s)).
Proof.
  induction fuel as [|fuel IH]; intros r s Hf Hr Hb.
  { destruct Hr as (o & _ & _ & Ho & _). specialize (Hb r (ex_intro _ o Ho)). lia. }
  destruct Hr as (o & c & k & Ho & Hc & Hk & Hpar).
  simpl. rewrite bind_run.
  set (s1 := set_trace (trace s ++ [EvSweep r]) s).
  change (emit (EvSweep r) s) with (Ok tt, s1). cbv beta iota.
  assert (frame_ready rank s1) as Hf1 by (apply (frame_ready_objects rank s); auto).
  assert (objects s1 !! r = Some o) as Ho1 by exact Ho.
  rewrite bind_run, (run_getObj _ _ _ Ho1).
  assert (forall s2, structure_kept s s2 -> frame_ready rank s2 ->
            fst (for_of (children o) (iterativeCheckForStyleChanges fuel) s2) = Ok tt
            /\ frame_ready rank
                 (snd (for_of (children o) (iterativeCheckForStyleChanges fuel) s2)))
    as Hloop.
  { intros s2 Hs2 Hf2.
    assert (forall a s3, a ∈ children o ->
              structure_kept s s3 /\ frame_ready rank s3 ->
              fst (iterativeCheckForStyleChanges fuel a s3) = Ok tt
              /\ structure_kept s (snd (iterativeCheckForStyleChanges fuel a s3))
                 /\ frame_ready rank (snd (iterativeCheckForStyleChanges fuel a s3)))
      as Hstep.
    { intros a s3 Ha [Hs3 Hf3].
      destruct (structure_kept_lookup _ _ _ _ Hs3 Ho) as (o3 & Ho3 & E3).
      destruct (erase_cached_fields _ _ E3) as (Ech & _).
      destruct Hf3 as (R3 & C3 & L3 & K3).
      pose proof (C3 r o3 Ho3) as Hcan. cbv beta in Hcan.
      rewrite Ech, Forall_forall in Hcan.
      destruct Hf as (R0 & _).
      pose proof (R0 r o Ho) as Hrk. cbv beta in Hrk. rewrite Forall_forall in Hrk.
      destruct (IH a s3) as [H1 H2].
      - repeat split; assumption.
      - apply Hcan. exact Ha.
      - intros m Hm. apply (structure_kept_is_Some _ _ _ Hs3) in Hm.
        specialize (Hb m Hm). specialize (Hrk a Ha). lia.
      - split; [exact H1|]. split; [|exact H2].
        eapply structure_kept_trans; [exact Hs3|]. apply sweep_sweeps. }
    split.
    - apply (for_of_returns (fun s3 => structure_kept s s3 /\ frame_ready rank s3));
        [|split; assumption].
      intros a s3 Ha H3. destruct (Hstep a s3 Ha H3) as (? & ? & ?). auto.
    - apply (for_of_invariant (fun s3 => structure_kept s s3 /\ frame_ready rank s3));
        [|split; assumption].
      intros a s3 Ha H3. destruct (Hstep a s3 Ha H3) as (? & ? & ?). auto. }
  assert (structure_kept s s1) as Hs1 by (repeat split; reflexivity).
  destruct (visible o); [|split; [reflexivity | exact Hf1]].
  destruct (visibleOnScreen o).
  - rewrite bind_run.
    set (m1 := when _ _).
    assert (fst (m1 s1) = Ok tt /\ frame_ready rank (snd (m1 s1))
            /\ structure_kept s (snd (m1 s1))) as (E1 & Hf2 & Hs2).
    { subst m1. unfold when.
      destruct (style_changed _ _); [|simpl; auto].
      rewrite Hc. simpl.
      split; [eapply scheduleLayout_returns; [exact Ho1 | exact Hk]|].
      split.
      - apply schedule_frame_ready; [exact Hf1|]. exists o, c, k. auto.
      - eapply structure_kept_trans; [exact Hs1|].
        apply (keeps_sweeps_call_scheduleLayout (Some c) r s1). }
    destruct (m1 s1) as [res s2]. simpl in E1, Hf2, Hs2. subst res.
    destruct (structure_kept_lookup _ _ _ _ Hs2 Ho) as (o2 & Ho2 & _).
    rewrite bind_run, (run_modObj _ _ _ _ Ho2). cbv beta iota.
    match goal with
    | |- context [for_of _ _ ?s3] =>
        assert (structure_kept s2 s3) as Hs3
    end.
    { pose proof (keeps_sweeps_refresh r (computedStyle o) s2) as H.
      rewrite (run_modObj _ _ _ _ Ho2) in H. apply H. }
    apply Hloop.
    + eapply structure_kept_trans; eassumption.
    + eapply frame_ready_structure_kept; [exact Hs3| |exact Hf2].
      intros c' m Hm. left. exact Hm.
  - destruct (clipsDescendants o); [split; [reflexivity | exact Hf1]|].
    apply Hloop; assumption.
Qed.

Lemma children_can_lay_out_exist (s : Store) : children_can_lay_out s -> children_exist s.
Proof.
  intros H p po Hp. eapply Forall_impl; [exact (H p po Hp)|].
  intros c (o & _ & _ & Ho & _). eauto.
Qed.

Lemma layouts_return (rank : nat -> nat) (fuel : nat) (l : list nat) (s : Store) :
  frame_ready rank s -> Forall (can_lay_out s) l ->
  (forall m, is_Some (objects s !! m) -> (2 * rank m + 2 <= fuel)%nat) ->
  let m := for_of l (fun object => call_layout fuel object true) in
  fst (m s) = Ok tt /\ frame_ready rank (snd (m s)) /\ computed_only s (snd (m s)).
Proof.
  intros Hf Hl Hb m. rewrite Forall_forall in Hl.
  assert (forall a s1, a ∈ l -> computed_only s s1 /\ frame_ready rank s1 ->
            fst (call_layout fuel a true s1) = Ok tt
            /\ computed_only s (snd (call_layout fuel a true s1))
               /\ frame_ready rank (snd (call_layout fuel a true s1))) as Hstep.
  { intros a s1 Ha [Hc1 Hf1].
    pose proof (call_layout_computed_only fuel a true s1) as Hc2.
    split; [|split].
    - destruct Hf1 as (R1 & C1 & _).
      destruct (can_lay_out_computed_only _ _ _ Hc1 (Hl a Ha))
        as (o & c & k & Ho & Hc & Hk & Hpar).
      unfold call_layout. rewrite bind_run, (run_getObj _ _ _ Ho).
      apply (layout_returns rank); try assumption.
      + exists o, c, k. auto.
      + intros n Hn.
        apply (structure_kept_is_Some s s1 n (computed_only_structure_kept _ _ Hc1)) in Hn.
        specialize (Hb n Hn). destruct (layoutFn o); lia.
    - eapply computed_only_trans; eassumption.
    - eapply frame_ready_structure_kept; [|  |exact Hf1].
      + apply computed_only_structure_kept. exact Hc2.
      + intros c n Hn. left. destruct Hc2 as (Ec & _).
        unfold relayout_of in *. rewrite <- Ec. exact Hn. }
  assert (computed_only s s /\ frame_ready rank s) as H0
    by (split; [apply computed_only_refl | exact Hf]).
  split; [|apply and_comm].
  - apply (for_of_returns (fun s1 => computed_only s s1 /\ frame_ready rank s1));
      [|exact H0].
    intros a s1 Ha H1. destruct (Hstep a s1 Ha H1) as (? & ? & ?). auto.
  - apply (for_of_invariant (fun s1 => computed_only s s1 /\ frame_ready rank s1));
      [|exact H0].
    intros a s1 Ha H1. destruct (Hstep a s1 Ha H1) as (? & ? & ?). auto.
Qed.

Lemma update_context_returns (rank : nat -> nat) (fuel : nat) (id : nat) (s : Store) :
  frame_ready rank s -> id ∈ contexts s ->
  (forall m, is_Some (objects s !! m) -> (2 * rank m + 2 <= fuel)%nat) ->
  fst (update_context fuel id s) = Ok tt
  /\ frame_ready rank (snd (update_context fuel id s)).
Proof.
  intros Hf Hid Hb.
  assert (frame_ready rank s) as (R0 & C0 & L0 & K0) by exact Hf.
  unfold running_have_roots in K0. rewrite Forall_forall in K0.
  specialize (K0 id Hid). cbv beta in K0.
  destruct (ctxs s !! id) as [k|] eqn:Hk; [|contradiction].
  destruct (root k) as [r|] eqn:Hr; [|contradiction].
  unfold update_context. rewrite bind_run, (run_getCtx _ _ _ Hk), Hr.
  (* the style sweep *)
  rewrite bind_run.
  destruct (sweep_returns rank fuel r s Hf K0) as [E1 Hf1].
  { intros m Hm. specialize (Hb m Hm). lia. }
  pose proof (sweep_sweeps fuel r s) as (Hs1 & _).
  destruct (iterativeCheckForStyleChanges fuel r s) as [res s1].
  simpl in E1, Hf1, Hs1. subst res.
  (* the layouts *)
  destruct (structure_kept_ctx _ _ _ _ Hs1 Hk) as (k1 & Hk1 & Hr1 & _).
  rewrite bind_run, (run_getCtx _ _ _ Hk1), bind_run.
  assert (frame_ready rank s1) as (R1 & C1 & L1 & K1) by exact Hf1.
  destruct (layouts_return rank fuel (relayout k1) s1 Hf1 (L1 id k1 Hk1))
    as (E2 & Hf2 & Hc2).
  { intros m Hm. apply Hb. eapply structure_kept_is_Some; eassumption. }
  destruct (for_of (relayout k1) _ s1) as [res s2].
  simpl in E2, Hf2, Hc2. subst res.
  pose proof (computed_only_structure_kept _ _ Hc2) as Hs2.
  (* the draw traversal *)
  rewrite bind_run.
  assert (frame_ready rank s2) as (R2 & C2 & L2 & K2) by exact Hf2.
  assert (can_lay_out s2 r) as (ro & _ & _ & Hro & _).
  { eapply can_lay_out_structure_kept; [exact Hs2|].
    eapply can_lay_out_structure_kept; [exact Hs1 | exact K0]. }
  pose proof (draw_returns rank (objects s2) fuel R2 (children_can_lay_out_exist _ C2)
                r s2 eq_refl (ex_intro _ ro Hro)) as E3.
  pose proof (draw_trace_only fuel r s2) as (Eo3 & Ec3 & Ek3).
  destruct (iterativeDraw fuel r s2) as [res s3]. simpl in E3, Eo3, Ec3, Ek3.
  rewrite E3.
  2:{ intros m Hm. enough (2 * rank m + 2 <= fuel)%nat by lia. apply Hb.
      eapply structure_kept_is_Some; [exact Hs1|].
      eapply structure_kept_is_Some; [exact Hs2 | exact Hm]. }
  assert (frame_ready rank s3) as Hf3 by (apply (frame_ready_objects rank s2); auto).
  (* the reset of the relayout list *)
  destruct (structure_kept_ctx _ _ _ _ Hs2 Hk1) as (k2 & Hk2 & _).
  rewrite <- Ec3 in Hk2. rewrite (run_modCtx _ _ _ _ Hk2).
  split; [reflexivity|]. cbn [snd].
  eapply frame_ready_structure_kept; [| |exact Hf3].
  - pose proof (keeps_structure_modCtx id (set_relayout [])
                  (fun k' => conj eq_refl eq_refl) s3) as H.
    rewrite (run_modCtx _ _ _ _ Hk2) in H. exact H.
  - intros c m Hm. left. unfold relayout_of in *. simpl in Hm.
    destruct (decide (id = c)) as [<-|Hne].
    + rewrite lookup_insert_eq in Hm. simpl in Hm. apply elem_of_nil in Hm. contradiction.
    + rewrite lookup_insert_ne in Hm by assumption. exact Hm.
Qed.

(** X19. On a store whose children lists form a forest in which the listed
    children, the scheduled objects and the roots of the running contexts
    have their context and, unless they are roots, their parent in the
    store, the style sweeps, the layouts and the draw traversals of a frame
    all end normally as soon as the fuel is twice the depth of the forest.
    The store after the frame is such a store again, with the same
    objects, so that the next frame ends normally as well. *)
Theorem update_returns_on_a_ready_store (rank : nat -> nat) (fuel : nat) (s : Store) :
  frame_ready rank s ->
  (forall m, is_Some (objects s !! m) -> (2 * rank m + 2 <= fuel)%nat) ->
  fst (update fuel s) = Ok tt
  /\ frame_ready rank (snd (update fuel s))
  /\ forall m, is_Some (objects (snd (update fuel s)) !! m) ->
               (2 * rank m + 2 <= fuel)%nat.
Proof.
  intros Hf Hb. unfold update.
  set (I := fun s1 => structure_kept s s1 /\ frame_ready rank s1).
  assert (forall id s1, id ∈ contexts s -> I s1 ->
            fst (update_context fuel id s1) = Ok tt
            /\ I (snd (update_context fuel id s1))) as Hstep.
  { intros id s1 Hid [Hs1 Hf1].
    destruct (update_context_returns rank fuel id s1 Hf1) as [E H1].
    - destruct Hs1 as (-> & _). exact Hid.
    - intros m Hm. apply Hb. eapply structure_kept_is_Some; eassumption.
    - split; [exact E|]. split; [|exact H1].
      eapply structure_kept_trans; [exact Hs1|]. apply update_context_structure_kept. }
  assert (I s) as H0 by (split; [apply structure_kept_refl | exact Hf]).
  split; [exact (for_of_returns I _ _ Hstep s H0)|].
  assert (I (snd (for_of (contexts s) (update_context fuel) s))) as [Hs' Hf'].
  { apply (for_of_invariant I); [|exact H0].
    intros id s1 Hid H1. apply Hstep; assumption. }
  split; [exact Hf'|].
  intros m Hm. apply Hb. eapply structure_kept_is_Some; eassumption.
Qed.

#[export] Instance relayout_can_lay_out_dec (s : Store) :
  Decision (relayout_can_lay_out s).
Proof. unfold relayout_can_lay_out. apply _. Defined.

#[export] Instance running_have_roots_dec (s : Store) : Decision (running_have_roots s).
Proof.
  unfold running_have_roots. apply Forall_dec. intros id.
  destruct (ctxs s !! id) as [k|]; [|apply _].
  destruct (root k); apply _.
Defined.

#[export] Instance frame_ready_dec (rank : nat -> nat) (s : Store) :
  Decision (frame_ready rank s).
Proof. unfold frame_ready. apply _. Defined.

Lemma update_returns_on_a_ready_store_witness :
  fst (update Scenario.fuel Scenario.padded_frame) = Ok tt.
Proof.
  apply (update_returns_on_a_ready_store (fun n => n) Scenario.fuel
           Scenario.padded_frame).
  - apply (bool_decide_unpack (frame_ready _ _)). vm_compute. exact I.
  - intros m [o Ho].
    assert (map_Forall (fun m _ => (2 * m + 2 <= Scenario.fuel)%nat)
              (objects Scenario.padded_frame)) as Hall
      by (apply (bool_decide_unpack (map_Forall _ _)); vm_compute; exact I).
    exact (Hall m o Ho).
Defined.

(** *** The counters of the debug overlay *)

Lemma for_of_acc_fold {A B} (I : Store -> Prop) (k : B -> A -> M B)
    (step : B -> A -> B) (l : list A) :
  (forall acc c s, c ∈ l -> I s -> k acc c s = (Ok (step acc c), s)) ->
  forall acc s, I s -> for_of_acc l acc k s = (Ok (fold_left step l acc), s).
Proof.
  induction l as [|c l IH]; intros Hk acc s Hs; [reflexivity|]. simpl.
  rewrite bind_run, (Hk acc c s (list_elem_of_here _ _) Hs).
  apply IH; [|exact Hs].
  intros acc' c' s' Hc'. apply Hk. apply list_elem_of_further. exact Hc'.
Qed.

Lemma fold_left_counts (V T : nat -> nat) (keep : bool) (l : list nat) (v t : nat) :
  fold_left (fun '(visible, total) c =>
               (if keep then visible + V c else visible, total + T c)%nat) l (v, t)
  = ((if keep then v + sum_list_with V l else v)%nat, (t + sum_list_with T l)%nat).
Proof.
  revert v t. induction l as [|c l IH]; intros v t; simpl.
  - destruct keep; f_equal; lia.
  - rewrite IH. destruct keep; f_equal; lia.
Qed.

Lemma fold_left_total (T : nat -> nat) (l : list nat) (t : nat) :
  fold_left (fun value c => (value + T c)%nat) l t = (t + sum_list_with T l)%nat.
Proof.
  revert t. induction l as [|c l IH]; intros t; simpl; [lia|]. rewrite IH. lia.
Qed.

Lemma count_paints_app (a b : list event) :
  count_paints (a ++ b) = (count_paints a + count_paints b)%nat.
Proof. unfold count_paints. rewrite List.filter_app, length_app. reflexivity. Qed.

(** The paint events of a loop of draw traversals. *)
Lemma draw_loop_count (I : Store -> Prop) (V : nat -> nat) (D : nat -> M unit)
    (l : list nat) :
  (forall c s, c ∈ l -> I s ->
     fst (D c s) = Ok tt /\ I (snd (D c s))
     /\ exists evs, trace (snd (D c s)) = trace s ++ evs
                    /\ (count_paints evs <= V c)%nat) ->
  forall s, I s ->
    exists evs, trace (snd (for_of l D s)) = trace s ++ evs
                /\ (count_paints evs <= sum_list_with V l)%nat.
Proof.
  induction l as [|c l IH]; intros HD s Hs.
  { exists []. simpl. rewrite app_nil_r. split; [reflexivity|]. unfold count_paints.
    simpl. lia. }
  simpl. rewrite bind_run.
  destruct (HD c s (list_elem_of_here _ _) Hs) as (E & Hs1 & evs1 & T1 & C1).
  destruct (D c s) as [res s1]. simpl in E, Hs1, T1. subst res.
  destruct (IH (fun c' s' Hc' => HD c' s' (list_elem_of_further _ _ _ Hc')) s1 Hs1)
    as (evs2 & T2 & C2).
  exists (evs1 ++ evs2). rewrite T2, T1, app_assoc. split; [reflexivity|].
  rewrite count_paints_app. lia.
Qed.

(** The counters on every store with the objects of [s0]. *)
Lemma debug_counters (rank : nat -> nat) (s0 : Store) (fuel : nat) :
  ranked rank s0 -> children_exist s0 ->
  forall r,
    is_Some (objects s0 !! r) ->
    (forall m, is_Some (objects s0 !! m) -> (rank m < rank r + fuel)%nat) ->
    exists visible total,
      (1 <= total)%nat /\ (visible <= total)%nat
      /\ forall s, objects s = objects s0 ->
           iterativeDrawDebugGetObjects fuel r s = (Ok (visible, total), s)
           /\ iterativeRelayoutCheckDebug fuel r s = (Ok total, s)
           /\ exists evs, trace (snd (iterativeDraw fuel r s)) = trace s ++ evs
                          /\ (count_paints evs <= visible)%nat.
Proof.
  intros Hrank Hex. induction fuel as [|fuel IH]; intros r [o Ho] Hb.
  { specialize (Hb r (ex_intro _ o Ho)). lia. }
  pose proof (Hrank r o Ho) as Hrk. cbv beta in Hrk. rewrite Forall_forall in Hrk.
  pose proof (Hex r o Ho) as Hch. cbv beta in Hch. rewrite Forall_forall in Hch.
  set (V := fun c => match fst (iterativeDrawDebugGetObjects fuel c s0) with
                     | Ok p => fst p
                     | _ => 0%nat
                     end).
  set (T := fun c => match fst (iterativeDrawDebugGetObjects fuel c s0) with
                     | Ok p => snd p
                     | _ => 0%nat
                     end).
  assert (forall c, c ∈ children o ->
            (V c <= T c)%nat
            /\ forall s, objects s = objects s0 ->
                 iterativeDrawDebugGetObjects fuel c s = (Ok (V c, T c), s)
                 /\ iterativeRelayoutCheckDebug fuel c s = (Ok (T c), s)
                 /\ exists evs, trace (snd (iterativeDraw fuel c s)) = trace s ++ evs
                                /\ (count_paints evs <= V c)%nat) as Hc.
  { intros c Hin. destruct (IH c (Hch c Hin)) as (v & t & _ & Hvt & Hs).
    { intros m Hm. specialize (Hb m Hm). specialize (Hrk c Hin). lia. }
    assert (V c = v /\ T c = t) as [-> ->].
    { unfold V, T. destruct (Hs s0 eq_refl) as (-> & _). auto. }
    auto. }
  assert (forall l, (forall c, c ∈ l -> c ∈ children o) ->
            (sum_list_with V l <= sum_list_with T l)%nat) as Hsum.
  { induction l as [|c l IHl]; intros Hl; simpl; [lia|].
    pose proof (proj1 (Hc c (Hl c (list_elem_of_here _ _)))).
    specialize (IHl (fun c' Hc' => Hl c' (list_elem_of_further _ _ _ Hc'))). lia. }
  specialize (Hsum (children o) (fun c H => H)).
  set (SV := sum_list_with V (children o)) in *.
  set (ST := sum_list_with T (children o)) in *.
  exists (if visible o && visibleOnScreen o then 1 + SV
          else if negb (clipsDescendants o) then SV else 0)%nat, (1 + ST)%nat.
  split; [lia|]. split.
  { destruct (visible o && visibleOnScreen o); [lia|].
    destruct (negb (clipsDescendants o)); lia. }
  intros s Es.
  assert (objects s !! r = Some o) as Hos by (rewrite Es; exact Ho).
  split; [|split].
  - simpl. rewrite bind_run, (run_getObj _ _ _ Hos).
    destruct (visible o && visibleOnScreen o).
    + rewrite (for_of_acc_fold (fun s' => objects s' = objects s0) _
                 (fun '(visible, total) c =>
                    (if true then visible + V c else visible, total + T c)%nat));
        [rewrite (fold_left_counts V T true); reflexivity| |exact Es].
      intros [v t] c s' Hin Es'. rewrite bind_run.
      destruct (proj2 (Hc c Hin) s' Es') as (-> & _). reflexivity.
    + rewrite (for_of_acc_fold (fun s' => objects s' = objects s0) _
                 (fun '(visible, total) c =>
                    (if negb (clipsDescendants o) then visible + V c else visible,
                     total + T c)%nat));
        [rewrite (fold_left_counts V T (negb (clipsDescendants o))); reflexivity
        | |exact Es].
      intros [v t] c s' Hin Es'. rewrite bind_run.
      destruct (proj2 (Hc c Hin) s' Es') as (-> & _). reflexivity.
  - simpl. rewrite bind_run, (run_getObj _ _ _ Hos).
    rewrite (for_of_acc_fold (fun s' => objects s' = objects s0) _
               (fun value c => (value + T c)%nat));
      [rewrite fold_left_total; reflexivity| |exact Es].
    intros t c s' Hin Es'. rewrite bind_run.
    destruct (proj2 (Hc c Hin) s' Es') as (_ & -> & _). reflexivity.
  - simpl. rewrite snd_bind.
    set (s1 := set_trace (trace s ++ [EvDraw r]) s).
    change (emit (EvDraw r) s) with (Ok tt, s1). cbv beta iota.
    assert (objects s1 !! r = Some o) as Ho1 by exact Hos.
    rewrite snd_bind, (run_getObj _ _ _ Ho1). cbv beta iota.
    assert (forall s2, objects s2 = objects s0 ->
              exists evs,
                trace (snd ((cs ← sorted_children o; for_of cs (iterativeDraw fuel)) s2))
                = trace s2 ++ evs
                /\ (count_paints evs <= SV)%nat) as Hloop.
    { intros s2 E2. rewrite snd_bind. unfold sorted_children. rewrite bind_run.
      destruct (with_zIndex_returns (children o) s2) as (zs & Hzs).
      { rewrite E2. exact (Hex r o Ho). }
      rewrite Hzs. cbn [ret mret M_ret]. cbv beta iota.
      destruct (with_zIndex_inv _ _ _ _ Hzs) as [_ Hfst].
      assert (map fst (sort_z zs) ≡ₚ children o) as Hperm.
      { rewrite <- (Hfst zs eq_refl). apply fmap_Permutation. apply sort_z_perm. }
      replace SV with (sum_list_with V (map fst (sort_z zs)))
        by (unfold SV; rewrite Hperm; reflexivity).
      apply (draw_loop_count (fun s' => objects s' = objects s0)); [|exact E2].
      intros c s3 Hin E3. rewrite Hperm in Hin.
      split; [|split].
      - apply (draw_returns rank (objects s0)); try assumption.
        + apply Hch. exact Hin.
        + intros m Hm. specialize (Hb m Hm). specialize (Hrk c Hin). lia.
      - destruct (draw_trace_only fuel c s3) as [-> _]. exact E3.
      - apply (proj2 (Hc c Hin) s3 E3). }
    destruct (visible o); simpl.
    2:{ exists [EvDraw r]. split; [reflexivity|]. unfold count_paints. simpl. lia. }
    destruct (visibleOnScreen o); simpl.
    + rewrite snd_bind.
      set (s2 := set_trace (trace s1 ++ [EvPaint r]) s1).
      change (emit (EvPaint r) s1) with (Ok tt, s2). cbv beta iota.
      destruct (Hloop s2 Es) as (evs & -> & Hle).
      exists ([EvDraw r] ++ [EvPaint r] ++ evs). simpl.
      rewrite <- !app_assoc. split; [reflexivity|].
      change (count_paints (EvDraw r :: EvPaint r :: evs)) with (S (count_paints evs)).
      lia.
    + destruct (clipsDescendants o); simpl.
      * exists [EvDraw r]. split; [reflexivity|]. unfold count_paints. simpl. lia.
      * destruct (Hloop s1 Es) as (evs & -> & Hle).
        exists ([EvDraw r] ++ evs). simpl. rewrite <- !app_assoc.
        split; [reflexivity|].
        change (count_paints (EvDraw r :: evs)) with (count_paints evs). lia.
Qed.

(** X20. On a store whose children lists form a forest of objects that are
    all in the store, both counters of the debug overlay end normally and
    write nothing. The total of [iterativeDrawDebugGetObjects] is the
    number that [iterativeRelayoutCheckDebug] returns, whatever is visible
    or clipped; its count of visible objects is at most that total and at
    least the number of objects that the draw traversal paints: it also
    counts what is below an object that is not visible, where the draw
    traversal does not go. *)
Theorem debug_overlay_counts
    (rank : nat -> nat) (fuel : nat) (r : nat) (s : Store) :
  ranked rank s -> children_exist s -> is_Some (objects s !! r) ->
  (forall m, is_Some (objects s !! m) -> (rank m < rank r + fuel)%nat) ->
  exists visible total,
    iterativeDrawDebugGetObjects fuel r s = (Ok (visible, total), s)
    /\ iterativeRelayoutCheckDebug fuel r s = (Ok total, s)
    /\ (count_paints (new_events (iterativeDraw fuel r) s) <= visible)%nat
    /\ (visible <= total)%nat /\ (1 <= total)%nat.
Proof.
  intros Hrank Hex Hr Hb.
  destruct (debug_counters rank s fuel Hrank Hex r Hr Hb) as (v & t & H1 & Hvt & H).
  destruct (H s eq_refl) as (E1 & E2 & evs & T & C).
  exists v, t. split; [exact E1|]. split; [exact E2|]. split; [|auto].
  unfold new_events. rewrite T, drop_app_length. exact C.
Qed.

Lemma debug_overlay_counts_witness :
  exists visible total,
    iterativeDrawDebugGetObjects Scenario.fuel 0 Scenario.padded_frame
    = (Ok (visible, total), Scenario.padded_frame)
    /\ iterativeRelayoutCheckDebug Scenario.fuel 0 Scenario.padded_frame
       = (Ok total, Scenario.padded_frame)
    /\ (count_paints (new_events (iterativeDraw Scenario.fuel 0) Scenario.padded_frame)
        <= visible)%nat
    /\ (visible <= total)%nat /\ (1 <= total)%nat.
Proof.
  apply (debug_overlay_counts (fun n => n) Scenario.fuel 0 Scenario.padded_frame).
  - apply (bool_decide_unpack (ranked _ _)). vm_compute. exact I.
  - apply (bool_decide_unpack (children_exist _)). vm_compute. exact I.
  - apply (bool_decide_unpack (is_Some _)). vm_compute. exact I.
  - intros m [o Ho].
    assert (map_Forall (fun m _ => (m < 0 + Scenario.fuel)%nat)
              (objects Scenario.padded_frame)) as Hall
      by (apply (bool_decide_unpack (map_Forall _ _)); vm_compute; exact I).
    exact (Hall m o Ho).
Defined.

(** *** Children lists and parents that agree *)

Lemma bind_ok {A B} (m : M A) (k : A -> M B) (s s' : Store) (b : B) :
  (m ≫= k) s = (Ok b, s') -> exists a s1, m s = (Ok a, s1) /\ k a s1 = (Ok b, s').
Proof.
  rewrite bind_run. destruct (m s) as [[a|e|r] s1]; intros H; try discriminate H.
  eauto.
Qed.

Lemma getObj_ok (n : nat) (s s' : Store) (o : UIObject) :
  getObj n s = (Ok o, s') -> s' = s /\ objects s !! n = Some o.
Proof.
  intros H. apply getObj_inv in H. destruct H as [-> [[H _]|(o' & H & Ho)]];
    [discriminate H|]. injection H as <-. auto.
Qed.

Lemma modObj_links (n : nat) (f : UIObject -> UIObject)
    (g : list nat * option nat -> list nat * option nat) (s s' : Store) :
  modObj n f s = (Ok tt, s') -> (forall x, links (f x) = g (links x)) ->
  forall m, links <$> (objects s' !! m)
            = (if decide (m = n) then g else id) <$> (links <$> (objects s !! m)).
Proof.
  unfold modObj. destruct (objects s !! n) as [o|] eqn:Ho; intros H Hg m;
    [|discriminate H].
  injection H as <-. simpl. destruct (decide (m = n)) as [->|Hne].
  - rewrite lookup_insert_eq, Ho. simpl. rewrite Hg. reflexivity.
  - rewrite lookup_insert_ne by congruence. destruct (objects s !! m); reflexivity.
Qed.

Lemma call_scheduleLayout_ok (ctx : option nat) (n : nat) (s s' : Store) :
  call_scheduleLayout ctx n s = (Ok tt, s') -> objects s' = objects s.
Proof.
  destruct ctx as [c|]; [|discriminate]. intros H.
  apply (run_scheduleLayout_ok _ _ _ _ H).
Qed.

(** The elements of an array after [splice(indexOf(n), 1)]. *)
Lemma splice_indexOf_elem (n : nat) (l : list nat) :
  n ∈ l -> NoDup l ->
  NoDup (splice_indexOf n l) /\ forall m, m ∈ splice_indexOf n l <-> m ∈ l /\ m <> n.
Proof.
  unfold splice_indexOf. induction l as [|a l IH]; intros Hin Hd.
  { apply elem_of_nil in Hin. contradiction. }
  apply NoDup_cons in Hd. destruct Hd as [Ha Hd]. simpl.
  destruct (Nat.eqb n a) eqn:E.
  - apply Nat.eqb_eq in E. subst a. simpl. split; [exact Hd|].
    intros m. rewrite elem_of_cons. split.
    + intros Hm. split; [auto|]. intros ->. contradiction.
    + intros [[->|Hm] Hne]; [contradiction | exact Hm].
  - apply Nat.eqb_neq in E. apply elem_of_cons in Hin.
    destruct Hin as [->|Hin]; [contradiction|].
    destruct (IH Hin Hd) as [Hd' Hel].
    destruct (indexOf n l) as [i|] eqn:Hi.
    2:{ exfalso. exact (indexOf_none n l Hi Hin). }
    simpl. split.
    + apply NoDup_cons. split; [|exact Hd']. intros H. apply Hel in H. tauto.
    + intros m. rewrite !elem_of_cons, Hel. split.
      * intros [->|[Hm Hne]]; [split; [auto | congruence] | auto].
      * intros [[->|Hm] Hne]; auto.
Qed.

(** The tree after a setter of [parent] that ended normally and did not
    return at once: the object has left the children of its old parent,
    has joined those of the new one, and has the new [#parent]. *)
Lemma set_parent_links (this : nat) (newParent : option nat) (s s' : Store)
    (o : UIObject) :
  objects s !! this = Some o -> newParent <> priv_parent o ->
  set_parent this newParent s = (Ok tt, s') ->
  (forall q, newParent = Some q -> is_Some (objects s !! q))
  /\ forall m,
       links <$> (objects s' !! m)
       = (fun x =>
            let ch1 := if decide (priv_parent o = Some m)
                       then splice_indexOf this (children x) else children x in
            let ch2 := if decide (newParent = Some m) then ch1 ++ [this] else ch1 in
            (ch2, if decide (m = this) then newParent else priv_parent x))
         <$> (objects s !! m).
Proof.
  intros Ho Hne H. unfold set_parent in H.
  rewrite bind_run, (run_getObj _ _ _ Ho) in H.
  destruct (isRoot o); [discriminate H|].
  rewrite bool_decide_eq_false_2 in H by exact Hne.
  apply bind_ok in H. destruct H as ([] & s1 & H1 & H2).
  (* the object leaves its old parent *)
  assert (forall m,
            links <$> (objects s1 !! m)
            = (fun x => (if decide (priv_parent o = Some m)
                         then splice_indexOf this (children x) else children x,
                         priv_parent x)) <$> (objects s !! m)) as L1.
  { unfold leave_parent in H1. destruct (priv_parent o) as [P|].
    - apply bind_ok in H1. destruct H1 as (po & s0 & G & H1).
      apply getObj_ok in G. destruct G as [-> Hpo].
      apply bind_ok in H1. destruct H1 as ([] & s2 & G & H1).
      pose proof (modObj_links P _
                    (fun x => (splice_indexOf this (children po), snd x)) _ _ G
                    (fun x => eq_refl)) as L.
      apply bind_ok in H1. destruct H1 as (po' & s3 & G' & H1).
      apply getObj_ok in G'. destruct G' as [-> _].
      apply call_scheduleLayout_ok in H1. intros m. rewrite H1, L.
      destruct (decide (m = P)) as [->|Hm].
      + rewrite Hpo. simpl. rewrite decide_True by reflexivity. reflexivity.
      + destruct (objects s !! m); [|reflexivity]. simpl.
        rewrite decide_False by congruence. reflexivity.
    - injection H1 as <-. intros m. destruct (objects s !! m); [|reflexivity].
      reflexivity. }
  (* and joins the new one *)
  assert ((forall q, newParent = Some q -> is_Some (objects s1 !! q))
          /\ forall m,
               links <$> (objects s' !! m)
               = (fun x => (if decide (newParent = Some m) then fst x ++ [this]
                            else fst x,
                            if decide (m = this) then newParent else snd x))
                 <$> (links <$> (objects s1 !! m))) as [Hq L2].
  { unfold enter_parent in H2. destruct newParent as [Q|].
    - apply bind_ok in H2. destruct H2 as (qo & s0 & G & H2).
      apply getObj_ok in G. destruct G as [-> Hqo].
      split; [intros q [= <-]; eauto|].
      apply bind_ok in H2. destruct H2 as ([] & s2 & G1 & H2).
      pose proof (modObj_links this _ id _ _ G1 (fun x => eq_refl)) as La.
      apply bind_ok in H2. destruct H2 as ([] & s3 & G2 & H2).
      pose proof (modObj_links Q _ (fun x => (fst x ++ [this], snd x)) _ _ G2
                    (fun x => eq_refl)) as Lb.
      apply bind_ok in H2. destruct H2 as (o' & s4 & G3 & H2).
      apply getObj_ok in G3. destruct G3 as [-> _].
      apply bind_ok in H2. destruct H2 as ([] & s5 & G4 & H2).
      apply call_scheduleLayout_ok in G4.
      pose proof (modObj_links this _ (fun x => (fst x, Some Q)) _ _ H2
                    (fun x => eq_refl)) as Lc.
      intros m. rewrite Lc, G4, Lb, La.
      destruct (objects s1 !! m) as [x|]; [|destruct (decide (m = this)),
                                             (decide (m = Q)); reflexivity].
      simpl. f_equal.
      destruct (decide (m = this)), (decide (m = Q)); subst;
        rewrite ?decide_True by reflexivity; rewrite ?decide_False by congruence;
        reflexivity.
    - split; [discriminate|].
      apply bind_ok in H2. destruct H2 as ([] & s2 & G1 & H2).
      pose proof (modObj_links this _ id _ _ G1 (fun x => eq_refl)) as La.
      pose proof (modObj_links this _ (fun x => (fst x, None)) _ _ H2
                    (fun x => eq_refl)) as Lc.
      intros m. rewrite Lc, La.
      destruct (objects s1 !! m) as [x|]; [|destruct (decide (m = this)); reflexivity].
      simpl. f_equal. destruct (decide (m = this)); reflexivity. }
  split.
  - intros q Hq'. destruct (Hq q Hq') as [x Hx].
    pose proof (L1 q) as Lq. rewrite Hx in Lq.
    destruct (objects s !! q); [eauto | discriminate Lq].
  - intros m. rewrite L2, L1. destruct (objects s !! m); reflexivity.
Qed.

(** X21. When the children lists and the [#parent] fields of a store agree,
    they agree again after every assignment to [parent] that ends
    normally, whatever the object and the new parent are: the object is
    then listed once, by its new parent and by no other object. (After an
    assignment that throws they may disagree.) *)
Theorem set_parent_keeps_the_tree_linked
    (this : nat) (newParent : option nat) (s s' : Store) :
  linked s -> set_parent this newParent s = (Ok tt, s') -> linked s'.
Proof.
  intros [A B] H.
  assert (exists o, objects s !! this = Some o) as [o Ho].
  { unfold set_parent in H. apply bind_ok in H. destruct H as (o & s0 & G & _).
    apply getObj_ok in G. destruct G as [_ G]. eauto. }
  destruct (decide (newParent = priv_parent o)) as [Heq|Hne].
  { unfold set_parent in H. rewrite bind_run, (run_getObj _ _ _ Ho) in H.
    destruct (isRoot o); [discriminate H|].
    rewrite bool_decide_eq_true_2 in H by exact Heq. injection H as <-.
    split; assumption. }
  destruct (set_parent_links this newParent s s' o Ho Hne H) as [Hq L].
  set (F := fun m x =>
              let ch1 := if decide (priv_parent o = Some m)
                         then splice_indexOf this (children x) else children x in
              let ch2 := if decide (newParent = Some m) then ch1 ++ [this] else ch1 in
              (ch2, if decide (m = this) then newParent else priv_parent x)) in L.
  assert (forall m x', objects s' !! m = Some x' ->
            exists x, objects s !! m = Some x
                      /\ children x' = fst (F m x) /\ priv_parent x' = snd (F m x))
    as Hback.
  { intros m x' Hx'. specialize (L m). rewrite Hx' in L.
    destruct (objects s !! m) as [x|]; [|discriminate L].
    exists x. split; [reflexivity|]. cbn [fmap option_fmap option_map] in L.
    assert (links x' = F m x) as E by (apply (inj Some); exact L).
    rewrite <- E. split; reflexivity. }
  assert (forall m x, objects s !! m = Some x ->
            exists x', objects s' !! m = Some x'
                       /\ children x' = fst (F m x) /\ priv_parent x' = snd (F m x))
    as Hforth.
  { intros m x Hx. specialize (L m). rewrite Hx in L.
    destruct (objects s' !! m) as [x'|]; [|discriminate L].
    exists x'. split; [reflexivity|]. cbn [fmap option_fmap option_map] in L.
    assert (links x' = F m x) as E by (apply (inj Some); exact L).
    rewrite <- E. split; reflexivity. }
  (* where the object is listed before *)
  assert (forall m x, objects s !! m = Some x -> this ∈ children x ->
            priv_parent o = Some m) as Hlisted.
  { intros m x Hx Hin. destruct (A m x Hx) as [_ Hall].
    rewrite Forall_forall in Hall. specialize (Hall this Hin).
    rewrite Ho in Hall. simpl in Hall. congruence. }
  assert (forall m x, objects s !! m = Some x -> priv_parent o = Some m ->
            this ∈ children x) as Hlists.
  { intros m x Hx Hp. pose proof (B this o Ho) as Hb. cbv beta in Hb.
    rewrite Hp, Hx in Hb. exact Hb. }
  (* the children of an object without the one that moves *)
  assert (forall m x, objects s !! m = Some x ->
            let ch1 := if decide (priv_parent o = Some m)
                       then splice_indexOf this (children x) else children x in
            NoDup ch1 /\ forall c, c ∈ ch1 <-> c ∈ children x /\ c <> this) as Hch1.
  { intros m x Hx ch1. destruct (A m x Hx) as [Hd _]. subst ch1.
    destruct (decide (priv_parent o = Some m)) as [Hp|Hp].
    - apply splice_indexOf_elem; [eapply Hlists; eassumption | exact Hd].
    - split; [exact Hd|]. intros c. split; [|tauto].
      intros Hc. split; [exact Hc|]. intros ->. apply Hp. eapply Hlisted; eassumption. }
  split.
  - intros p po' Hpo'. cbv beta.
    destruct (Hback p po' Hpo') as (x & Hx & -> & _). unfold F. cbn [fst].
    destruct (Hch1 p x Hx) as [Hd Hel]. destruct (A p x Hx) as [_ Hall].
    rewrite Forall_forall in Hall.
    assert (forall c, c ∈ children x -> c <> this ->
              priv_parent <$> (objects s' !! c) = Some (Some p)) as Hold.
    { intros c Hc Hct. specialize (Hall c Hc).
      destruct (objects s !! c) as [xc|] eqn:Hxc; [|discriminate Hall].
      destruct (Hforth c xc Hxc) as (xc' & -> & _ & E). simpl. rewrite E.
      unfold F. cbn [snd].
      rewrite decide_False by exact Hct. exact Hall. }
    destruct (decide (newParent = Some p)) as [Hnp|Hnp].
    + split.
      * apply NoDup_app. split; [exact Hd|]. split; [|apply NoDup_singleton].
        intros c Hc Hc'. apply list_elem_of_singleton in Hc'. apply Hel in Hc. tauto.
      * apply Forall_app. split.
        -- apply Forall_forall. intros c Hc. apply Hel in Hc. apply Hold; tauto.
        -- apply Forall_singleton.
           destruct (Hforth this o Ho) as (o' & -> & _ & E). simpl. rewrite E.
           unfold F. cbn [snd]. rewrite decide_True by reflexivity. congruence.
    + split; [exact Hd|]. apply Forall_forall. intros c Hc. apply Hel in Hc.
      apply Hold; tauto.
  - intros c co' Hco'. cbv beta.
    destruct (Hback c co' Hco') as (xc & Hxc & _ & Hpp). unfold F in Hpp. cbn [snd] in Hpp.
    destruct (priv_parent co') as [p|] eqn:Hp'; [|exact I].
    assert (exists x, objects s !! p = Some x
                      /\ (c = this /\ newParent = Some p
                          \/ c <> this /\ c ∈ children x)) as (x & Hx & Hcase).
    { destruct (decide (c = this)) as [->|Hct].
      - symmetry in Hpp. destruct (Hq p Hpp) as [x Hx]. exists x. auto.
      - symmetry in Hpp. pose proof (B c xc Hxc) as Hb. cbv beta in Hb.
        rewrite Hpp in Hb. destruct (objects s !! p) as [x|]; [|contradiction].
        exists x. auto. }
    destruct (Hforth p x Hx) as (x' & -> & E & _). rewrite E. unfold F. cbn [fst].
    destruct (Hch1 p x Hx) as [_ Hel].
    destruct Hcase as [[-> Hnp]|[Hct Hin]].
    + rewrite (decide_True _ _ Hnp). apply elem_of_app. right. apply list_elem_of_here.
    + assert (c ∈ (if decide (priv_parent o = Some p)
                   then splice_indexOf this (children x) else children x)) as Hc1
        by (apply Hel; auto).
      destruct (decide (newParent = Some p)); [apply elem_of_app; left|]; exact Hc1.
Qed.

#[export] Instance linked_dec (s : Store) : Decision (linked s).
Proof.
  unfold linked. apply and_dec; [apply _|]. apply map_Forall_dec. intros c co.
  destruct (priv_parent co) as [p|]; [|apply _].
  destruct (objects s !! p); apply _.
Defined.

Lemma set_parent_keeps_the_tree_linked_witness :
  linked (snd (set_parent 3 (Some 2%nat) Scenario.family_store)).
Proof.
  apply (set_parent_keeps_the_tree_linked 3 (Some 2%nat) Scenario.family_store).
  - apply (bool_decide_unpack (linked _)). vm_compute. exact I.
  - vm_compute. reflexivity.
Defined.

End SceneFacts.

(** ** Colors *)

Module ColorFacts.
Import Js Color.

Lemma small_nat (k : Z) (n : nat) :
  (0 <= k < Z.of_nat n)%Z -> exists m, (m < n)%nat /\ k = Z.of_nat m.
Proof. intros H. exists (Z.to_nat k). lia. Qed.

(** A channel of eight bits in the result of [toHex]: two digits that
    [parseInt] reads as the same integer. *)
Lemma channel_hex (k : Z) :
  (0 <= k <= 255)%Z ->
  exists c d,
    pad (toString16 (Math_round (channel k * 255))) = [c; d]
    /\ c <> 0x23%N
    /\ parseInt16 [c; d] / 255 = channel k
    /\ isNaN (VNum (channel k)) = false
    /\ number_of_Z k / 255 = channel k.
Proof.
  intros H. destruct (small_nat k 256) as (m & Hm & ->); [lia|]. clear H.
  do 256 (destruct m as [|m];
          [eexists _, _; split; [vm_compute; reflexivity|];
           split; [discriminate|]; repeat split; vm_compute; reflexivity|]).
  lia.
Qed.

Lemma fromHex_of_four_channels (c1 d1 c2 d2 c3 d3 c4 d4 : N) :
  c1 <> 0x23%N ->
  fromHex (Str ([c1; d1] ++ [c2; d2] ++ [c3; d3] ++ [c4; d4]))
  = new_Color (parseInt16 [c1; d1] / 255) (parseInt16 [c2; d2] / 255)
      (parseInt16 [c3; d3] / 255) (parseInt16 [c4; d4] / 255).
Proof.
  intros H. unfold fromHex.
  rewrite bool_decide_eq_false_2; [reflexivity|].
  simpl. intros E. apply H. injection E as ->. reflexivity.
Qed.

(** X22. A color whose four channels are integers from 0 to 255 over 255, as
    [fromRGB] makes them, comes back from its eight-digit code:
    [Color.fromHex(color.toHex())] has the same four numbers. *)
Theorem Color_hex_round_trip (kr kg kb ka : Z) :
  (0 <= kr <= 255)%Z -> (0 <= kg <= 255)%Z -> (0 <= kb <= 255)%Z ->
  (0 <= ka <= 255)%Z ->
  let color := mkColor (channel kr) (channel kg) (channel kb) (channel ka) in
  fromRGB (number_of_Z kr) (number_of_Z kg) (number_of_Z kb) (Some (channel ka))
  = Ok color
  /\ length (toHex color) = 8%nat
  /\ fromHex (Str (toHex color)) = Ok color.
Proof.
  intros Hr Hg Hb Ha color.
  destruct (channel_hex kr Hr) as (c1 & d1 & E1 & N1 & P1 & I1 & F1).
  destruct (channel_hex kg Hg) as (c2 & d2 & E2 & _ & P2 & I2 & F2).
  destruct (channel_hex kb Hb) as (c3 & d3 & E3 & _ & P3 & I3 & F3).
  destruct (channel_hex ka Ha) as (c4 & d4 & E4 & _ & P4 & I4 & _).
  assert (new_Color (channel kr) (channel kg) (channel kb) (channel ka) = Ok color) as Hn.
  { unfold new_Color. rewrite I1, I2, I3, I4. reflexivity. }
  assert (toHex color = [c1; d1] ++ [c2; d2] ++ [c3; d3] ++ [c4; d4]) as Hhex.
  { unfold toHex, color. cbn [r g b a]. rewrite E1, E2, E3, E4. reflexivity. }
  split; [|split].
  - unfold fromRGB. rewrite F1, F2, F3. exact Hn.
  - rewrite Hhex. reflexivity.
  - rewrite Hhex, (fromHex_of_four_channels _ _ _ _ _ _ _ _ N1), P1, P2, P3, P4.
    exact Hn.
Qed.

Lemma Color_hex_round_trip_witness :
  fromHex (Str (toHex (mkColor (channel 255) (channel 128) (channel 0) (channel 64))))
  = Ok (mkColor (channel 255) (channel 128) (channel 0) (channel 64)).
Proof.
  apply (Color_hex_round_trip 255 128 0 64); lia.
Defined.





End ColorFacts.

(** ** Enumerations *)

Module EnumFacts.
Import Enum.

Lemma indexOf_range (value : string) (values : list string) :
  (-1 <= indexOf value values < Z.of_nat (length values))%Z.
Proof.
  induction values as [|v rest IH]; simpl; [lia|].
  destruct (bool_decide (value = v)); [lia|].
  destruct (Z.ltb_spec (indexOf value rest) 0); lia.
Qed.

Lemma indexOf_absent (value : string) (values : list string) :
  indexOf value values = (-1)%Z <-> value ∉ values.
Proof.
  induction values as [|v rest IH]; simpl.
  - split; [intros _; apply not_elem_of_nil | reflexivity].
  - rewrite not_elem_of_cons. destruct (bool_decide (value = v)) eqn:E.
    + apply bool_decide_eq_true_1 in E. split; [discriminate | intros [H _]; contradiction].
    + apply bool_decide_eq_false_1 in E.
      pose proof (indexOf_range value rest).
      destruct (Z.ltb_spec (indexOf value rest) 0).
      * split; [|reflexivity]. intros _. split; [exact E|]. apply IH. lia.
      * split; [lia|]. intros [_ H']. apply IH in H'. lia.
Qed.

Lemma from_indexOf (value : string) (values : list string) :
  value ∈ values -> from values (indexOf value values) = Some value.
Proof.
  unfold from. induction values as [|v rest IH]; intros Hin.
  - apply elem_of_nil in Hin. contradiction.
  - simpl. destruct (bool_decide (value = v)) eqn:E.
    + apply bool_decide_eq_true_1 in E. subst v. reflexivity.
    + apply bool_decide_eq_false_1 in E.
      apply elem_of_cons in Hin. destruct Hin as [Hin|Hin]; [contradiction|].
      specialize (IH Hin). pose proof (indexOf_range value rest).
      destruct (Z.ltb_spec (indexOf value rest) 0) as [Hlt|Hge].
      * assert (indexOf value rest = (-1)%Z) as Habs by lia.
        apply indexOf_absent in Habs. contradiction.
      * destruct (Z.ltb_spec (indexOf value rest + 1) 0); [lia|].
        replace (Z.to_nat (indexOf value rest + 1)) with (S (Z.to_nat (indexOf value rest)))
          by lia.
        destruct (Z.ltb_spec (indexOf value rest) 0); [lia|]. exact IH.
Qed.

Lemma indexOf_from (values : list string) (index : Z) (value : string) :
  NoDup values -> from values index = Some value -> indexOf value values = index.
Proof.
  unfold from. revert index. induction values as [|v rest IH]; intros index Hd H.
  - destruct (index <? 0)%Z; [discriminate H|]. rewrite lookup_nil in H. discriminate H.
  - destruct (Z.ltb_spec index 0) as [|Hge]; [discriminate H|].
    apply NoDup_cons in Hd. destruct Hd as [Hv Hd]. simpl.
    destruct (Z.to_nat index) as [|i] eqn:Ei.
    + simpl in H. injection H as ->. rewrite bool_decide_eq_true_2 by reflexivity. lia.
    + simpl in H.
      assert (value ∈ rest) as Hin by (eapply list_elem_of_lookup_2; exact H).
      rewrite bool_decide_eq_false_2 by (intros ->; contradiction).
      specialize (IH (Z.of_nat i) Hd).
      rewrite Nat2Z.id in IH.
      destruct (Z.ltb_spec (Z.of_nat i) 0); [lia|].
      rewrite (IH H). destruct (Z.ltb_spec (Z.of_nat i) 0); lia.
Qed.

(** X24. For an enumeration of distinct values, [from] and the call of the
    instance are inverse to each other: [from(instance(value))] is the
    value for every value of the enumeration, and [instance(v)] is the
    index for every index at which [from] gives a value [v]. A value that
    is not in the enumeration has the index -1, and [from] gives
    [undefined] at -1 and at the length and beyond. *)
Theorem Enum_round_trip (values : list string) :
  NoDup values ->
  (forall value, value ∈ values -> from values (call values value) = Some value)
  /\ (forall index value, from values index = Some value -> call values value = index)
  /\ (forall value, value ∉ values <-> call values value = (-1)%Z)
  /\ from values (-1) = None
  /\ (forall index, (Z.of_nat (length values) <= index)%Z -> from values index = None).
Proof.
  intros Hd. unfold call.
  split; [intros value; apply from_indexOf|].
  split; [intros index value; apply indexOf_from; exact Hd|].
  split; [intros value; symmetry; apply indexOf_absent|].
  split; [reflexivity|].
  intros index Hi. unfold from. destruct (Z.ltb_spec index 0); [reflexivity|].
  apply lookup_ge_None. lia.
Qed.

Lemma Enum_round_trip_witness :
  (forall value, value ∈ TextAlign -> from TextAlign (call TextAlign value) = Some value)
  /\ (forall index value, from TextAlign index = Some value ->
                          call TextAlign value = index)
  /\ (forall value, value ∉ TextAlign <-> call TextAlign value = (-1)%Z)
  /\ from TextAlign (-1) = None
  /\ (forall index, (Z.of_nat (length TextAlign) <= index)%Z ->
                    from TextAlign index = None).
Proof.
  apply (Enum_round_trip TextAlign).
  apply (bool_decide_unpack (NoDup _)). vm_compute. exact I.
Defined.

(** The enumerations of the library have distinct values, and the default
    style aligns text at their indices 1, "Center" and "Middle". *)
Lemma enums_are_distinct :
  NoDup PaintType /\ NoDup StrokeJoin /\ NoDup StrokeCap
  /\ NoDup TextAlign /\ NoDup VerticalTextAlign.
Proof. repeat split; apply (bool_decide_unpack (NoDup _)); vm_compute; exact I. Qed.

Lemma default_alignments :
  Style.s_textAlign Style.default
  = Some (Style.SNumber (PrimFloat.of_uint63 (Uint63.of_Z (call TextAlign "Center"))))
  /\ Style.s_verticalTextAlign Style.default
     = Some (Style.SNumber
               (PrimFloat.of_uint63 (Uint63.of_Z (call VerticalTextAlign "Middle")))).
Proof. split; vm_compute; reflexivity. Qed.

End EnumFacts.

(** ** The frame rate and the profiler *)

Module FramesFacts.
Import Frames.

Lemma SFleb_trans (a b c : spec_float) :
  SFleb a b = true -> SFleb b c = true -> SFleb a c = true.
Proof.
  unfold SFleb, SFcompare.
  destruct a as [sa|sa| |sa ma ea], b as [sb|sb| |sb mb eb], c as [sc|sc| |sc mc ec];
    try destruct sa; try destruct sb; try destruct sc; simpl;
    try congruence; try reflexivity;
    change (PosDef.Pos.compare_cont Eq ?p ?q) with (Pos.compare p q);
    destruct (Z.compare_spec ea eb), (Z.compare_spec eb ec), (Z.compare_spec ea ec);
    try lia; try congruence; try reflexivity; subst;
    destruct (Pos.compare_spec ma mb), (Pos.compare_spec mb mc), (Pos.compare_spec ma mc);
    simpl; try lia; try congruence; try reflexivity.
Qed.

Lemma leb_trans (a b c : float) :
  PrimFloat.leb a b = true -> PrimFloat.leb b c = true -> PrimFloat.leb a c = true.
Proof. rewrite !FloatAxioms.leb_spec. apply SFleb_trans. Qed.

Lemma shift_old_suffix (timestamp : float) (frameTimes : list float) :
  exists old, frameTimes = old ++ shift_old timestamp frameTimes
              /\ Forall (fun t => PrimFloat.leb t (timestamp - 1000) = true) old.
Proof.
  induction frameTimes as [|t rest IH]; simpl; [exists []; auto|].
  destruct (PrimFloat.leb t (timestamp - 1000)) eqn:E.
  - destruct IH as (old & Hold & Hall). exists (t :: old). split.
    + simpl. rewrite <- Hold. reflexivity.
    + constructor; assumption.
  - exists []. auto.
Qed.

Lemma ascending_shift_old (timestamp : float) (frameTimes : list float) :
  ascending frameTimes ->
  ascending (shift_old timestamp frameTimes)
  /\ Forall (fun t => PrimFloat.leb t (timestamp - 1000) = false)
       (shift_old timestamp frameTimes).
Proof.
  induction frameTimes as [|t rest IH]; simpl; [auto|]. intros [Hall Hasc].
  destruct (PrimFloat.leb t (timestamp - 1000)) eqn:E; [apply IH; exact Hasc|].
  split; [split; assumption|]. constructor; [exact E|].
  eapply Forall_impl; [exact Hall|]. intros u Htu. simpl in Htu.
  destruct (PrimFloat.leb u (timestamp - 1000)) eqn:Eu; [|reflexivity].
  rewrite (leb_trans _ _ _ Htu Eu) in E. discriminate E.
Qed.

Lemma ascending_snoc (l : list float) (t : float) :
  ascending l -> Forall (fun u => PrimFloat.leb u t = true) l -> ascending (l ++ [t]).
Proof.
  induction l as [|u l IH]; simpl; [auto|]. intros [Hall Hasc] Hle.
  apply Forall_cons in Hle. destruct Hle as [Hut Hle]. split.
  - apply Forall_app. split; [exact Hall|]. constructor; [exact Hut | constructor].
  - apply IH; assumption.
Qed.

(** X25. With timestamps that do not decrease, [frameTimes] stays in
    ascending order from frame to frame, and after the head of [update]
    it holds the new timestamp, so that the frame rate is at least 1,
    after those of the earlier timestamps that are not a second old
    ([t <= timestamp - 1000] is false for them); the timestamps that it
    dropped are a second old or older. *)
Theorem frame_window (timestamp : float) (frameTimes : list float) :
  ascending frameTimes ->
  Forall (fun t => PrimFloat.leb t timestamp = true) frameTimes ->
  let window := push_frame timestamp frameTimes in
  (1 <= fps window)%nat
  /\ ascending window
  /\ (exists old,
         frameTimes ++ [timestamp] = old ++ window
         /\ Forall (fun t => PrimFloat.leb t (timestamp - 1000) = true) old)
  /\ Forall (fun t => PrimFloat.leb t (timestamp - 1000) = false)
       (shift_old timestamp frameTimes).
Proof.
  intros Hasc Hle. cbv zeta. unfold push_frame, fps.
  destruct (shift_old_suffix timestamp frameTimes) as (old & Hold & Hall).
  destruct (ascending_shift_old timestamp frameTimes Hasc) as [Hasc' Hyoung].
  assert (Forall (fun t => PrimFloat.leb t timestamp = true)
            (shift_old timestamp frameTimes)) as Hle'.
  { rewrite Hold in Hle. apply Forall_app in Hle. apply Hle. }
  split; [rewrite length_app; simpl; lia|].
  split; [apply ascending_snoc; assumption|].
  split; [|exact Hyoung].
  exists old. split; [|exact Hall].
  rewrite app_assoc, <- Hold. reflexivity.
Qed.

Lemma frame_window_witness :
  let window := push_frame 1016 [0; 16; 33] in
  (1 <= fps window)%nat
  /\ ascending window
  /\ (exists old,
         [0; 16; 33] ++ [1016] = old ++ window
         /\ Forall (fun t => PrimFloat.leb t (1016 - 1000) = true) old)
  /\ Forall (fun t => PrimFloat.leb t (1016 - 1000) = false) (shift_old 1016 [0; 16; 33]).
Proof.
  apply (frame_window 1016 [0; 16; 33]).
  - simpl. repeat split; repeat constructor.
  - repeat constructor.
Defined.

End FramesFacts.

Module WatcherFacts.
Import Watcher.

Section MapFacts.
Context {V : Type}.
Implicit Types (m : list (key * V)) (k : key) (v : V).

Lemma map_get_set_eq k v m : map_get k (map_set k v m) = Some v.
Proof.
  induction m as [|[k' v'] m IH]; simpl.
  - rewrite bool_decide_eq_true_2 by reflexivity. reflexivity.
  - destruct (bool_decide (k = k')) eqn:E; simpl; rewrite ?E; [|exact IH].
    rewrite bool_decide_eq_true_2 by reflexivity. reflexivity.
Qed.

Lemma map_get_set_ne k k' v m : k <> k' -> map_get k (map_set k' v m) = map_get k m.
Proof.
  intros Hne. induction m as [|[k0 v0] m IH]; simpl.
  - rewrite bool_decide_eq_false_2 by assumption. reflexivity.
  - destruct (bool_decide (k' = k0)) eqn:E; simpl.
    + apply bool_decide_eq_true_1 in E. subst k0.
      rewrite !bool_decide_eq_false_2 by assumption. reflexivity.
    + rewrite IH. reflexivity.
Qed.

Lemma map_get_delete_eq k m : map_get k (map_delete k m) = None.
Proof.
  induction m as [|[k' v'] m IH]; simpl; [reflexivity|].
  destruct (bool_decide (k = k')) eqn:E; simpl; rewrite ?E; exact IH.
Qed.

Lemma map_get_delete_ne k k' m : k <> k' -> map_get k (map_delete k' m) = map_get k m.
Proof.
  intros Hne. induction m as [|[k0 v0] m IH]; simpl; [reflexivity|].
  destruct (bool_decide (k' = k0)) eqn:E; simpl.
  - apply bool_decide_eq_true_1 in E. subst k0.
    rewrite bool_decide_eq_false_2 by assumption. exact IH.
  - rewrite IH. reflexivity.
Qed.

Lemma map_set_Forall (P : key * V -> Prop) k v m :
  Forall P m -> P (k, v) -> Forall P (map_set k v m).
Proof.
  intros Hm Hv. induction m as [|[k' v'] m IH]; simpl; [repeat constructor; exact Hv|].
  apply Forall_cons in Hm. destruct Hm as [Hk Hm].
  destruct (bool_decide (k = k')); constructor; auto.
Qed.

Lemma map_delete_Forall (P : key * V -> Prop) k m :
  Forall P m -> Forall P (map_delete k m).
Proof.
  intros Hm. induction m as [|[k' v'] m IH]; simpl; [constructor|].
  apply Forall_cons in Hm. destruct Hm as [Hk Hm].
  destruct (bool_decide (k = k')); [|constructor]; auto.
Qed.

Lemma map_get_Forall (P : key * V -> Prop) k v m :
  Forall P m -> map_get k m = Some v -> P (k, v).
Proof.
  intros Hm. induction m as [|[k' v'] m IH]; simpl; [discriminate|].
  apply Forall_cons in Hm. destruct Hm as [Hk Hm].
  destruct (bool_decide (k = k')) eqn:E; [|auto].
  apply bool_decide_eq_true_1 in E. subst k'. intros [= <-]. exact Hk.
Qed.
End MapFacts.

Lemma map_has_get {V} (k : key) (m : list (key * V)) :
  map_has k m = true <-> is_Some (map_get k m).
Proof.
  unfold map_has. destruct (map_get k m); split; eauto; try discriminate.
  intros [? H]. discriminate H.
Qed.

Lemma well_formed_start (k : key) (now : float) (random : float * float * float)
    (w : performanceWatcher) :
  well_formed w -> well_formed (start k now random w).
Proof.
  intros [Hlen Hrec]. unfold start. split; simpl.
  - destruct (map_has k (data w)); [exact Hlen|].
    apply map_set_Forall; [exact Hlen | reflexivity].
  - intros k' Hk'. destruct (decide (k' = k)) as [->|Hne].
    + destruct (map_has k (data w)) eqn:E; [apply map_has_get; exact E|].
      rewrite map_get_set_eq. eauto.
    + rewrite map_get_set_ne in Hk' by assumption.
      destruct (map_has k (data w)); [auto|].
      rewrite map_get_set_ne by assumption. auto.
Qed.

Lemma length_tail_snoc (array : list float) (d : float) :
  length (tail (array ++ [d])) = length array.
Proof. destruct array; simpl; [reflexivity|]. rewrite length_app. simpl. lia. Qed.

Lemma end_returns (k : key) (now : float) (w : performanceWatcher) :
  well_formed w -> exists w', end_ k now w = Js.Ok w' /\ well_formed w'.
Proof.
  intros [Hlen Hrec]. unfold end_. set (k0 := end_key k w).
  destruct (map_get k0 (recording w)) as [began|] eqn:Eb.
  - destruct (Hrec k0 (ex_intro _ _ Eb)) as [array Ea]. rewrite Ea.
    eexists. split; [reflexivity|]. split; simpl.
    + apply map_set_Forall; [exact Hlen|]. simpl. rewrite length_tail_snoc.
      exact (map_get_Forall _ _ _ _ Hlen Ea).
    + intros k' Hk'. destruct (decide (k' = k0)) as [->|Hne].
      * rewrite map_get_delete_eq in Hk'. destruct Hk' as [? Hk']. discriminate Hk'.
      * rewrite map_get_delete_ne in Hk' by assumption.
        rewrite map_get_set_ne by assumption. auto.
  - eexists. split; [reflexivity|]. split; simpl; [exact Hlen|].
    intros k' Hk'. destruct (decide (k' = k0)) as [->|Hne].
    + rewrite map_get_delete_eq in Hk'. destruct Hk' as [? Hk']. discriminate Hk'.
    + rewrite map_get_delete_ne in Hk' by assumption. auto.
Qed.

Lemma well_formed_delete (k : key) (w : performanceWatcher) :
  well_formed w -> well_formed (delete k w).
Proof.
  intros [Hlen Hrec]. split; simpl.
  - apply map_delete_Forall. exact Hlen.
  - intros k' Hk'. destruct (decide (k' = k)) as [->|Hne].
    + rewrite map_get_delete_eq in Hk'. destruct Hk' as [? Hk']. discriminate Hk'.
    + rewrite map_get_delete_ne in Hk' by assumption.
      rewrite map_get_delete_ne by assumption. auto.
Qed.

Lemma averages_returns (entries : list (key * list float)) :
  Forall (fun e => length (snd e) = 5%nat) entries ->
  exists calls, averages entries = Js.Ok calls /\ map fst calls = map fst entries.
Proof.
  induction entries as [|[k value] rest IH]; intros H; [exists []; auto|].
  apply Forall_cons in H. destruct H as [Hk H].
  destruct (IH H) as (calls & Hc & Hkeys). simpl in Hk.
  destruct value as [|a value]; [discriminate Hk|].
  simpl. rewrite Hc. simpl. eexists. split; [reflexivity|]. simpl.
  rewrite Hkeys. reflexivity.
Qed.

Lemma well_formed_new : well_formed new_performanceWatcher.
Proof. split; simpl; [constructor|]. intros k [? H]. discriminate H. Qed.

(** X26. The operations of a [performanceWatcher] keep it well formed: every
    array of durations has five elements, and a key that is being recorded
    has an array. On a well-formed watcher [end] does not throw, whatever
    its key, [get] gives arrays of five elements, and [forEach] calls its
    callback once for every key, in the order of insertion, without
    throwing. *)
Theorem performanceWatcher_keeps_five_samples (w : performanceWatcher) :
  well_formed w ->
  (forall k now random, well_formed (start k now random w))
  /\ (forall k now, exists w', end_ k now w = Js.Ok w' /\ well_formed w')
  /\ (forall k, well_formed (delete k w))
  /\ well_formed (clear w)
  /\ (forall k array, get k w = Some array -> length array = 5%nat)
  /\ (exists calls, forEach w = Js.Ok calls /\ map fst calls = map fst (data w)).
Proof.
  intros Hw.
  split; [intros; apply well_formed_start; exact Hw|].
  split; [intros; apply end_returns; exact Hw|].
  split; [intros; apply well_formed_delete; exact Hw|].
  split.
  { split; simpl; [constructor|]. intros k [? H]. discriminate H. }
  split.
  { intros k array H. exact (map_get_Forall _ _ _ _ (proj1 Hw) H). }
  apply averages_returns. exact (proj1 Hw).
Qed.

Lemma performanceWatcher_keeps_five_samples_witness :
  (forall k now random, well_formed (start k now random new_performanceWatcher))
  /\ (forall k now,
        exists w', end_ k now new_performanceWatcher = Js.Ok w' /\ well_formed w')
  /\ (forall k, well_formed (delete k new_performanceWatcher))
  /\ well_formed (clear new_performanceWatcher)
  /\ (forall k array, get k new_performanceWatcher = Some array -> length array = 5%nat)
  /\ (exists calls,
        forEach new_performanceWatcher = Js.Ok calls
        /\ map fst calls = map fst (data new_performanceWatcher)).
Proof.
  apply (performanceWatcher_keeps_five_samples new_performanceWatcher).
  apply well_formed_new.
Defined.

(** X27. When nothing is being recorded, [start(key)] followed by [end()]
    without a key adds the time between the two calls at the end of the
    array of the key, which is five zeros for a new key, and drops the
    first element of the array; nothing is being recorded afterwards, and
    the arrays of the other keys are as before. *)
Theorem performanceWatcher_records_the_duration
    (k : key) (began now : float) (random : float * float * float)
    (w : performanceWatcher) :
  recording w = [] ->
  exists w',
    end_ None now (start k began random w) = Js.Ok w'
    /\ recording w' = []
    /\ get k w'
       = Some (tail (match get k w with
                     | Some array => array
                     | None => [0; 0; 0; 0; 0]
                     end ++ [now - began]))
    /\ (forall k', k' <> k -> get k' w' = get k' w).
Proof.
  intros Hrec. unfold end_, end_key, start, get. simpl. rewrite Hrec. simpl.
  rewrite bool_decide_eq_true_2 by reflexivity.
  unfold map_has. destruct (map_get k (data w)) as [array|] eqn:Ea.
  - rewrite Ea. eexists. split; [reflexivity|]. simpl.
    split; [reflexivity|]. split; [apply map_get_set_eq|].
    intros k' Hne. apply map_get_set_ne. exact Hne.
  - rewrite map_get_set_eq. eexists. split; [reflexivity|]. simpl.
    rewrite ?bool_decide_eq_true_2 by reflexivity.
    split; [reflexivity|]. split; [apply map_get_set_eq|].
    intros k' Hne. rewrite !map_get_set_ne by assumption. reflexivity.
Qed.

Lemma performanceWatcher_records_the_duration_witness :
  exists w',
    end_ None 1016 (start (Some "layout") 1000 (0.5, 0.5, 0.5) new_performanceWatcher)
    = Js.Ok w'
    /\ recording w' = []
    /\ get (Some "layout") w' = Some (tail ([0; 0; 0; 0; 0] ++ [1016 - 1000]))
    /\ (forall k', k' <> Some "layout" -> get k' w' = get k' new_performanceWatcher).
Proof.
  apply (performanceWatcher_records_the_duration (Some "layout") 1000 1016
           (0.5, 0.5, 0.5) new_performanceWatcher).
  reflexivity.
Defined.

End WatcherFacts.
